(** * Video-Transcoder: upload coordinator, storage GC, worker and event bus

    A shallow embedding of the backend of the video transcoding service
    (server/storage.ts, server/storage-cleanup.ts, server/routes.ts,
    server/queue.ts, server/worker.ts, shared/schema.ts) together with the
    properties the specification states about it.

    Conventions of the embedding:
    - JavaScript numbers that hold integers (chunk indices, counts, exit
      codes, millisecond timestamps) are [Z]; percentages, which the code
      obtains by division, are exact rationals [Q], so IEEE rounding is
      outside the model;
    - a string is the sequence of the bytes of its UTF-8 encoding, and a
      path is a POSIX path;
    - [Map<string, T>] is [gmap string T]; [Set<string>] is [gset string];
    - [undefined] is [None]; a [Partial<T>] update is a record of options;
    - [randomUUID()] and [new Date()] are arguments of the operations that
      call them;
    - code between two [await]s runs without interruption on the single
      JavaScript thread, so an operation of the state store, none of
      which awaits, is a function from store to store; file system calls
      succeed unless a definition says otherwise. *)

From Stdlib Require Import ZArith QArith Qminmax Lia String Ascii List.
From stdpp Require Import base gmap strings list sorting pretty.
Close Scope Q_scope.
Local Open Scope string_scope.
Local Open Scope Z_scope.

(** ** JavaScript built-ins used by the server *)

Module JS.

(** A JavaScript string is held as the bytes of its UTF-8 encoding, the
    form in which the text fields of a request arrive.

    [StrWhiteSpaceChar] is [WhiteSpace] (TAB, VT, FF, U+FEFF and the
    space separators U+0020, U+00A0, U+1680, U+2000 to U+200A, U+202F,
    U+205F, U+3000) and [LineTerminator] (LF, CR, U+2028, U+2029).
    [is_ws] recognises the six that take one byte. *)
Definition is_ws (c : ascii) : bool :=
  let n := nat_of_ascii c in
  (n =? 32)%nat || (n =? 9)%nat || (n =? 10)%nat || (n =? 11)%nat
  || (n =? 12)%nat || (n =? 13)%nat.

(** The first byte of the longer ones: C2, E1, E2, E3, EF. *)
Definition ws_lead (c : ascii) : bool :=
  let n := nat_of_ascii c in
  (n =? 194)%nat || (n =? 225)%nat || (n =? 226)%nat || (n =? 227)%nat
  || (n =? 239)%nat.

(** U+00A0 is C2 A0. *)
Definition is_ws2 (c1 c2 : ascii) : bool :=
  (nat_of_ascii c1 =? 194)%nat && (nat_of_ascii c2 =? 160)%nat.

(** U+1680 is E1 9A 80; U+2000 to U+200A are E2 80 80 to E2 80 8A;
    U+2028, U+2029 and U+202F are E2 80 A8, E2 80 A9 and E2 80 AF;
    U+205F is E2 81 9F; U+3000 is E3 80 80; U+FEFF is EF BB BF. *)
Definition is_ws3 (c1 c2 c3 : ascii) : bool :=
  let n1 := nat_of_ascii c1 in
  let n2 := nat_of_ascii c2 in
  let n3 := nat_of_ascii c3 in
  ((n1 =? 225) && (n2 =? 154) && (n3 =? 128))%nat
  || ((n1 =? 226) && (n2 =? 128)
      && (((128 <=? n3) && (n3 <=? 138)) || (n3 =? 168) || (n3 =? 169) || (n3 =? 175)))%nat
  || ((n1 =? 226) && (n2 =? 129) && (n3 =? 159))%nat
  || ((n1 =? 227) && (n2 =? 128) && (n3 =? 128))%nat
  || ((n1 =? 239) && (n2 =? 187) && (n3 =? 191))%nat.

(** The string without its leading [StrWhiteSpaceChar]s. *)
Fixpoint skip_ws (s : string) : string :=
  match s with
  | String c s' =>
      if is_ws c then skip_ws s'
      else if negb (ws_lead c) then s
      else match s' with
           | String c2 s2 =>
               if is_ws2 c c2 then skip_ws s2
               else match s2 with
                    | String c3 s3 => if is_ws3 c c2 c3 then skip_ws s3 else s
                    | EmptyString => s
                    end
           | EmptyString => s
           end
  | EmptyString => s
  end.

(** Value of a character as a digit, for radices up to 36. *)
Definition char_val (c : ascii) : option Z :=
  let n := Z.of_nat (nat_of_ascii c) in
  if (48 <=? n) && (n <=? 57) then Some (n - 48)
  else if (97 <=? n) && (n <=? 122) then Some (n - 87)
  else if (65 <=? n) && (n <=? 90) then Some (n - 55)
  else None.

Definition digit_val (radix : Z) (c : ascii) : option Z :=
  match char_val c with
  | Some d => if d <? radix then Some d else None
  | None => None
  end.

(** The longest prefix of digits of the radix, read as a number;
    [None] when the prefix is empty. *)
Fixpoint parse_digits (radix : Z) (s : string) (acc : option Z) : option Z :=
  match s with
  | EmptyString => acc
  | String c s' =>
      match digit_val radix c with
      | Some d => parse_digits radix s' (Some (radix * default 0 acc + d))
      | None => acc
      end
  end.

(** [parseInt(s)] with no radix argument; [None] is [NaN]. *)
Definition parseInt (s : string) : option Z :=
  let s1 := skip_ws s in
  let '(sign, s2) :=
    match s1 with
    | String "-" r => (-1, r)
    | String "+" r => (1, r)
    | _ => (1, s1)
    end in
  let '(radix, s3) :=
    match s2 with
    | String "0" (String "x" r) => (16, r)
    | String "0" (String "X" r) => (16, r)
    | _ => (10, s2)
    end in
  match parse_digits radix s3 None with
  | Some n => Some (sign * n)
  | None => None
  end.

Definition is_digit (c : ascii) : bool :=
  let n := nat_of_ascii c in (48 <=? n)%nat && (n <=? 57)%nat.

(** The longest prefix of decimal digits, what [\d+] captures. *)
Fixpoint take_digits (s : string) : string :=
  match s with
  | String c s' => if is_digit c then String c (take_digits s') else EmptyString
  | EmptyString => EmptyString
  end.

Fixpoint strip_prefix (p s : string) : option string :=
  match p, s with
  | EmptyString, _ => Some s
  | String a p', String b s' => if Ascii.eqb a b then strip_prefix p' s' else None
  | String _ _, EmptyString => None
  end.

(** [s.startsWith(p)]. *)
Definition startsWith (s p : string) : bool :=
  match strip_prefix p s with Some _ => true | None => false end.

(** Exactly two decimal digits, what [(\d{2})] captures, and the rest. *)
Definition two_digits (s : string) : option (string * string) :=
  match s with
  | String a (String b r) =>
      if is_digit a && is_digit b then Some (String a (String b EmptyString), r)
      else None
  | _ => None
  end.

(** [arr.includes(x)] on an array of integers. *)
Definition includes (x : Z) (l : list Z) : bool := bool_decide (x ∈ l).

(** [arr.sort(cmp)]: the sort is stable; it is written here as a stable
    insertion sort driven by the sign of the comparator. *)
Fixpoint sort_insert {A} (cmp : A → A → Z) (x : A) (l : list A) : list A :=
  match l with
  | [] => [x]
  | y :: l' => if cmp x y <=? 0 then x :: y :: l' else y :: sort_insert cmp x l'
  end.

Definition sort {A} (cmp : A → A → Z) (l : list A) : list A :=
  foldr (sort_insert cmp) [] l.

(** [arr.slice(0, n)]. *)
Definition slice0 {A} (n : nat) (l : list A) : list A := take n l.

End JS.

(** ** shared/schema.ts *)

Module VideoStatus.
Inductive t := UPLOADING | UPLOAD_COMPLETED | QUEUED | TRANSCODING | COMPLETED | FAILED.
#[global] Instance eq_dec : EqDecision t.
Proof. solve_decision. Defined.
End VideoStatus.

Module Resolution.
Inductive t := R360P | R720P | R1080P.
#[global] Instance eq_dec : EqDecision t.
Proof. solve_decision. Defined.

(** The string value of the constant, used in paths and URLs. *)
Definition name (r : t) : string :=
  match r with R360P => "360p" | R720P => "720p" | R1080P => "1080p" end.

Definition all : list t := [R360P; R720P; R1080P].
End Resolution.

Module EventType.
Inductive t :=
  UPLOAD_COMPLETED | TRANSCODING_STARTED | TRANSCODING_PROGRESS
| TRANSCODING_COMPLETED | TRANSCODING_FAILED.
End EventType.

Module SessionStatus.
Inductive t := active | completed | expired.
#[global] Instance eq_dec : EqDecision t.
Proof. solve_decision. Defined.
End SessionStatus.

Module JobStatus.
Inductive t := pending | processing | completed | failed.
#[global] Instance eq_dec : EqDecision t.
Proof. solve_decision. Defined.
End JobStatus.

(** [z.record(z.enum([360p, 720p, 1080p]), T)]: an object with at most the
    three resolution keys. *)
Module ResRecord.
Record t (A : Type) := mk { r360p : option A; r720p : option A; r1080p : option A }.
Arguments mk {A}.
Arguments r360p {A}.
Arguments r720p {A}.
Arguments r1080p {A}.

Definition empty {A} : t A := mk None None None.

Definition get {A} (o : t A) (r : Resolution.t) : option A :=
  match r with
  | Resolution.R360P => r360p o
  | Resolution.R720P => r720p o
  | Resolution.R1080P => r1080p o
  end.

(** [o[r] = x]. *)
Definition set {A} (o : t A) (r : Resolution.t) (x : A) : t A :=
  match r with
  | Resolution.R360P => mk (Some x) (r720p o) (r1080p o)
  | Resolution.R720P => mk (r360p o) (Some x) (r1080p o)
  | Resolution.R1080P => mk (r360p o) (r720p o) (Some x)
  end.

End ResRecord.

Module Video.
Record t := mk {
  id : string;
  filename : string;
  originalSize : Z;
  mimeType : string;
  status : VideoStatus.t;
  uploadProgress : Q;
  transcodingProgress : option (ResRecord.t Q);
  hlsUrls : option (ResRecord.t string);
  errorMessage : option string;
  createdAt : Z;
  completedAt : option Z;
}.

(** [Partial<Video>]: [None] is an absent key.  For the optional fields a
    present key may carry [undefined], which the spread copies too. *)
Record partial := mkPartial {
  p_status : option VideoStatus.t;
  p_uploadProgress : option Q;
  p_transcodingProgress : option (option (ResRecord.t Q));
  p_hlsUrls : option (option (ResRecord.t string));
  p_errorMessage : option (option string);
  p_completedAt : option (option Z);
}.

Definition no_update : partial := mkPartial None None None None None None.

(** [{ ...video, ...updates }]. *)
Definition spread (v : t) (u : partial) : t :=
  mk (id v) (filename v) (originalSize v) (mimeType v)
     (default (status v) (p_status u))
     (default (uploadProgress v) (p_uploadProgress u))
     (default (transcodingProgress v) (p_transcodingProgress u))
     (default (hlsUrls v) (p_hlsUrls u))
     (default (errorMessage v) (p_errorMessage u))
     (createdAt v)
     (default (completedAt v) (p_completedAt u)).
End Video.

Module UploadSession.
Record t := mk {
  id : string;
  videoId : string;
  filename : string;
  totalSize : Z;
  chunkSize : Z;
  totalChunks : Z;
  uploadedChunks : list Z;
  status : SessionStatus.t;
  createdAt : Z;
  expiresAt : Z;
}.

Record partial := mkPartial {
  p_uploadedChunks : option (list Z);
  p_status : option SessionStatus.t;
}.

Definition spread (s : t) (u : partial) : t :=
  mk (id s) (videoId s) (filename s) (totalSize s) (chunkSize s) (totalChunks s)
     (default (uploadedChunks s) (p_uploadedChunks u))
     (default (status s) (p_status u))
     (createdAt s) (expiresAt s).

Definition with_uploadedChunks (s : t) (l : list Z) : t :=
  mk (id s) (videoId s) (filename s) (totalSize s) (chunkSize s) (totalChunks s)
     l (status s) (createdAt s) (expiresAt s).
End UploadSession.

Module TranscodingJob.
Record t := mk {
  id : string;
  videoId : string;
  resolution : Resolution.t;
  status : JobStatus.t;
  progress : Q;
  inputPath : string;
  outputPath : option string;
  errorMessage : option string;
  createdAt : Z;
  startedAt : option Z;
  completedAt : option Z;
}.

Record partial := mkPartial {
  p_status : option JobStatus.t;
  p_progress : option Q;
  p_outputPath : option string;
  p_startedAt : option Z;
  p_completedAt : option Z;
}.

Definition spread (j : t) (u : partial) : t :=
  mk (id j) (videoId j) (resolution j)
     (default (status j) (p_status u))
     (default (progress j) (p_progress u))
     (inputPath j)
     (from_option Some (outputPath j) (p_outputPath u))
     (errorMessage j)
     (createdAt j)
     (from_option Some (startedAt j) (p_startedAt u))
     (from_option Some (completedAt j) (p_completedAt u)).
End TranscodingJob.

Module VideoEvent.
(** The payload [data] of an event, one shape per emitting site. *)
Inductive data :=
| UploadData (filename : string) (size : Z)
| StartedData (resolutions : list Resolution.t)
| ProgressData (resolution : Resolution.t) (progress : Q) (jobId : string)
| CompletedData (resolution : Resolution.t) (jobId hlsUrl : string)
| FailedData (resolution : Resolution.t) (jobId error : string).

Record t := mk {
  type : EventType.t;
  videoId : string;
  payload : option data;
  timestamp : Z;
}.
End VideoEvent.

(** ** server/storage.ts: the in-memory state store *)

Module MemStorage.
Record t := mk {
  videos : gmap string Video.t;
  uploadSessions : gmap string UploadSession.t;
  transcodingJobs : gmap string TranscodingJob.t;
}.

Definition empty : t := mk ∅ ∅ ∅.

Definition set_videos (st : t) (m : gmap string Video.t) : t :=
  mk m (uploadSessions st) (transcodingJobs st).
Definition set_uploadSessions (st : t) (m : gmap string UploadSession.t) : t :=
  mk (videos st) m (transcodingJobs st).
Definition set_transcodingJobs (st : t) (m : gmap string TranscodingJob.t) : t :=
  mk (videos st) (uploadSessions st) m.

Definition createVideo (id : string) (now : Z)
    (filename : string) (size : Z) (mimeType : string) (st : t) : Video.t * t :=
  let video :=
    Video.mk id filename size mimeType VideoStatus.UPLOADING 0%Q None None None now None in
  (video, set_videos st (<[id := video]> (videos st))).

Definition getVideo (id : string) (st : t) : option Video.t := videos st !! id.

Definition updateVideo (id : string) (updates : Video.partial) (st : t)
    : option Video.t * t :=
  match videos st !! id with
  | None => (None, st)
  | Some video =>
      let updated := Video.spread video updates in
      (Some updated, set_videos st (<[id := updated]> (videos st)))
  end.

Definition deleteVideo (id : string) (st : t) : bool * t :=
  (bool_decide (is_Some (videos st !! id)), set_videos st (delete id (videos st))).

(** [Math.ceil(totalSize / chunkSize)] on positive integers. *)
Definition ceil_div (a b : Z) : Z := - ((- a) / b).

Definition createUploadSession (id : string) (now : Z)
    (videoId filename : string) (totalSize chunkSize : Z) (st : t)
    : UploadSession.t * t :=
  let totalChunks := ceil_div totalSize chunkSize in
  let expires := now + 24 * 60 * 60 * 1000 in
  let session :=
    UploadSession.mk id videoId filename totalSize chunkSize totalChunks []
                     SessionStatus.active now expires in
  (session, set_uploadSessions st (<[id := session]> (uploadSessions st))).

Definition getUploadSession (id : string) (st : t) : option UploadSession.t :=
  uploadSessions st !! id.

Definition updateUploadSession (id : string) (updates : UploadSession.partial) (st : t)
    : option UploadSession.t * t :=
  match uploadSessions st !! id with
  | None => (None, st)
  | Some session =>
      let updated := UploadSession.spread session updates in
      (Some updated, set_uploadSessions st (<[id := updated]> (uploadSessions st)))
  end.

(** [(session.uploadedChunks.length / session.totalChunks) * 100]. *)
Definition progressOf (session : UploadSession.t) : Q :=
  ((inject_Z (Z.of_nat (length (UploadSession.uploadedChunks session)))
    / inject_Z (UploadSession.totalChunks session)) * 100)%Q.

(** The session object is mutated in place and then written back under
    its key; the video, when present, is replaced by a copy with the new
    [uploadProgress]. *)
Definition markChunkUploaded (sessionId : string) (chunkIndex : Z) (st : t)
    : option UploadSession.t * t :=
  match uploadSessions st !! sessionId with
  | None => (None, st)
  | Some session0 =>
      let session :=
        if negb (JS.includes chunkIndex (UploadSession.uploadedChunks session0))
        then UploadSession.with_uploadedChunks session0
               (JS.sort (λ a b, a - b)
                  (UploadSession.uploadedChunks session0 ++ [chunkIndex]))
        else session0 in
      let st1 := set_uploadSessions st (<[sessionId := session]> (uploadSessions st)) in
      let st2 :=
        match videos st1 !! UploadSession.videoId session with
        | Some video =>
            let progress := progressOf session in
            set_videos st1
              (<[UploadSession.videoId session :=
                   Video.spread video
                     (Video.mkPartial None (Some progress) None None None None)]>
                 (videos st1))
        | None => st1
        end in
      (Some session, st2)
  end.

Definition createTranscodingJob (id : string) (now : Z)
    (videoId : string) (resolution : Resolution.t) (inputPath : string) (st : t)
    : TranscodingJob.t * t :=
  let job :=
    TranscodingJob.mk id videoId resolution JobStatus.pending 0%Q inputPath
                      None None now None None in
  (job, set_transcodingJobs st (<[id := job]> (transcodingJobs st))).

Definition getTranscodingJob (id : string) (st : t) : option TranscodingJob.t :=
  transcodingJobs st !! id.

Definition updateTranscodingJob (id : string) (updates : TranscodingJob.partial) (st : t)
    : option TranscodingJob.t * t :=
  match transcodingJobs st !! id with
  | None => (None, st)
  | Some job =>
      let updated := TranscodingJob.spread job updates in
      (Some updated, set_transcodingJobs st (<[id := updated]> (transcodingJobs st)))
  end.

End MemStorage.

(** ** Paths

    A file is named by the components of its absolute path, from the
    root of the file system down.  [path.join(DIR, rel)] joins the two
    strings with a separator and normalises the result, and the file
    system then resolves what is left against the working directory; with
    [dir] the components of the absolute path of [DIR] the two steps come
    to walking the components of [rel] from [dir].  There are no symbolic
    links. *)

Module Path.

(** [s.split("/")]. *)
Fixpoint split (s : string) : list string :=
  match s with
  | EmptyString => [EmptyString]
  | String c s' =>
      if Ascii.eqb c "/" then EmptyString :: split s'
      else match split s' with
           | seg :: segs => String c seg :: segs
           | [] => [String c EmptyString]
           end
  end.

(** One component walked from [at_]: an empty component and [.] stay
    where they are, [..] goes to the parent (the root of the file system
    is its own parent), a name goes down. *)
Definition enter (at_ : list string) (seg : string) : list string :=
  if bool_decide (seg = "") || bool_decide (seg = ".") then at_
  else if bool_decide (seg = "..") then removelast at_
  else (at_ ++ [seg])%list.

(** The file [path.join(DIR, rel)] names. *)
Definition join (dir : list string) (rel : string) : list string :=
  foldl enter dir (split rel).

Fixpoint hasChar (c : ascii) (s : string) : bool :=
  match s with
  | EmptyString => false
  | String c' s' => Ascii.eqb c c' || hasChar c s'
  end.

(** A path with a NUL byte is refused by every [fs] call; [existsSync]
    answers false for it. *)
Definition hasNul (s : string) : bool := hasChar Ascii.zero s.

(** Whether the string ends with a separator: [path.join] keeps it, and
    the path then names a directory only. *)
Fixpoint trailingSlash (s : string) : bool :=
  match s with
  | EmptyString => false
  | String c EmptyString => Ascii.eqb c "/"
  | String _ s' => trailingSlash s'
  end.

(** A string that is one component of a path and names an entry: it has
    no separator and no NUL byte and is none of the empty string, [.] and
    [..].  The ids [randomUUID()] gives are of this kind. *)
Definition plain (s : string) : bool :=
  negb (bool_decide (s = "")) && negb (bool_decide (s = "."))
  && negb (bool_decide (s = "..")) && negb (hasChar "/" s) && negb (hasNul s).

End Path.

(** ** The storage directory

    [chunks/] holds plain files (the [temp_*] files multer writes) and one
    directory per upload session with the [chunk_<index>] files;
    [uploads/] holds the assembled sources; [transcoded/] holds one
    directory per video with its resolution sub-directories.  What is
    recorded is the content of the three directories: the files inside a
    resolution sub-directory are not, and neither is anything outside
    the storage directory. *)

Module Disk.
Inductive entry :=
| File (size : Z)
| Dir (mtimeMs : option Z) (files : gmap string Z).
(* [mtimeMs = None] stands for a directory on which [statSync] throws. *)

Record t := mk {
  chunks : gmap string entry;
  uploads : gset string;
  transcoded : gmap string (gset string);
}.

Definition set_chunks (d : t) (m : gmap string entry) : t :=
  mk m (uploads d) (transcoded d).
Definition set_uploads (d : t) (s : gset string) : t :=
  mk (chunks d) s (transcoded d).
Definition set_transcoded (d : t) (m : gmap string (gset string)) : t :=
  mk (chunks d) (uploads d) m.

Definition isDirectory (e : entry) : bool :=
  match e with Dir _ _ => true | File _ => false end.

(** [`chunk_${i}`]. *)
Definition chunkName (i : Z) : string := "chunk_" +:+ pretty i.

(** [existsSync(path.join(CHUNKS_DIR, sessionId, `chunk_${i}`))]. *)
Definition chunkExists (d : t) (sessionId : string) (i : Z) : bool :=
  match chunks d !! sessionId with
  | Some (Dir _ files) => bool_decide (is_Some (files !! chunkName i))
  | _ => false
  end.

(** [path] without the components of [root] it starts with, if it does. *)
Fixpoint below (root path : list string) : option (list string) :=
  match root, path with
  | [], _ => Some path
  | r :: root', p :: path' => if bool_decide (r = p) then below root' path' else None
  | _ :: _, [] => None
  end.

(** What a path leads to. *)
Inductive target :=
| Storage
| Chunks
| Uploads
| Transcoded
| Entry (name : string) (e : entry)
| ChunkFile (session : string) (files : gmap string Z) (name : string)
| Upload (name : string)
| Tree (id : string)
| Resolution (id : string) (dirs : gset string) (name : string)
| Nothing
| Beyond.
(* [Nothing]: no such file.  [Beyond]: the path leaves the storage
   directory, names another entry of it or a file inside a resolution
   sub-directory, none of which is recorded. *)

Definition locate (root path : list string) (d : t) : target :=
  match below root path with
  | None => Beyond
  | Some [] => Storage
  | Some [top] =>
      if bool_decide (top = "chunks") then Chunks
      else if bool_decide (top = "uploads") then Uploads
      else if bool_decide (top = "transcoded") then Transcoded
      else Beyond
  | Some (top :: name :: more) =>
      if bool_decide (top = "chunks") then
        match chunks d !! name, more with
        | Some e, [] => Entry name e
        | Some (Dir _ files), [file] =>
            if bool_decide (is_Some (files !! file)) then ChunkFile name files file
            else Nothing
        | _, _ => Nothing
        end
      else if bool_decide (top = "uploads") then
        match more with
        | [] => if bool_decide (name ∈ uploads d) then Upload name else Nothing
        | _ => Nothing
        end
      else if bool_decide (top = "transcoded") then
        match transcoded d !! name, more with
        | Some _, [] => Tree name
        | Some dirs, sub :: more' =>
            if bool_decide (sub ∈ dirs) then
              match more' with [] => Resolution name dirs sub | _ => Beyond end
            else Nothing
        | None, _ => Nothing
        end
      else Beyond
  end.

Definition isDir (g : target) : bool :=
  match g with
  | Entry _ e => isDirectory e
  | ChunkFile _ _ _ | Upload _ | Nothing | Beyond => false
  | Storage | Chunks | Uploads | Transcoded | Tree _ | Resolution _ _ _ => true
  end.

(** The disk without what is at the target.  Taking a file out of a
    session directory sets the mtime of the directory.  Removing the
    storage directory or one of its three directories removes all the
    content; that the directory itself is gone is not recorded. *)
Definition without (now : Z) (g : target) (d : t) : t :=
  match g with
  | Storage => mk ∅ ∅ ∅
  | Chunks => set_chunks d ∅
  | Uploads => set_uploads d ∅
  | Transcoded => set_transcoded d ∅
  | Entry name _ => set_chunks d (delete name (chunks d))
  | ChunkFile session files name =>
      set_chunks d (<[session := Dir (Some now) (delete name files)]> (chunks d))
  | Upload name => set_uploads d (uploads d ∖ {[name]})
  | Tree id => set_transcoded d (delete id (transcoded d))
  | Resolution id dirs name => set_transcoded d (<[id := dirs ∖ {[name]}]> (transcoded d))
  | Nothing | Beyond => d
  end.

(** How an attempt to remove a file ends. *)
Inductive removal :=
| Removed (d : t)
| Absent
| Throws
| Unrecorded.

(** [if (existsSync(p)) await fs.rm(p, { recursive: true, force: true })];
    [dirOnly] says that [p] ends with a separator, which only a directory
    satisfies. *)
Definition rm (now : Z) (root path : list string) (dirOnly : bool) (d : t) : removal :=
  match locate root path d with
  | Beyond => Unrecorded
  | Nothing => Absent
  | g => if dirOnly && negb (isDir g) then Absent else Removed (without now g d)
  end.

(** [if (existsSync(p)) await fs.unlink(p)], for a [p] that does not end
    with a separator: [unlink] throws on a directory. *)
Definition unlink (now : Z) (root path : list string) (d : t) : removal :=
  match locate root path d with
  | Beyond => Unrecorded
  | Nothing => Absent
  | g => if isDir g then Throws else Removed (without now g d)
  end.
End Disk.

(** ** server/storage-cleanup.ts *)

Module StorageCleanup.

Definition TEMP_FILE_MAX_AGE_MS : Z := 5 * 60 * 1000.
Definition ORPHAN_SESSION_MAX_AGE_MS : Z := 30 * 60 * 1000.
Definition MIN_FREE_SPACE_MB : Z := 100.

(** The value of [shouldClean] at the end of one loop iteration of
    [cleanupOrphanedSessions], for the directory of [sessionId]. *)
Definition shouldClean (activeSessionIds : gset string)
    (sessionExpiryMap : option (gmap string Z)) (now : Z)
    (sessionId : string) (mtimeMs : option Z) : bool :=
  match sessionExpiryMap ≫= (λ m, m !! sessionId) with
  | Some expiresAt => bool_decide (now > expiresAt)
  | None =>
      if bool_decide (sessionId ∈ activeSessionIds) then false
      else match mtimeMs with
           | Some m => bool_decide (now - m > ORPHAN_SESSION_MAX_AGE_MS)
           | None => true
           end
  end.

(** Whether the loop removes the entry [name] of [chunks/]. *)
Definition removes (activeSessionIds : gset string)
    (sessionExpiryMap : option (gmap string Z)) (now : Z)
    (name : string) (e : Disk.entry) : bool :=
  match e with
  | Disk.Dir mtimeMs _ =>
      negb (JS.startsWith name "temp_")
      && shouldClean activeSessionIds sessionExpiryMap now name mtimeMs
  | Disk.File _ => false
  end.

(** The iterations are independent of one another, so the loop over
    [readdir] is a filter of the directory; the result is the count
    [cleaned] and the directory after the run.  [chunks/] exists (the
    routes create it when they load) and [fs.rm] succeeds. *)
Definition cleanupOrphanedSessions (activeSessionIds : gset string)
    (sessionExpiryMap : option (gmap string Z)) (now : Z) (d : Disk.t)
    : Z * Disk.t :=
  let gone :=
    filter (λ kv, removes activeSessionIds sessionExpiryMap now kv.1 kv.2 = true)
           (Disk.chunks d) in
  let kept :=
    filter (λ kv, removes activeSessionIds sessionExpiryMap now kv.1 kv.2 ≠ true)
           (Disk.chunks d) in
  (Z.of_nat (size gone), Disk.set_chunks d kept).

Definition extensions : list string := [".mp4"; ".webm"; ".mov"; ".avi"; ".mkv"].

(** The two functions below take the request's id as it comes and hand
    it to [path.join]; [root] is the absolute path of [STORAGE_DIR] and
    [now] the time of the call.  The result is [None] when a path leaves
    what [Disk.t] records. *)

(** The loop of [cleanupUploadFile] over the remaining extensions: the
    first existing file is unlinked and the function returns true; when
    [unlink] throws (the path is a directory) the [catch] logs the error
    and the function returns false. *)
Fixpoint cleanupUploadFile_loop (now : Z) (root : list string) (exts : list string)
    (videoId : string) (d : Disk.t) : option (bool * Disk.t) :=
  match exts with
  | [] => Some (false, d)
  | ext :: exts' =>
      if Path.hasNul (videoId +:+ ext) then cleanupUploadFile_loop now root exts' videoId d
      else
      let uploadPath := Path.join (root ++ ["uploads"])%list (videoId +:+ ext) in
      match Disk.unlink now root uploadPath d with
      | Disk.Removed d' => Some (true, d')
      | Disk.Absent => cleanupUploadFile_loop now root exts' videoId d
      | Disk.Throws => Some (false, d)
      | Disk.Unrecorded => None
      end
  end.

Definition cleanupUploadFile (now : Z) (root : list string) (videoId : string) (d : Disk.t)
    : option (bool * Disk.t) :=
  cleanupUploadFile_loop now root extensions videoId d.

Definition cleanupTranscodedFiles (now : Z) (root : list string) (videoId : string)
    (d : Disk.t) : option (bool * Disk.t) :=
  if Path.hasNul videoId then Some (false, d)
  else
  let transcodedDir := Path.join (root ++ ["transcoded"])%list videoId in
  match Disk.rm now root transcodedDir (Path.trailingSlash videoId) d with
  | Disk.Removed d' => Some (true, d')
  | Disk.Absent | Disk.Throws => Some (false, d)
  | Disk.Unrecorded => None
  end.

End StorageCleanup.

(** ** server/routes.ts *)

Module Response.
(** The JSON bodies the handlers send, one constructor per object shape. *)
Inductive body :=
| Error (error : string)
| Failure (error : string)
| FailureCode (error code : string) (retryable : option bool)
| ChunkAccepted (uploadedChunks totalChunks : Z) (progress : Q)
| UploadIncomplete (uploaded total : Z)
| MissingChunkFiles (missingChunks : list Z) (totalMissing : Z)
| UploadComplete (videoId : string)
| Success.

Record t := mk { status : Z; json : body }.

(** The [missingChunks] key of a body, when the body has one. *)
Definition missingChunks (r : t) : option (list Z) :=
  match json r with
  | MissingChunkFiles l _ => Some l
  | _ => None
  end.

(** The [success] key of a body, when the body has one. *)
Definition success (r : t) : option bool :=
  match json r with
  | Failure _ | FailureCode _ _ _ => Some false
  | ChunkAccepted _ _ _ | UploadComplete _ | Success => Some true
  | Error _ | UploadIncomplete _ _ | MissingChunkFiles _ _ => None
  end.
End Response.

Module Routes.

Definition CHUNK_SIZE : Z := 2 * 1024 * 1024.

(** The parsed multipart request of POST /api/upload/chunk: the two text
    fields and, when a file part arrived, the name of the temp file
    multer stored it under in [chunks/]. *)
Record ChunkRequest := mkChunkRequest {
  sessionId : option string;
  chunkIndex : option string;
  file : option string;
}.

(** What [handleChunkUpload] does before it calls the handler. *)
Inductive Preflight :=
| InsufficientSpace
| LimitFileSize
| QuotaExceeded
| MulterError (message : string)
| Passed.

(** [!sessionId]. *)
Definition falsy (s : option string) : bool :=
  match s with
  | None => true
  | Some s => bool_decide (s = "")
  end.

(** [fs.unlink(req.file.path).catch(() => {})]. *)
Definition unlinkTemp (tmp : string) (d : Disk.t) : Disk.t :=
  match Disk.chunks d !! tmp with
  | Some (Disk.File _) => Disk.set_chunks d (delete tmp (Disk.chunks d))
  | _ => d
  end.

Definition unlinkFile (f : option string) (d : Disk.t) : Disk.t :=
  match f with Some tmp => unlinkTemp tmp d | None => d end.

(** The [catch] block of the chunk handler. *)
Definition chunkFailed (req : ChunkRequest) (st : MemStorage.t) (d : Disk.t)
    : Response.t * MemStorage.t * Disk.t :=
  (Response.mk 500 (Response.Failure "Failed to upload chunk"), st, unlinkFile (file req) d).

(** [isNaN(chunkIdx) || chunkIdx < 0 || chunkIdx >= totalChunks], negated. *)
Definition validIndex (chunkIndex : string) (totalChunks : Z) : option Z :=
  match JS.parseInt chunkIndex with
  | Some chunkIdx =>
      if (chunkIdx <? 0) || (chunkIdx >=? totalChunks) then None else Some chunkIdx
  | None => None
  end.

(** [mkdirSync(sessionDir)] when it does not exist, then
    [fs.rename(req.file.path, finalPath)]; [None] when the rename throws
    because [sessionDir] is not a directory. *)
Definition promote (now : Z) (tmp : string) (size : Z) (sessionId : string)
    (chunkIdx : Z) (d : Disk.t) : option Disk.t :=
  let chunks1 :=
    match Disk.chunks d !! sessionId with
    | None => <[sessionId := Disk.Dir (Some now) ∅]> (Disk.chunks d)
    | Some _ => Disk.chunks d
    end in
  match chunks1 !! sessionId with
  | Some (Disk.Dir _ files) =>
      Some (Disk.set_chunks d
              (<[sessionId := Disk.Dir (Some now) (<[Disk.chunkName chunkIdx := size]> files)]>
                 (delete tmp chunks1)))
  | _ => None
  end.

(** The handler of POST /api/upload/chunk, entered once the preflight has
    passed.  The temp file multer has just written is a plain file; a
    request whose temp file is not one is treated as [statSync] throwing. *)
Definition uploadChunk (now : Z) (req : ChunkRequest) (st : MemStorage.t) (d : Disk.t)
    : Response.t * MemStorage.t * Disk.t :=
  match sessionId req, chunkIndex req with
  | Some sid, Some chunkIndex =>
      if falsy (sessionId req) then
        (Response.mk 400 (Response.Failure "Missing sessionId or chunkIndex"),
         st, unlinkFile (file req) d)
      else
      match file req with
      | None => (Response.mk 400 (Response.Failure "No chunk data received"), st, d)
      | Some tmp =>
          match Disk.chunks d !! tmp with
          | Some (Disk.File size) =>
              if size =? 0 then
                (Response.mk 400 (Response.Failure "Empty chunk received"),
                 st, unlinkTemp tmp d)
              else
              match MemStorage.getUploadSession sid st with
              | None =>
                  (Response.mk 404 (Response.Failure "Session not found"),
                   st, unlinkTemp tmp d)
              | Some existingSession =>
                  match validIndex chunkIndex (UploadSession.totalChunks existingSession) with
                  | None =>
                      (Response.mk 400
                         (Response.Failure ("Invalid chunk index: " +:+ chunkIndex)),
                       st, unlinkTemp tmp d)
                  | Some chunkIdx =>
                      match promote now tmp size sid chunkIdx d with
                      | None => chunkFailed req st d
                      | Some d' =>
                          if negb (Disk.chunkExists d' sid chunkIdx) then
                            (Response.mk 500 (Response.Failure "Failed to save chunk"), st, d')
                          else
                          match MemStorage.markChunkUploaded sid chunkIdx st with
                          | (None, st') =>
                              (Response.mk 404 (Response.Failure "Session not found"), st', d')
                          | (Some session, st') =>
                              (Response.mk 200
                                 (Response.ChunkAccepted
                                    (Z.of_nat (length (UploadSession.uploadedChunks session)))
                                    (UploadSession.totalChunks session)
                                    (MemStorage.progressOf session)),
                               st', d')
                          end
                      end
                  end
              end
          | _ => chunkFailed req st d
          end
      end
  | _, _ =>
      (Response.mk 400 (Response.Failure "Missing sessionId or chunkIndex"),
       st, unlinkFile (file req) d)
  end.

(** POST /api/upload/chunk: the preflight outcome, then the handler.  The
    texts of the preflight errors are shortened (the source interpolates
    the free space and adds advice). *)
Definition postUploadChunk (pre : Preflight) (now : Z) (req : ChunkRequest)
    (st : MemStorage.t) (d : Disk.t) : Response.t * MemStorage.t * Disk.t :=
  match pre with
  | InsufficientSpace =>
      (Response.mk 507
         (Response.FailureCode "Insufficient storage space" "STORAGE_FULL" (Some false)), st, d)
  | LimitFileSize =>
      (Response.mk 413
         (Response.FailureCode "Chunk size exceeds server limit" "LIMIT_FILE_SIZE" None), st, d)
  | QuotaExceeded =>
      (Response.mk 507
         (Response.FailureCode "Storage space temporarily unavailable" "STORAGE_FULL" (Some true)),
       st, d)
  | MulterError message =>
      (Response.mk 500 (Response.Failure ("Upload error: " +:+ message)), st, d)
  | Passed => uploadChunk now req st d
  end.

(** The loop that collects [missingChunks] in POST /api/upload/complete. *)
Definition missingChunkFiles (d : Disk.t) (sessionId : string) (totalChunks : Z) : list Z :=
  filter (λ i, Disk.chunkExists d sessionId i = false) (seqZ 0 totalChunks).

(** POST /api/upload/complete up to the start of the reassembly:
    [inl] is the response of an early return, [inr] the session to
    reassemble. *)
Definition completeChecks (sessionId : string) (st : MemStorage.t) (d : Disk.t)
    : Response.t + UploadSession.t :=
  match MemStorage.getUploadSession sessionId st with
  | None => inl (Response.mk 404 (Response.Error "Session not found"))
  | Some session =>
      if bool_decide (Z.of_nat (length (UploadSession.uploadedChunks session))
                      ≠ UploadSession.totalChunks session)
      then inl (Response.mk 400
                  (Response.UploadIncomplete
                     (Z.of_nat (length (UploadSession.uploadedChunks session)))
                     (UploadSession.totalChunks session)))
      else
        let missingChunks := missingChunkFiles d sessionId (UploadSession.totalChunks session) in
        if bool_decide (0 < length missingChunks)%nat
        then inl (Response.mk 400
                    (Response.MissingChunkFiles (JS.slice0 10 missingChunks)
                       (Z.of_nat (length missingChunks))))
        else inr session
  end.

(** The calls on the state store that POST /api/upload/complete makes once
    the reassembly has succeeded: the session is completed, the video is
    marked, one job per resolution is created and the video is queued.
    The three job ids stand for the [randomUUID()] results. *)
Definition completeStore (now : Z) (jobIds : Resolution.t → string) (outputPath : string)
    (sessionId : string) (session : UploadSession.t) (st : MemStorage.t) : MemStorage.t :=
  let st := (MemStorage.updateUploadSession sessionId
               (UploadSession.mkPartial None (Some SessionStatus.completed)) st).2 in
  let st := (MemStorage.updateVideo (UploadSession.videoId session)
               (Video.mkPartial (Some VideoStatus.UPLOAD_COMPLETED) (Some 100%Q)
                  None None None None) st).2 in
  let st :=
    foldl (λ st resolution,
             (MemStorage.createTranscodingJob (jobIds resolution) now
                (UploadSession.videoId session) resolution outputPath st).2)
          st Resolution.all in
  (MemStorage.updateVideo (UploadSession.videoId session)
     (Video.mkPartial (Some VideoStatus.QUEUED) None
        (Some (Some (ResRecord.mk (Some 0%Q) (Some 0%Q) (Some 0%Q)))) None None None) st).2.

(** [getActiveSessionIds] and [getSessionExpiryMap], on the array
    [storage.getActiveUploadSessions()] returns. *)
Definition getActiveSessionIds (sessions : list UploadSession.t) : gset string :=
  list_to_set (UploadSession.id <$> sessions).

Definition getSessionExpiryMap (sessions : list UploadSession.t) : gmap string Z :=
  foldl (λ m session, <[UploadSession.id session := UploadSession.expiresAt session]> m)
        ∅ sessions.

(** The session part of the cleanup the 5-minute timer runs. *)
Definition periodicCleanup (sessions : list UploadSession.t) (now : Z) (d : Disk.t)
    : Z * Disk.t :=
  StorageCleanup.cleanupOrphanedSessions
    (getActiveSessionIds sessions) (Some (getSessionExpiryMap sessions)) now d.

(** DELETE /api/videos/:id.  The two cleanups run first, at the times
    [now1] and [now2], and their results are not looked at; the disk is
    [None] when one of them leaves what [Disk.t] records. *)
Definition deleteVideo (now1 now2 : Z) (root : list string) (videoId : string)
    (st : MemStorage.t) (d : Disk.t) : Response.t * MemStorage.t * option Disk.t :=
  let d :=
    r ← StorageCleanup.cleanupTranscodedFiles now1 root videoId d;
    r ← StorageCleanup.cleanupUploadFile now2 root videoId r.2;
    Some r.2 in
  let '(deleted, st) := MemStorage.deleteVideo videoId st in
  if negb deleted
  then (Response.mk 404 (Response.Error "Video not found"), st, d)
  else (Response.mk 200 Response.Success, st, d).

End Routes.

(** ** server/queue.ts and server/worker.ts *)

Module Queue.

(** *** The event bus *)

(** The module-level variables behind [getRedisConnection]. *)
Record Broker := mkBroker {
  DEV_MODE : bool;
  connection : bool;         (* [connection !== null] *)
  redisAvailable : bool;
  redisCheckDone : bool;
}.

(** [getRedisConnection()]: whether a connection is returned, and the
    variables afterwards.  [ctorThrows] tells whether [new IORedis(...)]
    throws, which the function catches. *)
Definition getRedisConnection (ctorThrows : bool) (b : Broker) : bool * Broker :=
  if DEV_MODE b then (false, mkBroker true (connection b) (redisAvailable b) true)
  else if redisCheckDone b && negb (redisAvailable b) then (false, b)
  else if negb (connection b) then
    if ctorThrows then (false, mkBroker false false false true)
    else (redisAvailable b, mkBroker false true (redisAvailable b) (redisCheckDone b))
  else (redisAvailable b, b).

(** How a promise settles. *)
Inductive settled := Fulfilled | Rejected (reason : string).

(** [p.catch(() => {})]. *)
Definition catch_ignore (p : settled) : settled := Fulfilled.

(** How a call ends. *)
Inductive completion := Returned | Threw (reason : string).

(** What an emission does, in the order it does it. *)
Inductive action :=
| Invoke (listener : string) (event : VideoEvent.t)
| Publish (channel : string) (event : VideoEvent.t).

(** [eventEmitter] with the listeners of ["video-event"] in registration
    order, and the broker variables.  Listeners are taken not to throw. *)
Record Bus := mkBus {
  listeners : list string;
  broker : Broker;
}.

Record Emission := mkEmission {
  result : completion;
  actions : list action;
  detached : option settled;   (* the promise left behind by [publish(...).catch(...)] *)
  bus : Bus;
}.

(** [emitEvent(type, videoId, data)].  [publishOutcome] is how the
    promise of [redis.publish] settles, should it be called. *)
Definition emitEvent (ctorThrows : bool) (publishOutcome : settled) (now : Z)
    (type : EventType.t) (videoId : string) (data : option VideoEvent.data) (b : Bus)
    : Emission :=
  let event := VideoEvent.mk type videoId data now in
  let local := map (λ l, Invoke l event) (listeners b) in
  let '(redis, br) := getRedisConnection ctorThrows (broker b) in
  if redis
  then mkEmission Returned (local ++ [Publish "video-events" event])
                  (Some (catch_ignore publishOutcome)) (mkBus (listeners b) br)
  else mkEmission Returned local None (mkBus (listeners b) br).

(** *** The encoder driver: [transcodeVideoFile] and [transcodeVideo] *)

(** [RESOLUTION_CONFIG]. *)
Definition RESOLUTION_CONFIG (r : Resolution.t) : Z * Z * string :=
  match r with
  | Resolution.R360P => (640, 360, "800k")
  | Resolution.R720P => (1280, 720, "2500k")
  | Resolution.R1080P => (1920, 1080, "5000k")
  end.

(** [path.join(a, b)] for two plain segments. *)
Definition join (a b : string) : string := a +:+ "/" +:+ b.

Definition playlistPath (outputDir : string) (r : Resolution.t) : string :=
  join (join outputDir (Resolution.name r)) "playlist.m3u8".

(** The regular expression of the stderr handler tried at the start of
    [s]: the three captures used (hours, minutes, seconds). *)
Definition durationHere (s : string) : option (string * string * string) :=
  rest ← JS.strip_prefix "Duration: " s;
  '(hours, rest) ← JS.two_digits rest;
  rest ← JS.strip_prefix ":" rest;
  '(minutes, rest) ← JS.two_digits rest;
  rest ← JS.strip_prefix ":" rest;
  '(seconds, rest) ← JS.two_digits rest;
  rest ← JS.strip_prefix "." rest;
  '(_, _) ← JS.two_digits rest;
  Some (hours, minutes, seconds).

(** [output.match(/Duration: (\d{2}):(\d{2}):(\d{2})\.(\d{2})/)]: the
    leftmost match. *)
Fixpoint matchDuration (s : string) : option (string * string * string) :=
  match durationHere s with
  | Some m => Some m
  | None =>
      match s with
      | String _ s' => matchDuration s'
      | EmptyString => None
      end
  end.

(** The regular expression of the stdout handler tried at the start of
    [s]: the capture. *)
Definition outTimeHere (s : string) : option string :=
  rest ← JS.strip_prefix "out_time_ms=" s;
  match JS.take_digits rest with
  | EmptyString => None
  | digits => Some digits
  end.

(** [output.match(/out_time_ms=(\d+)/)]: the leftmost match. *)
Fixpoint matchOutTime (s : string) : option string :=
  match outTimeHere s with
  | Some m => Some m
  | None =>
      match s with
      | String _ s' => matchOutTime s'
      | EmptyString => None
      end
  end.

(** What the child process does. *)
Inductive ProcessEvent :=
| Stderr (data : string)
| Stdout (data : string)
| Close (code : option Z)     (* [None] is the [null] of a killed process *)
| Error (message : string).

Inductive Outcome := Resolved (playlistPath : string) | Failed (message : string).

(** The variables of one run of the driver and the state of the promise
    it returned. *)
Record Driver := mkDriver {
  duration : Z;
  currentTime : Q;
  promise : option Outcome;
}.

Definition spawned : Driver := mkDriver 0 0%Q None.

(** Settling a promise that is already settled changes nothing. *)
Definition settle (o : Outcome) (d : Driver) : Driver :=
  match promise d with
  | None => mkDriver (duration d) (currentTime d) (Some o)
  | Some _ => d
  end.

(** [parseInt(timeMatch[1]) / 1000000]. *)
Definition secondsOf (us : Z) : Q := (inject_Z us / 1000000)%Q.

(** [Math.min((currentTime / duration) * 100, 99)]. *)
Definition percentOf (currentTime : Q) (duration : Z) : Q :=
  Qmin ((currentTime / inject_Z duration) * 100) 99.

(** [`${code}`]. *)
Definition showCode (code : option Z) : string :=
  match code with Some c => pretty c | None => "null" end.

(** One event of the child process: the calls of [onProgress] it makes,
    in order, and the driver afterwards.  Both drivers (the in-process
    one and the worker's) have these four handlers. *)
Definition onEvent (playlist : string) (e : ProcessEvent) (d : Driver) : list Q * Driver :=
  match e with
  | Stderr output =>
      match matchDuration output with
      | Some (hours, minutes, seconds) =>
          ([], mkDriver (default 0 (JS.parseInt hours) * 3600
                         + default 0 (JS.parseInt minutes) * 60
                         + default 0 (JS.parseInt seconds))
                        (currentTime d) (promise d))
      | None => ([], d)
      end
  | Stdout output =>
      match matchOutTime output with
      | Some digits =>
          if bool_decide (duration d > 0) then
            match JS.parseInt digits with
            | Some us =>
                let currentTime := secondsOf us in
                ([percentOf currentTime (duration d)],
                 mkDriver (duration d) currentTime (promise d))
            | None => ([], d)   (* [NaN]: a run of digits always parses *)
            end
          else ([], d)
      | None => ([], d)
      end
  | Close code =>
      if bool_decide (code = Some 0)
      then ([100%Q], settle (Resolved playlist) d)
      else ([], settle (Failed ("FFmpeg exited with code " +:+ showCode code)) d)
  | Error message => ([], settle (Failed message) d)
  end.

Definition transcodeVideoFile_onEvent (outputDir : string) (r : Resolution.t) :=
  onEvent (playlistPath outputDir r).

Definition transcodeVideo_onEvent (outputDir : string) (r : Resolution.t) :=
  onEvent (playlistPath outputDir r).

End Queue.

(** ** [simulateTranscoding]: the three in-process transcodes of a video

    [addTranscodingJobs] starts one [simulateTranscoding] per resolution
    and they run interleaved.  A transition is the code that runs without
    another flow getting in between: the sections of the start-up and of
    the failure path, which the flows enter in lock-step, are separate
    transitions; the chain of continuations that one event of an encoder
    process triggers is a single one, since every promise it awaits is
    settled already and the microtask queue drains before the next
    process event is handled.  An encoder process emits nothing after its
    ['close'], and after an ['error'] only a ['close'] with a non-zero
    code, so a flow whose promise has settled takes no further process
    events. *)

Module Sim.

Inductive Pc :=
| PcBegin        (* about to set the video TRANSCODING *)
| PcMark         (* about to set the job processing *)
| PcAnnounce     (* about to emit progress 0 and ask for FFmpeg *)
| PcCheck        (* awaiting [checkFfmpegAvailable()] *)
| PcEncoding     (* awaiting [transcodeVideoFile(...)] *)
| PcFailing (errorMessage eventError : string)  (* job failed, video not yet *)
| PcDone
| PcFailed.

Record Flow := mkFlow {
  pc : Pc;
  lastProgress : Q;
  driver : Queue.Driver;
}.

(** The [jobData] of the three flows of one video. *)
Record JobData := mkJobData {
  videoId : string;
  jobId : Resolution.t → string;
  inputPath : string;
  outputDir : string;
}.

Record t := mk {
  store : MemStorage.t;
  flows : Resolution.t → Flow;
  emitted : list VideoEvent.t;
}.

Definition start (st : MemStorage.t) : t :=
  mk st (λ _, mkFlow PcBegin 0%Q Queue.spawned) [].

Definition set_flow (s : t) (r : Resolution.t) (f : Flow) : t :=
  mk (store s) (λ r', if decide (r' = r) then f else flows s r') (emitted s).

Definition set_pc (s : t) (r : Resolution.t) (p : Pc) : t :=
  set_flow s r (mkFlow p (lastProgress (flows s r)) (driver (flows s r))).

Definition set_store (s : t) (st : MemStorage.t) : t :=
  mk st (flows s) (emitted s).

Definition emit (now : Z) (type : EventType.t) (videoId : string)
    (data : VideoEvent.data) (s : t) : t :=
  mk (store s) (flows s) (emitted s ++ [VideoEvent.mk type videoId (Some data) now]).

(** [currentProgress[r] === 100]. *)
Definition at100 (o : ResRecord.t Q) (r : Resolution.t) : bool :=
  match ResRecord.get o r with
  | Some p => Qeq_bool p 100
  | None => false
  end.

(** The progress callback handed to the driver.  The object
    [video.transcodingProgress] is changed in place and written back, so
    the stored video carries the new entry. *)
Definition progressCallback (jd : JobData) (now : Z) (r : Resolution.t)
    (progress : Q) (s : t) : t :=
  if Qle_bool 5 (progress - lastProgress (flows s r)) || Qeq_bool progress 100 then
    let s := set_flow s r (mkFlow (pc (flows s r)) progress (driver (flows s r))) in
    let st := store s in
    let st :=
      match MemStorage.getVideo (videoId jd) st with
      | Some video =>
          let currentProgress :=
            ResRecord.set (default ResRecord.empty (Video.transcodingProgress video))
                          r progress in
          (MemStorage.updateVideo (videoId jd)
             (Video.mkPartial None None (Some (Some currentProgress)) None None None) st).2
      | None => st
      end in
    let st :=
      (MemStorage.updateTranscodingJob (jobId jd r)
         (TranscodingJob.mkPartial None (Some progress) None None None) st).2 in
    emit now EventType.TRANSCODING_PROGRESS (videoId jd)
         (VideoEvent.ProgressData r progress (jobId jd r)) (set_store s st)
  else s.

Definition hlsUrlOf (jd : JobData) (r : Resolution.t) : string :=
  "/api/stream/" +:+ videoId jd +:+ "/" +:+ Resolution.name r +:+ "/playlist.m3u8".

(** The code after [await transcodeVideoFile(...)] inside the [try]. *)
Definition onResolved (jd : JobData) (now : Z) (r : Resolution.t) (s : t) : t :=
  let hlsUrl := hlsUrlOf jd r in
  let st :=
    (MemStorage.updateTranscodingJob (jobId jd r)
       (TranscodingJob.mkPartial (Some JobStatus.completed) (Some 100%Q)
          (Some hlsUrl) None (Some now)) (store s)).2 in
  let st :=
    match MemStorage.getVideo (videoId jd) st with
    | Some video =>
        let currentHlsUrls :=
          ResRecord.set (default ResRecord.empty (Video.hlsUrls video)) r hlsUrl in
        let currentProgress :=
          ResRecord.set (default ResRecord.empty (Video.transcodingProgress video))
                        r 100%Q in
        let allCompleted := forallb (at100 currentProgress) Resolution.all in
        (MemStorage.updateVideo (videoId jd)
           (Video.mkPartial
              (Some (if allCompleted then VideoStatus.COMPLETED else VideoStatus.TRANSCODING))
              None (Some (Some currentProgress)) (Some (Some currentHlsUrls)) None
              (Some (if allCompleted then Some now else None))) st).2
    | None => st
    end in
  emit now EventType.TRANSCODING_COMPLETED (videoId jd)
       (VideoEvent.CompletedData r (jobId jd r) hlsUrl)
       (set_pc (set_store s st) r PcDone).

(** The first half of a failure, up to its [await]: the job is failed. *)
Definition failJob (jd : JobData) (now : Z) (r : Resolution.t)
    (errorMessage eventError : string) (s : t) : t :=
  let st :=
    (MemStorage.updateTranscodingJob (jobId jd r)
       (TranscodingJob.mkPartial (Some JobStatus.failed) None None None (Some now))
       (store s)).2 in
  set_pc (set_store s st) r (PcFailing errorMessage eventError).

(** The second half: the video is failed and the event emitted. *)
Definition failVideo (jd : JobData) (now : Z) (r : Resolution.t)
    (errorMessage eventError : string) (s : t) : t :=
  let st :=
    (MemStorage.updateVideo (videoId jd)
       (Video.mkPartial (Some VideoStatus.FAILED) None None None
          (Some (Some errorMessage)) None) (store s)).2 in
  emit now EventType.TRANSCODING_FAILED (videoId jd)
       (VideoEvent.FailedData r (jobId jd r) eventError)
       (set_pc (set_store s st) r PcFailed).

Inductive label :=
| Begin (r : Resolution.t)
| MarkProcessing (r : Resolution.t)
| Announce (r : Resolution.t)
| Checked (r : Resolution.t) (hasFfmpeg : bool)
| Encoder (r : Resolution.t) (e : Queue.ProcessEvent)
| FailVideo (r : Resolution.t).

(** One transition; [None] when the flow is not at the point where the
    transition starts. *)
Definition step (jd : JobData) (now : Z) (l : label) (s : t) : option t :=
  match l with
  | Begin r =>
      match pc (flows s r) with
      | PcBegin =>
          let st :=
            (MemStorage.updateVideo (videoId jd)
               (Video.mkPartial (Some VideoStatus.TRANSCODING) None None None None None)
               (store s)).2 in
          Some (set_pc (set_store s st) r PcMark)
      | _ => None
      end
  | MarkProcessing r =>
      match pc (flows s r) with
      | PcMark =>
          let st :=
            (MemStorage.updateTranscodingJob (jobId jd r)
               (TranscodingJob.mkPartial (Some JobStatus.processing) None None (Some now) None)
               (store s)).2 in
          Some (set_pc (set_store s st) r PcAnnounce)
      | _ => None
      end
  | Announce r =>
      match pc (flows s r) with
      | PcAnnounce =>
          Some (emit now EventType.TRANSCODING_PROGRESS (videoId jd)
                  (VideoEvent.ProgressData r 0%Q (jobId jd r)) (set_pc s r PcCheck))
      | _ => None
      end
  | Checked r hasFfmpeg =>
      match pc (flows s r) with
      | PcCheck =>
          if hasFfmpeg then Some (set_pc s r PcEncoding)
          else Some (failJob jd now r
                       "FFmpeg not available - install FFmpeg to enable video transcoding"
                       "FFmpeg not available" s)
      | _ => None
      end
  | Encoder r e =>
      match pc (flows s r) with
      | PcEncoding =>
          let '(calls, drv) :=
            Queue.transcodeVideoFile_onEvent (outputDir jd) r e (driver (flows s r)) in
          let s := set_flow s r (mkFlow PcEncoding (lastProgress (flows s r)) drv) in
          let s := foldl (λ s progress, progressCallback jd now r progress s) s calls in
          match Queue.promise drv with
          | None => Some s
          | Some (Queue.Resolved _) => Some (onResolved jd now r s)
          | Some (Queue.Failed message) => Some (failJob jd now r message message s)
          end
      | _ => None
      end
  | FailVideo r =>
      match pc (flows s r) with
      | PcFailing errorMessage eventError => Some (failVideo jd now r errorMessage eventError s)
      | _ => None
      end
  end.

(** A run: transitions with the time each one is taken at. *)
Fixpoint run (jd : JobData) (tr : list (Z * label)) (s : t) : option t :=
  match tr with
  | [] => Some s
  | (now, l) :: tr' =>
      match step jd now l s with
      | Some s' => run jd tr' s'
      | None => None
      end
  end.

End Sim.

(** ** The vocabulary of the properties *)

(** Strictly ascending, hence free of duplicates. *)
Definition ascending (l : list Z) : Prop := StronglySorted Z.lt l.

Definition chunksAscending (st : MemStorage.t) : Prop :=
  ∀ id s, MemStorage.uploadSessions st !! id = Some s →
          ascending (UploadSession.uploadedChunks s).

(** The operations of the state store, as data. *)
Inductive StorageOp :=
| OpCreateVideo (id : string) (now : Z) (filename : string) (size : Z) (mimeType : string)
| OpUpdateVideo (id : string) (updates : Video.partial)
| OpDeleteVideo (id : string)
| OpCreateUploadSession (id : string) (now : Z) (videoId filename : string)
    (totalSize chunkSize : Z)
| OpUpdateUploadSession (id : string) (updates : UploadSession.partial)
| OpMarkChunkUploaded (sessionId : string) (chunkIndex : Z)
| OpCreateTranscodingJob (id : string) (now : Z) (videoId : string)
    (resolution : Resolution.t) (inputPath : string)
| OpUpdateTranscodingJob (id : string) (updates : TranscodingJob.partial).

Definition exec (op : StorageOp) (st : MemStorage.t) : MemStorage.t :=
  match op with
  | OpCreateVideo id now filename size mimeType =>
      (MemStorage.createVideo id now filename size mimeType st).2
  | OpUpdateVideo id updates => (MemStorage.updateVideo id updates st).2
  | OpDeleteVideo id => (MemStorage.deleteVideo id st).2
  | OpCreateUploadSession id now videoId filename totalSize chunkSize =>
      (MemStorage.createUploadSession id now videoId filename totalSize chunkSize st).2
  | OpUpdateUploadSession id updates => (MemStorage.updateUploadSession id updates st).2
  | OpMarkChunkUploaded sessionId chunkIndex =>
      (MemStorage.markChunkUploaded sessionId chunkIndex st).2
  | OpCreateTranscodingJob id now videoId resolution inputPath =>
      (MemStorage.createTranscodingJob id now videoId resolution inputPath st).2
  | OpUpdateTranscodingJob id updates => (MemStorage.updateTranscodingJob id updates st).2
  end.

(** The generic [updateUploadSession] spreads whatever its caller hands
    it over the session.  [handsArray op] says that the operation is such
    an update and is handed an [uploadedChunks] array. *)
Definition handsArray (op : StorageOp) : bool :=
  match op with
  | OpUpdateUploadSession _ updates =>
      bool_decide (is_Some (UploadSession.p_uploadedChunks updates))
  | _ => false
  end.

(** The reading of the order of the arrays under which every operation
    of the store keeps it. *)
Definition everyOpKeepsAscending (st : MemStorage.t) (op : StorageOp) : Prop :=
  chunksAscending st → chunksAscending (exec op st).

(** [|uploadedChunks|] of a session, 0 while the session does not exist. *)
Definition receivedCount (sessionId : string) (st : MemStorage.t) : nat :=
  match MemStorage.uploadSessions st !! sessionId with
  | Some s => length (UploadSession.uploadedChunks s)
  | None => 0%nat
  end.

(** A sequence of [markChunkUploaded] calls. *)
Definition markAll (calls : list (string * Z)) (st : MemStorage.t) : MemStorage.t :=
  foldl (λ st c, (MemStorage.markChunkUploaded c.1 c.2 st).2) st calls.

(** The session [markChunkUploaded] leaves under the key. *)
Definition marked (session : UploadSession.t) (chunkIndex : Z) : UploadSession.t :=
  if JS.includes chunkIndex (UploadSession.uploadedChunks session) then session
  else UploadSession.with_uploadedChunks session
         (JS.sort (λ a b, a - b) (UploadSession.uploadedChunks session ++ [chunkIndex])).

(** The indices in [[0, totalChunks)] the session has not received. *)
Definition missingIndices (s : UploadSession.t) : list Z :=
  filter (λ i, i ∉ UploadSession.uploadedChunks s) (seqZ 0 (UploadSession.totalChunks s)).

(** The reading of POST /api/upload/complete under which a count mismatch
    is answered with the first ten missing indices. *)
Definition completeListsMissing (sessionId : string) (st : MemStorage.t) (d : Disk.t) : Prop :=
  ∀ s, MemStorage.getUploadSession sessionId st = Some s →
       Z.of_nat (length (UploadSession.uploadedChunks s)) ≠ UploadSession.totalChunks s →
       ∃ r, Routes.completeChecks sessionId st d = inl r
            ∧ Response.status r = 400
            ∧ Response.missingChunks r = Some (take 10 (missingIndices s)).

(** A directory of [chunks/] that a GC run removes. *)
Definition deletedBy (activeSessionIds : gset string)
    (sessionExpiryMap : option (gmap string Z)) (now : Z) (d : Disk.t) (name : string) : Prop :=
  is_Some (Disk.chunks d !! name)
  ∧ Disk.chunks (StorageCleanup.cleanupOrphanedSessions
                   activeSessionIds sessionExpiryMap now d).2 !! name = None.

Definition expiryOf (sessionExpiryMap : option (gmap string Z)) (name : string) : option Z :=
  sessionExpiryMap ≫= (λ m, m !! name).

(** The reading of the GC policy under which Active sessions are never
    touched: a removed directory belongs to a session outside the Active
    set, and either its expiry has passed or it is unknown and stale. *)
Definition gcSparesActive (activeSessionIds : gset string)
    (sessionExpiryMap : option (gmap string Z)) (now : Z) (d : Disk.t) : Prop :=
  ∀ name, deletedBy activeSessionIds sessionExpiryMap now d name →
    (name ∉ activeSessionIds)
    ∧ ((∃ expiresAt, expiryOf sessionExpiryMap name = Some expiresAt ∧ now > expiresAt)
       ∨ (expiryOf sessionExpiryMap name = None
          ∧ ∃ mtimeMs files, Disk.chunks d !! name = Some (Disk.Dir (Some mtimeMs) files)
                             ∧ now - mtimeMs > StorageCleanup.ORPHAN_SESSION_MAX_AGE_MS)).

(** The three validations of a chunk request. *)
Definition sessionKnown (req : Routes.ChunkRequest) (st : MemStorage.t) : Prop :=
  ∃ sid s, Routes.sessionId req = Some sid ∧ MemStorage.getUploadSession sid st = Some s.

Definition indexInRange (req : Routes.ChunkRequest) (st : MemStorage.t) : Prop :=
  ∃ sid s ci idx,
    Routes.sessionId req = Some sid ∧ MemStorage.getUploadSession sid st = Some s
    ∧ Routes.chunkIndex req = Some ci
    ∧ Routes.validIndex ci (UploadSession.totalChunks s) = Some idx.

Definition bodyNonEmpty (req : Routes.ChunkRequest) (d : Disk.t) : Prop :=
  ∃ tmp size, Routes.file req = Some tmp ∧ Disk.chunks d !! tmp = Some (Disk.File size)
              ∧ size ≠ 0.

(** [!sessionId || chunkIndex === undefined], the first check of the
    handler. *)
Definition fieldsMissing (req : Routes.ChunkRequest) : Prop :=
  Routes.falsy (Routes.sessionId req) = true ∨ Routes.chunkIndex req = None.

(** The file part of a request, if any, is the plain file multer stored. *)
Definition stored (req : Routes.ChunkRequest) (d : Disk.t) : Prop :=
  ∀ tmp, Routes.file req = Some tmp → ∃ size, Disk.chunks d !! tmp = Some (Disk.File size).

(** A chunk file that is on the disk afterwards and was not before. *)
Definition promoted (d d' : Disk.t) : Prop :=
  ∃ sid i, Disk.chunkExists d' sid i = true ∧ Disk.chunkExists d sid i = false.

(** The reading of the chunk validations under which each of them
    decides the answer on its own: an unknown session gives 404, a bad
    index of a known session 400, an empty body 400, and only a request
    that passes all three is promoted and marked. *)
Definition rejectsPerValidation (now : Z) (req : Routes.ChunkRequest)
    (st : MemStorage.t) (d : Disk.t) : Prop :=
  let r := (Routes.postUploadChunk Routes.Passed now req st d).1.1 in
  let st' := (Routes.postUploadChunk Routes.Passed now req st d).1.2 in
  let d' := (Routes.postUploadChunk Routes.Passed now req st d).2 in
  (¬ sessionKnown req st → Response.status r = 404)
  ∧ (sessionKnown req st → ¬ indexInRange req st → Response.status r = 400)
  ∧ (¬ bodyNonEmpty req d → Response.status r = 400)
  ∧ (st' ≠ st ∨ promoted d d' →
     sessionKnown req st ∧ indexInRange req st ∧ bodyNonEmpty req d).

(** The upload files of a video that [cleanupUploadFile] looks for, in
    the order of the extensions. *)
Definition uploadsOf (videoId : string) (d : Disk.t) : list string :=
  filter (λ p, p ∈ Disk.uploads d) (map (λ ext, videoId +:+ ext) StorageCleanup.extensions).

(** The reading of DELETE for an unknown id under which
    [transcoded/<id>] and every [uploads/<id><ext>] are removed before
    the 404 is sent. *)
Definition deletesAllOfUnknown (now1 now2 : Z) (root : list string) (id : string)
    (st : MemStorage.t) (d : Disk.t) : Prop :=
  Response.status (Routes.deleteVideo now1 now2 root id st d).1.1 = 404
  ∧ MemStorage.videos (Routes.deleteVideo now1 now2 root id st d).1.2 = MemStorage.videos st
  ∧ ∃ d', (Routes.deleteVideo now1 now2 root id st d).2 = Some d'
          ∧ Disk.transcoded d' !! id = None
          ∧ ∀ ext, ext ∈ StorageCleanup.extensions → id +:+ ext ∉ Disk.uploads d'.

Definition jobStatusOf (st : MemStorage.t) (jobId : string) : option JobStatus.t :=
  TranscodingJob.status <$> MemStorage.transcodingJobs st !! jobId.

Definition hlsUrlPresent (v : Video.t) (r : Resolution.t) : Prop :=
  is_Some (Video.hlsUrls v ≫= (λ o, ResRecord.get o r)).

(** The store as POST /api/upload/complete leaves it for a video: the
    video queued with all three percentages at 0 and no playback URL,
    and one pending job per resolution. *)
Record queued (jd : Sim.JobData) (st : MemStorage.t) : Prop := mkQueued {
  queued_video :
    ∃ v, MemStorage.videos st !! Sim.videoId jd = Some v
         ∧ Video.status v = VideoStatus.QUEUED
         ∧ Video.hlsUrls v = None
         ∧ Video.transcodingProgress v
           = Some (ResRecord.mk (Some 0%Q) (Some 0%Q) (Some 0%Q));
  queued_jobs :
    ∀ r, jobStatusOf st (Sim.jobId jd r) = Some JobStatus.pending;
  queued_distinct :
    ∀ r r', Sim.jobId jd r = Sim.jobId jd r' → r = r';
}.

(** ** Sample data for the instances *)

Definition demoSession (received : list Z) : UploadSession.t :=
  UploadSession.mk "s1" "v1" "clip.mp4" 5000000 2097152 3 received
                   SessionStatus.active 0 86400000.

Definition demoVideo : Video.t :=
  Video.mk "v1" "clip.mp4" 5000000 "video/mp4" VideoStatus.UPLOADING 0%Q
           None None None 0 None.

Definition demoStore (received : list Z) : MemStorage.t :=
  MemStorage.mk {["v1" := demoVideo]} {["s1" := demoSession received]} ∅.

Definition demoRequest : Routes.ChunkRequest :=
  Routes.mkChunkRequest (Some "s1") (Some "1") (Some "temp_1_a").

Definition demoDisk : Disk.t :=
  Disk.mk {["temp_1_a" := Disk.File 7;
            "s1" := Disk.Dir (Some 1) {["chunk_0" := 7; "chunk_1" := 7]}]} ∅ ∅.

(** The handler's answer to a request, by the first check that fails. *)
Inductive verdict (req : Routes.ChunkRequest) (st : MemStorage.t) (d : Disk.t)
    : Response.t * MemStorage.t * Disk.t → Prop :=
| MissingFields r d' :
    Routes.falsy (Routes.sessionId req) = true ∨ Routes.chunkIndex req = None →
    Response.status r = 400 → ¬ promoted d d' →
    verdict req st d (r, st, d')
| NoBody r d' :
    (Routes.file req = None
     ∨ ∃ tmp, Routes.file req = Some tmp ∧ Disk.chunks d !! tmp = Some (Disk.File 0)) →
    Response.status r = 400 → ¬ promoted d d' →
    verdict req st d (r, st, d')
| NotStored r d' tmp :
    Routes.file req = Some tmp →
    (∀ size, Disk.chunks d !! tmp ≠ Some (Disk.File size)) →
    Response.status r = 500 → ¬ promoted d d' →
    verdict req st d (r, st, d')
| UnknownSession r d' sid :
    Routes.falsy (Routes.sessionId req) = false → is_Some (Routes.chunkIndex req) →
    bodyNonEmpty req d →
    Routes.sessionId req = Some sid → MemStorage.getUploadSession sid st = None →
    Response.status r = 404 → ¬ promoted d d' →
    verdict req st d (r, st, d')
| BadIndex r d' sid s ci :
    bodyNonEmpty req d →
    Routes.sessionId req = Some sid → MemStorage.getUploadSession sid st = Some s →
    Routes.chunkIndex req = Some ci →
    Routes.validIndex ci (UploadSession.totalChunks s) = None →
    Response.status r = 400 → ¬ promoted d d' →
    verdict req st d (r, st, d')
| AllPassed out :
    sessionKnown req st → indexInRange req st → bodyNonEmpty req d →
    verdict req st d out.

Definition unknownRequest : Routes.ChunkRequest :=
  Routes.mkChunkRequest (Some "nope") (Some "0") (Some "temp_1_a").

(** The temp file of a file part that arrived without content. *)
Definition emptyBodyDisk : Disk.t := Disk.mk {["temp_1_a" := Disk.File 0]} ∅ ∅.

(** What a deleted video can leave behind: its output tree and source. *)
Definition orphanDisk : Disk.t :=
  Disk.mk ∅ {["gone.webm"]} {["gone" := {["360p"; "720p"; "1080p"]}]}.

(** The storage directory of the examples, [/app/storage]. *)
Definition demoRoot : list string := ["app"; "storage"].

(** Two sources under the id of one video, and the source of another. *)
Definition twoSourcesDisk : Disk.t :=
  Disk.mk {["s1" := Disk.Dir (Some 0) {["chunk_0" := 7]}]}
          {["gone.mp4"; "gone.webm"; "kept.mp4"]}
          {["gone" := {["360p"]}; "kept" := {["360p"; "720p"]}]}.

(** Two session directories last written at time 0. *)
Definition staleDisk : Disk.t :=
  Disk.mk {["s1" := Disk.Dir (Some 0) {["chunk_0" := 7]};
            "s2" := Disk.Dir (Some 0) ∅]} ∅ ∅.

(** A string of decimal digits. *)
Fixpoint all_digits (s : string) : bool :=
  match s with
  | String c s' => JS.is_digit c && all_digits s'
  | EmptyString => true
  end.

(** The status a job has while its flow is at a given point. *)
Definition statusAt (p : Sim.Pc) : JobStatus.t :=
  match p with
  | Sim.PcBegin | Sim.PcMark => JobStatus.pending
  | Sim.PcAnnounce | Sim.PcCheck | Sim.PcEncoding => JobStatus.processing
  | Sim.PcFailing _ _ | Sim.PcFailed => JobStatus.failed
  | Sim.PcDone => JobStatus.completed
  end.

(** Whether the promise of the driver has settled at a given point. *)
Definition settledAt (p : Sim.Pc) : bool :=
  match p with
  | Sim.PcFailing _ _ | Sim.PcDone | Sim.PcFailed => true
  | _ => false
  end.

Definition videoOf (jd : Sim.JobData) (s : Sim.t) : option Video.t :=
  MemStorage.videos (Sim.store s) !! Sim.videoId jd.

Definition jobOf (jd : Sim.JobData) (s : Sim.t) (r : Resolution.t) : option JobStatus.t :=
  jobStatusOf (Sim.store s) (Sim.jobId jd r).

Definition pcOf (s : Sim.t) (r : Resolution.t) : Sim.Pc := Sim.pc (Sim.flows s r).

(** [transcodingProgress[r] === 100] on the stored video. *)
Definition full (v : Video.t) (r : Resolution.t) : bool :=
  Sim.at100 (default ResRecord.empty (Video.transcodingProgress v)) r.

(** What holds of the video and its three jobs at every point of a run. *)
Record coherent (jd : Sim.JobData) (s : Sim.t) : Prop := mkCoherent {
  coh_video : is_Some (videoOf jd s);
  coh_jobs : ∀ r, jobOf jd s r = Some (statusAt (pcOf s r));
  coh_pending :
    ∀ r, settledAt (pcOf s r) = false → Queue.promise (Sim.driver (Sim.flows s r)) = None;
  coh_hls :
    ∀ v r, videoOf jd s = Some v → (hlsUrlPresent v r ↔ pcOf s r = Sim.PcDone);
  coh_full :
    ∀ v r, videoOf jd s = Some v → (full v r = true ↔ pcOf s r = Sim.PcDone);
  coh_completed :
    ∀ v, videoOf jd s = Some v →
         (Video.status v = VideoStatus.COMPLETED ↔ ∀ r, pcOf s r = Sim.PcDone);
  coh_failed :
    ∀ v, videoOf jd s = Some v → Video.status v = VideoStatus.FAILED →
         ∃ r, pcOf s r = Sim.PcFailed;
}.

(** The three jobs of the sample video, and the store POST
    /api/upload/complete leaves for them. *)
Definition demoJobs : Sim.JobData :=
  Sim.mkJobData "v1"
    (λ r, match r with
          | Resolution.R360P => "j360"
          | Resolution.R720P => "j720"
          | Resolution.R1080P => "j1080"
          end)
    "uploads/v1.mp4" "transcoded/v1".

Definition demoQueued : MemStorage.t :=
  Routes.completeStore 10 (Sim.jobId demoJobs) "uploads/v1.mp4" "s1"
    (demoSession [0; 1; 2]) (demoStore [0; 1; 2]).

(** The medium transcode exits with code 1, then the other two finish. *)
Definition demoTrace : list (Z * Sim.label) :=
  [(11, Sim.Begin Resolution.R360P); (11, Sim.Begin Resolution.R720P);
   (11, Sim.Begin Resolution.R1080P);
   (11, Sim.MarkProcessing Resolution.R360P); (11, Sim.MarkProcessing Resolution.R720P);
   (11, Sim.MarkProcessing Resolution.R1080P);
   (11, Sim.Announce Resolution.R360P); (11, Sim.Announce Resolution.R720P);
   (11, Sim.Announce Resolution.R1080P);
   (12, Sim.Checked Resolution.R360P true); (12, Sim.Checked Resolution.R720P true);
   (12, Sim.Checked Resolution.R1080P true);
   (13, Sim.Encoder Resolution.R360P (Queue.Stderr "Duration: 00:00:10.00"));
   (14, Sim.Encoder Resolution.R360P (Queue.Stdout "out_time_ms=5000000"));
   (15, Sim.Encoder Resolution.R720P (Queue.Close (Some 1)));
   (15, Sim.FailVideo Resolution.R720P);
   (16, Sim.Encoder Resolution.R360P (Queue.Close (Some 0)));
   (17, Sim.Encoder Resolution.R1080P (Queue.Close (Some 0)))].

(** * Further parts of the server and of its client *)

(** ** client/src/hooks/useUpload.ts: how the browser cuts a file *)

Module Client.

Definition CHUNK_SIZE : Z := 2 * 1024 * 1024.

Record ChunkInfo := mkChunkInfo {
  index : Z;
  start : Z;
  end_ : Z;
  size : Z;
  uploaded : bool;
}.

(** [createChunks(file)], on [file.size]. *)
Definition createChunks (fileSize : Z) : list ChunkInfo :=
  let totalChunks := MemStorage.ceil_div fileSize CHUNK_SIZE in
  (λ i, let start := i * CHUNK_SIZE in
        let end_ := Z.min (start + CHUNK_SIZE) fileSize in
        mkChunkInfo i start end_ (end_ - start) false)
  <$> seqZ 0 totalChunks.

(** [chunk.uploaded = true]. *)
Definition setUploaded (c : ChunkInfo) : ChunkInfo :=
  mkChunkInfo (index c) (start c) (end_ c) (size c) true.

(** [updateProgress]: the sum of the sizes of the uploaded chunks and
    the percentage shown. *)
Definition uploadedSize (chunks : list ChunkInfo) : Z :=
  foldl (λ sum c, sum + size c) 0 (filter (λ c, uploaded c = true) chunks).

Definition percentage (chunks : list ChunkInfo) (fileSize : Z) : Q :=
  ((inject_Z (uploadedSize chunks) / inject_Z fileSize) * 100)%Q.

(** The text fields of the form [uploadChunkWithRetry] posts, with the
    temp file multer stores the blob under. *)
Definition chunkRequest (sessionId : string) (chunk : ChunkInfo) (tmp : string)
    : Routes.ChunkRequest :=
  Routes.mkChunkRequest (Some sessionId) (Some (pretty (index chunk))) (Some tmp).

End Client.

(** ** More of server/routes.ts *)

Module Upload.

(** The JSON body of POST /api/upload/session; an absent or ill-typed
    key is [None].  Sizes are whole numbers of bytes. *)
Record SessionRequest := mkSessionRequest {
  filename : option string;
  totalSize : option Z;
  mimeType : option string;
}.

(** [createUploadSessionSchema.safeParse(req.body)]. *)
Definition safeParse (body : SessionRequest) : option (string * Z * string) :=
  match filename body, totalSize body, mimeType body with
  | Some filename, Some totalSize, Some mimeType =>
      if bool_decide (filename ≠ "") && (0 <? totalSize)
      then Some (filename, totalSize, mimeType) else None
  | _, _, _ => None
  end.

(** POST /api/upload/session: the status, the session sent on success,
    and the store.  The two ids stand for the [randomUUID()] results. *)
Definition postUploadSession (videoId sessionId : string) (now : Z)
    (body : SessionRequest) (st : MemStorage.t) : Z * option UploadSession.t * MemStorage.t :=
  match safeParse body with
  | None => (400, None, st)
  | Some (filename, totalSize, mimeType) =>
      let '(video, st) := MemStorage.createVideo videoId now filename totalSize mimeType st in
      let '(session, st) :=
        MemStorage.createUploadSession sessionId now (Video.id video) filename totalSize
                                       Routes.CHUNK_SIZE st in
      (200, Some session, st)
  end.

(** multer's [diskStorage]: the file part is written to
    [chunks/<tempName>] before the handler runs. *)
Definition multerStore (tempName : string) (size : Z) (d : Disk.t) : Disk.t :=
  Disk.set_chunks d (<[tempName := Disk.File size]> (Disk.chunks d)).

End Upload.

(** Every received index lies in [[0, totalChunks)]. *)
Definition chunksInRange (st : MemStorage.t) : Prop :=
  ∀ id s, MemStorage.uploadSessions st !! id = Some s →
          Forall (λ i, 0 ≤ i < UploadSession.totalChunks s) (UploadSession.uploadedChunks s).

(** Every received index has its chunk file in the session directory. *)
Definition chunksBacked (st : MemStorage.t) (d : Disk.t) : Prop :=
  ∀ id s i, MemStorage.uploadSessions st !! id = Some s →
            i ∈ UploadSession.uploadedChunks s → Disk.chunkExists d id i = true.

(** ** More of server/storage-cleanup.ts *)

Module Cleanup.

(** [now - stat.mtimeMs > maxAge]; [None] stands for [statSync]
    throwing, which the callers treat as too old. *)
Definition tooOld (maxAge now : Z) (mtimeMs : option Z) : bool :=
  match mtimeMs with
  | Some m => bool_decide (now - m > maxAge)
  | None => true
  end.

(** What [statSync] gives for an entry of [chunks/]: a directory carries
    its mtime, a plain file has the one [fileMtime] gives for its name. *)
Definition mtimeOf (fileMtime : string → option Z) (name : string) (e : Disk.entry)
    : option Z :=
  match e with
  | Disk.Dir mtimeMs _ => mtimeMs
  | Disk.File _ => fileMtime name
  end.

(** Whether [cleanupTempFiles] counts the entry [name]: its name starts
    with [temp_] and it is too old. *)
Definition counted (fileMtime : string → option Z) (now : Z)
    (name : string) (e : Disk.entry) : bool :=
  JS.startsWith name "temp_"
  && tooOld StorageCleanup.TEMP_FILE_MAX_AGE_MS now (mtimeOf fileMtime name e).

(** Whether it is gone afterwards: [fs.unlink] removes a plain file and
    throws on a directory, which lands in the [catch] whose second
    [unlink] fails silently. *)
Definition unlinked (fileMtime : string → option Z) (now : Z)
    (name : string) (e : Disk.entry) : bool :=
  counted fileMtime now name e && negb (Disk.isDirectory e).

(** [cleanupTempFiles()]: the count and the disk afterwards.  As in
    [cleanupOrphanedSessions] the iterations are independent. *)
Definition cleanupTempFiles (fileMtime : string → option Z) (now : Z) (d : Disk.t)
    : Z * Disk.t :=
  (Z.of_nat (size (filter (λ kv, counted fileMtime now kv.1 kv.2 = true) (Disk.chunks d))),
   Disk.set_chunks d
     (filter (λ kv, unlinked fileMtime now kv.1 kv.2 ≠ true) (Disk.chunks d))).

(** [runFullCleanup(activeSessionIds, sessionExpiryMap)]; each of the two
    passes reads the clock for itself. *)
Definition runFullCleanup (fileMtime : string → option Z)
    (activeSessionIds : gset string) (sessionExpiryMap : option (gmap string Z))
    (now1 now2 : Z) (d : Disk.t) : Z * Z * Disk.t :=
  let '(tempFilesCleaned, d) := cleanupTempFiles fileMtime now1 d in
  let '(sessionsCleaned, d) :=
    StorageCleanup.cleanupOrphanedSessions activeSessionIds sessionExpiryMap now2 d in
  (tempFilesCleaned, sessionsCleaned, d).

(** The two counters of [getStorageStats]. *)
Definition tempFileCount (d : Disk.t) : Z :=
  Z.of_nat (size (filter (λ kv, JS.startsWith kv.1 "temp_" = true) (Disk.chunks d))).

Definition sessionDirCount (d : Disk.t) : Z :=
  Z.of_nat (size (filter (λ kv, JS.startsWith kv.1 "temp_" = false
                                ∧ Disk.isDirectory kv.2 = true) (Disk.chunks d))).

(** [checkDiskSpace()], on the [totalSize] that [getStorageStats]
    measured: [hasSpace] and [freeMB]. *)
Definition checkDiskSpace (totalSize : Z) : bool * Q :=
  let usedMB := (inject_Z totalSize / 1024 / 1024)%Q in
  let estimatedFreeMB := Qmax 0 (500 - usedMB) in
  (Qle_bool (inject_Z StorageCleanup.MIN_FREE_SPACE_MB) estimatedFreeMB, estimatedFreeMB).

End Cleanup.

(** ** POST /api/upload/chunk as a whole *)

Module ChunkRoute.

(** What multer reports to the callback of [chunkUpload.single]. *)
Inductive Multer :=
| Stored
| LimitFileSize
| Quota
| OtherError (message : string).

(** What the outside world does during one request: the mtimes
    [statSync] gives for plain files, the total size [getStorageStats]
    measures, what multer reports, the sessions
    [storage.getActiveUploadSessions()] returns should the quota branch ask
    for them, and the clock where it is read. *)
Record Env := mkEnv {
  fileMtime : string → option Z;
  totalSize : Z;
  multer : Multer;
  activeSessions : list UploadSession.t;
  cleanupAt : Z;
  handlerAt : Z;
  quotaCleanupAt : Z * Z;
}.

(** [handleChunkUpload] with the handler it calls: [ensureStorageSpace()]
    (the temp-file pass, then the space check), multer, which on success
    has written the file part of [size] bytes under the temp name the
    request carries, and then the handler; on a quota error the full
    cleanup runs before the answer. *)
Definition handleChunkUpload (w : Env) (req : Routes.ChunkRequest) (size : Z)
    (st : MemStorage.t) (d : Disk.t) : Response.t * MemStorage.t * Disk.t :=
  let d := (Cleanup.cleanupTempFiles (fileMtime w) (cleanupAt w) d).2 in
  if negb (Cleanup.checkDiskSpace (totalSize w)).1 then
    Routes.postUploadChunk Routes.InsufficientSpace (handlerAt w) req st d
  else
    match multer w with
    | Stored =>
        Routes.postUploadChunk Routes.Passed (handlerAt w) req st
          (match Routes.file req with
           | Some tmp => Upload.multerStore tmp size d
           | None => d
           end)
    | LimitFileSize => Routes.postUploadChunk Routes.LimitFileSize (handlerAt w) req st d
    | Quota =>
        Routes.postUploadChunk Routes.QuotaExceeded (handlerAt w) req st
          (Cleanup.runFullCleanup (fileMtime w)
             (Routes.getActiveSessionIds (activeSessions w)) None
             (quotaCleanupAt w).1 (quotaCleanupAt w).2 d).2
    | OtherError message =>
        Routes.postUploadChunk (Routes.MulterError message) (handlerAt w) req st d
    end.

(** One chunk of the client going through the route: the responses so
    far, the store and the disk.  [env i] is the world during the request
    for chunk [i] and [tempName i] the name multer gives its file. *)
Definition uploadOne (env : Z → Env) (sessionId : string) (tempName : Z → string)
    (acc : list Response.t * MemStorage.t * Disk.t) (chunk : Client.ChunkInfo)
    : list Response.t * MemStorage.t * Disk.t :=
  let '(responses, st, d) := acc in
  let i := Client.index chunk in
  let '(r, st', d') :=
    handleChunkUpload (env i) (Client.chunkRequest sessionId chunk (tempName i))
                      (Client.size chunk) st d in
  ((responses ++ [r])%list, st', d').

(** The chunks of the client posted one after the other, in the order of
    the list. *)
Definition uploadAll (env : Z → Env) (sessionId : string) (tempName : Z → string)
    (chunks : list Client.ChunkInfo) (st : MemStorage.t) (d : Disk.t)
    : list Response.t * MemStorage.t * Disk.t :=
  foldl (uploadOne env sessionId tempName) ([], st, d) chunks.

(** A world in which the request for every chunk gets through to the
    handler: there is space and multer stores the file. *)
Definition unhindered (env : Z → Env) : Prop :=
  ∀ i, (Cleanup.checkDiskSpace (totalSize (env i))).1 = true ∧ multer (env i) = Stored.

End ChunkRoute.

(** ** Queue statistics: storage.ts, queue.ts and the route *)

Module Stats.

Record QueueStats := mkQueueStats {
  waiting : Z;
  active : Z;
  completed : Z;
  failed : Z;
}.

(** [jobs.filter(j => j.status === s).length] over the values of the map;
    the count does not depend on their order. *)
Definition countStatus (st : MemStorage.t) (s : JobStatus.t) : Z :=
  Z.of_nat (length (filter (λ j, TranscodingJob.status j = s)
                           ((map_to_list (MemStorage.transcodingJobs st)).*2))).

(** [MemStorage.getQueueStats()]. *)
Definition storageQueueStats (st : MemStorage.t) : QueueStats :=
  mkQueueStats (countStatus st JobStatus.pending) (countStatus st JobStatus.processing)
               (countStatus st JobStatus.completed) (countStatus st JobStatus.failed).

(** [getQueueStats()] of queue.ts; [counts] is what the four BullMQ
    counters answer, [None] when one of them rejects. *)
Definition getQueueStats (ctorThrows : bool) (counts : option QueueStats) (b : Queue.Broker)
    : QueueStats * Queue.Broker :=
  let '(redis, b) := Queue.getRedisConnection ctorThrows b in
  if redis then (default (mkQueueStats 0 0 0 0) counts, b)
  else (mkQueueStats 0 0 0 0, b).

(** [a || b] on numbers. *)
Definition orElse (a b : Z) : Z := if a =? 0 then b else a.

(** GET /api/queue/stats. *)
Definition getQueueStatsRoute (ctorThrows : bool) (counts : option QueueStats)
    (b : Queue.Broker) (st : MemStorage.t) : QueueStats * Queue.Broker :=
  let '(queueStats, b) := getQueueStats ctorThrows counts b in
  let storageStats := storageQueueStats st in
  (mkQueueStats (orElse (waiting queueStats) (waiting storageStats))
                (orElse (active queueStats) (active storageStats))
                (orElse (completed queueStats) (completed storageStats))
                (orElse (failed queueStats) (failed storageStats)), b).

End Stats.

(** ** Runs of the encoder driver *)

Module Encoder.

(** The events of one child process fed to the four handlers in order:
    the values handed to [onProgress], and the driver at the end. *)
Definition drive (playlist : string) (es : list Queue.ProcessEvent) (d : Queue.Driver)
    : list Q * Queue.Driver :=
  foldl (λ acc e, let '(calls, d') := Queue.onEvent playlist e acc.2 in
                  ((acc.1 ++ calls)%list, d'))
        ([], d) es.

(** How an event asks the promise to settle, if it does. *)
Definition outcomeOf (playlist : string) (e : Queue.ProcessEvent) : option Queue.Outcome :=
  match e with
  | Queue.Close code =>
      Some (if bool_decide (code = Some 0) then Queue.Resolved playlist
            else Queue.Failed ("FFmpeg exited with code " +:+ Queue.showCode code))
  | Queue.Error message => Some (Queue.Failed message)
  | _ => None
  end.

Fixpoint firstOutcome (playlist : string) (es : list Queue.ProcessEvent)
    : option Queue.Outcome :=
  match es with
  | [] => None
  | e :: es' =>
      match outcomeOf playlist e with
      | Some o => Some o
      | None => firstOutcome playlist es'
      end
  end.

(** Two decimal digits, as FFmpeg prints the fields of a time. *)
Definition pad2 (n : Z) : string :=
  String (pretty_N_char (Z.to_N n `div` 10))
         (String (pretty_N_char (Z.to_N n `mod` 10)) EmptyString).

(** What FFmpeg prints for an input of [h:m:s.c], followed by [rest]. *)
Definition banner (h m s c : Z) (rest : string) : string :=
  "Duration: " +:+ pad2 h +:+ ":" +:+ pad2 m +:+ ":" +:+ pad2 s +:+ "." +:+ pad2 c +:+ rest.

End Encoder.

(** ** What a run of the three flows announces and touches *)

(** What an event says about a resolution. *)
Inductive mark :=
| Progress (p : Q)
| Completed
| Failed.

Definition markOf (r : Resolution.t) (e : VideoEvent.t) : option mark :=
  match VideoEvent.type e, VideoEvent.payload e with
  | EventType.TRANSCODING_PROGRESS, Some (VideoEvent.ProgressData r' p _) =>
      if decide (r' = r) then Some (Progress p) else None
  | EventType.TRANSCODING_COMPLETED, Some (VideoEvent.CompletedData r' _ _) =>
      if decide (r' = r) then Some Completed else None
  | EventType.TRANSCODING_FAILED, Some (VideoEvent.FailedData r' _ _) =>
      if decide (r' = r) then Some Failed else None
  | _, _ => None
  end.

(** The events about a resolution, oldest first. *)
Definition marks (r : Resolution.t) (events : list VideoEvent.t) : list mark :=
  omap (markOf r) events.

(** The percentages announced while a transcode runs, with the last of
    them: 0 first, then values of at most 99, each at least 5 above the
    one before. *)
Inductive ramp : list Q → Q → Prop :=
| ramp_start : ramp [0%Q] 0%Q
| ramp_step ps last p :
    ramp ps last → (5 <= p - last)%Q → (p <= 99)%Q → ramp (ps ++ [p]) p.

(** The events about a resolution whose flow is at a given point, when
    [ps] are the percentages announced while it ran. *)
Definition eventsAt (p : Sim.Pc) (ps : list Q) : list mark :=
  match p with
  | Sim.PcBegin | Sim.PcMark | Sim.PcAnnounce => []
  | Sim.PcCheck | Sim.PcEncoding | Sim.PcFailing _ _ => Progress <$> ps
  | Sim.PcFailed => (Progress <$> ps) ++ [Failed]
  | Sim.PcDone => (Progress <$> ps) ++ [Progress 100%Q; Completed]
  end.

(** Two stores that differ at most in one video and its three jobs, and
    hold entries under the same keys. *)
Record sameElsewhere (jd : Sim.JobData) (st st' : MemStorage.t) : Prop := mkSameElsewhere {
  same_sessions : MemStorage.uploadSessions st' = MemStorage.uploadSessions st;
  same_videos :
    ∀ id, id ≠ Sim.videoId jd → MemStorage.videos st' !! id = MemStorage.videos st !! id;
  same_jobs :
    ∀ id, (∀ r, id ≠ Sim.jobId jd r) →
          MemStorage.transcodingJobs st' !! id = MemStorage.transcodingJobs st !! id;
  same_video_keys : dom (MemStorage.videos st') = dom (MemStorage.videos st);
  same_job_keys : dom (MemStorage.transcodingJobs st') = dom (MemStorage.transcodingJobs st);
}.

(** What holds of the events about a resolution and of its flow at every
    point of a run: the events are those of [eventsAt] for some ramp, the
    flow's [lastProgress] is the last percentage announced, and the
    promise of its driver is pending until the flow has seen it settle. *)
Definition flowAnnounced (s : Sim.t) (r : Resolution.t) : Prop :=
  ∃ ps last,
    ramp ps last
    ∧ marks r (Sim.emitted s) = eventsAt (pcOf s r) ps
    ∧ Sim.lastProgress (Sim.flows s r)
      = match pcOf s r with
        | Sim.PcBegin | Sim.PcMark | Sim.PcAnnounce => 0%Q
        | Sim.PcDone => 100%Q
        | _ => last
        end
    ∧ 0 ≤ Queue.duration (Sim.driver (Sim.flows s r))
    ∧ (settledAt (pcOf s r) = false → Queue.promise (Sim.driver (Sim.flows s r)) = None).

(** ** server/worker.ts: the job function of the BullMQ worker *)

Module Worker.

(** One job: the variable [lastProgress], the driver of [transcodeVideo]
    and what has been published on ["video-events"], oldest first.  The
    publish calls are taken to succeed. *)
Record Run := mkRun {
  lastProgress : Q;
  driver : Queue.Driver;
  published : list VideoEvent.t;
}.

Definition started : Run := mkRun 0%Q Queue.spawned [].

(** The progress callback: [publishProgress] when the value is at least
    5 above the last one published. *)
Definition progressCallback (jd : Sim.JobData) (now : Z) (r : Resolution.t)
    (progress : Q) (w : Run) : Run :=
  if Qle_bool 5 (progress - lastProgress w) then
    mkRun progress (driver w)
      (published w
       ++ [VideoEvent.mk EventType.TRANSCODING_PROGRESS (Sim.videoId jd)
             (Some (VideoEvent.ProgressData r progress (Sim.jobId jd r))) now])
  else w.

(** One event of the child process: the handlers of [transcodeVideo]
    run, and when the event settles the promise the job function goes on
    to [publishCompletion] or, in its [catch], to [publishFailure]. *)
Definition onProcessEvent (jd : Sim.JobData) (now : Z) (r : Resolution.t)
    (e : Queue.ProcessEvent) (w : Run) : Run :=
  let '(calls, drv) := Queue.transcodeVideo_onEvent (Sim.outputDir jd) r e (driver w) in
  let w1 :=
    foldl (λ w progress, progressCallback jd now r progress w)
          (mkRun (lastProgress w) drv (published w)) calls in
  match Queue.promise (driver w), Queue.promise drv with
  | None, Some (Queue.Resolved _) =>
      mkRun (lastProgress w1) (driver w1)
        (published w1
         ++ [VideoEvent.mk EventType.TRANSCODING_COMPLETED (Sim.videoId jd)
               (Some (VideoEvent.CompletedData r (Sim.jobId jd r) (Sim.hlsUrlOf jd r))) now])
  | None, Some (Queue.Failed message) =>
      mkRun (lastProgress w1) (driver w1)
        (published w1
         ++ [VideoEvent.mk EventType.TRANSCODING_FAILED (Sim.videoId jd)
               (Some (VideoEvent.FailedData r (Sim.jobId jd r) message)) now])
  | _, _ => w1
  end.

(** The events of the child process with the time each one arrives at. *)
Definition run (jd : Sim.JobData) (r : Resolution.t)
    (es : list (Z * Queue.ProcessEvent)) (w : Run) : Run :=
  foldl (λ w e, onProcessEvent jd e.1 r e.2 w) w es.

End Worker.

(** ** client/src/hooks/useUpload.ts: retrying a chunk *)

Module Retry.

Definition MAX_RETRIES : Z := 3.

(** [Math.min(1000 * Math.pow(2, attempt), 8000)]. *)
Definition backoff (attempt : Z) : Z := Z.min (1000 * 2 ^ attempt) 8000.

(** The loop of [uploadChunkWithRetry] from a given attempt on, while
    the upload is not aborted.  [ok attempt] tells whether the request of
    that attempt is answered with a 2xx status.  The result: whether the
    function returns [true] (otherwise it throws the last error), the
    attempts made and the delays waited, in order. *)
Fixpoint retryFrom (ok : Z → bool) (attempt : Z) (left : nat) : bool * list Z * list Z :=
  match left with
  | O => (false, [], [])
  | S left' =>
      if ok attempt then (true, [attempt], [])
      else
        let delay := if attempt <? MAX_RETRIES - 1 then [backoff attempt] else [] in
        let '(r, attempts, delays) := retryFrom ok (attempt + 1) left' in
        (r, attempt :: attempts, (delay ++ delays)%list)
  end.

Definition uploadChunkWithRetry (ok : Z → bool) : bool * list Z * list Z :=
  retryFrom ok 0 (Z.to_nat MAX_RETRIES).

End Retry.

(** ** Emitting many events *)

Module Emissions.

(** The arguments of one [emitEvent] call, with what the outside world
    does during it. *)
Record Call := mkCall {
  ctorThrows : bool;
  publishOutcome : Queue.settled;
  now : Z;
  type : EventType.t;
  videoId : string;
  data : option VideoEvent.data;
}.

(** [emitEvent] called once per element, on the bus the call before left:
    everything that was done, in order, and the bus at the end. *)
Definition emitAll (calls : list Call) (b : Queue.Bus) : list Queue.action * Queue.Bus :=
  foldl (λ acc c,
           let e := Queue.emitEvent (ctorThrows c) (publishOutcome c) (now c)
                                    (type c) (videoId c) (data c) acc.2 in
           ((acc.1 ++ Queue.actions e)%list, Queue.bus e))
        ([], b) calls.

Definition isPublish (a : Queue.action) : bool :=
  match a with Queue.Publish _ _ => true | Queue.Invoke _ _ => false end.

End Emissions.

(** ** More sample data *)

(** ** The stores the server builds

    One request, or one step of a transcoding flow, as a change of the
    state store.  These are all the places where the server calls an
    operation of the store that changes it: POST /api/upload/session,
    POST /api/upload/chunk, POST /api/upload/complete, the flows of
    [simulateTranscoding] and DELETE /api/videos/:id.  The disk, the
    clock and the ids are whatever they are at that moment; the session
    POST /api/upload/complete works with is the one its checks have read,
    which other requests may have changed in the store since, and the
    state of a flow is any state with that store. *)
Inductive serves : MemStorage.t → MemStorage.t → Prop :=
| serves_session videoId sessionId now body st :
    serves st (Upload.postUploadSession videoId sessionId now body st).2
| serves_chunk w req size st d :
    serves st (ChunkRoute.handleChunkUpload w req size st d).1.2
| serves_complete now jobIds outputPath sessionId session st :
    serves st (Routes.completeStore now jobIds outputPath sessionId session st)
| serves_flow jd now l s s' :
    Sim.step jd now l s = Some s' →
    serves (Sim.store s) (Sim.store s')
| serves_delete now1 now2 root id st d :
    serves st (Routes.deleteVideo now1 now2 root id st d).1.2.

Inductive served : MemStorage.t → Prop :=
| served_empty : served MemStorage.empty
| served_step st st' : served st → serves st st' → served st'.

(** The store after POST /api/upload/session for a file of 5,000,000
    bytes, from the empty store. *)
Definition sessionOpened : MemStorage.t :=
  (Upload.postUploadSession "v1" "s1" 0
     (Upload.mkSessionRequest (Some "clip.mp4") (Some 5000000) (Some "video/mp4"))
     MemStorage.empty).2.

(** The directory of session [s1] with the three chunks of the file. *)
Definition completeDisk : Disk.t :=
  Disk.mk {["s1" := Disk.Dir (Some 3)
                      {["chunk_0" := 2097152; "chunk_1" := 2097152; "chunk_2" := 805696]}]}
          ∅ ∅.

(** The sources and the output tree of video [v1], and the source of
    another video. *)
Definition v1Disk : Disk.t :=
  Disk.mk ∅ {["v1.mp4"; "v1.webm"; "v2.mp4"]} {["v1" := {["360p"]}; "v2" := {["360p"]}]}.

(** A world in which nothing is in the way of a chunk. *)
Definition demoEnv (i : Z) : ChunkRoute.Env :=
  ChunkRoute.mkEnv (λ _, Some 0) 1000 ChunkRoute.Stored [] (10 + i) (10 + i) (0, 0).

(** A world in which the storage is full. *)
Definition fullEnv : ChunkRoute.Env :=
  ChunkRoute.mkEnv (λ _, Some 0) 419430401 ChunkRoute.Stored [] 4 5 (0, 0).

(** * Properties *)

(** ** The sort of [uploadedChunks] *)

Lemma sort_insert_Permutation {A} (cmp : A → A → Z) x (l : list A) :
  JS.sort_insert cmp x l ≡ₚ x :: l.
Proof.
  induction l as [|y l IH]; simpl; [done|].
  destruct (cmp x y <=? 0); [done|].
  rewrite IH. apply Permutation_swap.
Qed.

Lemma sort_Permutation {A} (cmp : A → A → Z) (l : list A) : JS.sort cmp l ≡ₚ l.
Proof.
  induction l as [|x l IH]; simpl; [done|].
  rewrite sort_insert_Permutation. by rewrite IH.
Qed.

Lemma sort_insert_sorted x (l : list Z) :
  StronglySorted Z.le l → StronglySorted Z.le (JS.sort_insert (λ a b, a - b) x l).
Proof.
  induction 1 as [|y l Hs IH Hall]; simpl.
  - repeat constructor.
  - destruct (Z.leb_spec (x - y) 0) as [Hle|Hgt].
    + constructor; [by constructor|].
      constructor; [lia|]. eapply Forall_impl; [exact Hall|]. simpl. intros; lia.
    + constructor; [done|].
      rewrite sort_insert_Permutation. constructor; [lia|done].
Qed.

Lemma sort_sorted (l : list Z) : StronglySorted Z.le (JS.sort (λ a b, a - b) l).
Proof.
  induction l as [|x l IH]; simpl; [constructor|]. by apply sort_insert_sorted.
Qed.

(** Any ascending arrangement of the array is the one [JS.sort] returns,
    so the sorting algorithm of the engine does not matter. *)
Lemma sort_numeric_unique (l l' : list Z) :
  l' ≡ₚ l → StronglySorted Z.le l' → l' = JS.sort (λ a b, a - b) l.
Proof.
  intros Hp Hs. apply (StronglySorted_unique Z.le); [done|apply sort_sorted|].
  by rewrite sort_Permutation.
Qed.

Lemma sorted_NoDup_ascending (l : list Z) : StronglySorted Z.le l → NoDup l → ascending l.
Proof.
  induction 1 as [|x l Hs IH Hall]; intros Hnd; [constructor|].
  apply NoDup_cons in Hnd as [Hx Hnd].
  constructor; [by apply IH|].
  apply Forall_forall. intros y Hy.
  pose proof (proj1 (Forall_forall _ _) Hall y Hy) as Hle. simpl in Hle.
  destruct (decide (x = y)) as [->|]; [done|lia].
Qed.

Lemma ascending_NoDup (l : list Z) : ascending l → NoDup l.
Proof.
  induction 1 as [|x l Hs IH Hall]; [constructor|].
  apply NoDup_cons. split; [|done].
  intros Hx. pose proof (proj1 (Forall_forall _ _) Hall x Hx). lia.
Qed.

Lemma sort_push_ascending (l : list Z) x :
  ascending l → x ∉ l → ascending (JS.sort (λ a b, a - b) (l ++ [x])).
Proof.
  intros Hl Hx. apply sorted_NoDup_ascending; [apply sort_sorted|].
  rewrite sort_Permutation. apply NoDup_app. split_and!.
  - by apply ascending_NoDup.
  - by intros y Hy ->%list_elem_of_singleton.
  - apply NoDup_singleton.
Qed.

(** ** [markChunkUploaded] *)

Lemma includes_true x l : JS.includes x l = true ↔ x ∈ l.
Proof. unfold JS.includes. apply bool_decide_eq_true. Qed.

Lemma includes_false x l : JS.includes x l = false ↔ x ∉ l.
Proof. unfold JS.includes. apply bool_decide_eq_false. Qed.

Lemma markChunkUploaded_None sid idx st :
  MemStorage.uploadSessions st !! sid = None →
  MemStorage.markChunkUploaded sid idx st = (None, st).
Proof. intros H. unfold MemStorage.markChunkUploaded. by rewrite H. Qed.

Lemma markChunkUploaded_Some sid idx st s :
  MemStorage.uploadSessions st !! sid = Some s →
  (MemStorage.markChunkUploaded sid idx st).1 = Some (marked s idx)
  ∧ MemStorage.uploadSessions (MemStorage.markChunkUploaded sid idx st).2
    = <[sid := marked s idx]> (MemStorage.uploadSessions st)
  ∧ MemStorage.transcodingJobs (MemStorage.markChunkUploaded sid idx st).2
    = MemStorage.transcodingJobs st.
Proof.
  intros H. unfold MemStorage.markChunkUploaded, marked. rewrite H.
  destruct (JS.includes idx (UploadSession.uploadedChunks s)); simpl;
    (match goal with |- context [MemStorage.videos ?st !! ?k] =>
       destruct (MemStorage.videos st !! k) end); done.
Qed.

Lemma marked_known s idx : idx ∈ UploadSession.uploadedChunks s → marked s idx = s.
Proof. intros H. unfold marked. by rewrite (proj2 (includes_true _ _) H). Qed.

Lemma marked_length s idx :
  (length (UploadSession.uploadedChunks s)
   ≤ length (UploadSession.uploadedChunks (marked s idx)))%nat.
Proof.
  unfold marked. destruct (JS.includes idx _); [done|]. simpl.
  rewrite (Permutation_length (sort_Permutation _ _)), length_app. lia.
Qed.

Lemma marked_ascending s idx :
  ascending (UploadSession.uploadedChunks s) →
  ascending (UploadSession.uploadedChunks (marked s idx)).
Proof.
  intros Hs. unfold marked.
  destruct (JS.includes idx _) eqn:Hin; [done|]. simpl.
  apply sort_push_ascending; [done|]. by apply includes_false.
Qed.

Lemma chunksAscending_insert st sid s :
  chunksAscending st → ascending (UploadSession.uploadedChunks s) →
  chunksAscending (MemStorage.set_uploadSessions st (<[sid := s]> (MemStorage.uploadSessions st))).
Proof.
  intros Hst Hs id s' Hl. simpl in Hl.
  destruct (decide (sid = id)) as [->|Hne].
  - rewrite lookup_insert_eq in Hl. by simplify_eq.
  - rewrite lookup_insert_ne in Hl by done. by eapply Hst.
Qed.

Lemma chunksAscending_sessions st st' :
  MemStorage.uploadSessions st' = MemStorage.uploadSessions st →
  chunksAscending st → chunksAscending st'.
Proof. intros Heq Hst id s. rewrite Heq. apply Hst. Qed.

Lemma chunksAscending_empty : chunksAscending MemStorage.empty.
Proof. intros id s H. simpl in H. by rewrite lookup_empty in H. Qed.

Lemma markChunkUploaded_ascending st sid idx :
  chunksAscending st → chunksAscending (MemStorage.markChunkUploaded sid idx st).2.
Proof.
  intros Hst.
  destruct (MemStorage.uploadSessions st !! sid) as [s|] eqn:Hs.
  - destruct (markChunkUploaded_Some sid idx st s Hs) as (_ & Hm & _).
    intros id s'. rewrite Hm. intros Hl.
    destruct (decide (sid = id)) as [->|Hne].
    + rewrite lookup_insert_eq in Hl. simplify_eq.
      apply marked_ascending. by eapply Hst.
    + rewrite lookup_insert_ne in Hl by done. by eapply Hst.
  - by rewrite markChunkUploaded_None.
Qed.

Lemma exec_ascending st op :
  chunksAscending st → handsArray op = false → chunksAscending (exec op st).
Proof.
  intros Hst Hop. destruct op; simpl in *.
  - by eapply chunksAscending_sessions.
  - unfold MemStorage.updateVideo. destruct (MemStorage.videos st !! id); [|done].
    by eapply chunksAscending_sessions.
  - by eapply chunksAscending_sessions.
  - apply chunksAscending_insert; [done|]. simpl. constructor.
  - unfold MemStorage.updateUploadSession.
    destruct (MemStorage.uploadSessions st !! id) as [s|] eqn:Hs; [|done]. simpl.
    apply chunksAscending_insert; [done|]. simpl.
    destruct (UploadSession.p_uploadedChunks updates) as [l|]; simpl.
    + apply bool_decide_eq_false in Hop. destruct Hop. by eexists.
    + by eapply Hst.
  - by apply markChunkUploaded_ascending.
  - by eapply chunksAscending_sessions.
  - unfold MemStorage.updateTranscodingJob.
    destruct (MemStorage.transcodingJobs st !! id); [|done].
    by eapply chunksAscending_sessions.
Qed.

Lemma markChunkUploaded_returns_ascending st sid idx s :
  chunksAscending st →
  (MemStorage.markChunkUploaded sid idx st).1 = Some s →
  ascending (UploadSession.uploadedChunks s).
Proof.
  intros Hst Hs.
  destruct (MemStorage.uploadSessions st !! sid) as [s0|] eqn:Hs0.
  - destruct (markChunkUploaded_Some sid idx st s0 Hs0) as (Hr & _).
    rewrite Hr in Hs. simplify_eq. apply marked_ascending. by eapply Hst.
  - by rewrite markChunkUploaded_None in Hs.
Qed.

(** ** The chunk handler *)

Lemma validIndex_Some ci total idx :
  Routes.validIndex ci total = Some idx ↔ JS.parseInt ci = Some idx ∧ 0 ≤ idx < total.
Proof.
  unfold Routes.validIndex. destruct (JS.parseInt ci) as [n|].
  - destruct (Z.ltb_spec n 0), (Z.geb_spec n total); simpl; split.
    all: try (intros [[= ->] ?]; lia).
    all: try discriminate.
    all: try (intros [= ->]; split; [done|lia]).
    by intros [[= ->] ?].
  - split; [done|]. by intros [? _].
Qed.

Lemma validIndex_None ci total :
  Routes.validIndex ci total = None ↔
  JS.parseInt ci = None ∨ ∃ n, JS.parseInt ci = Some n ∧ ¬ (0 ≤ n < total).
Proof.
  unfold Routes.validIndex. destruct (JS.parseInt ci) as [n|].
  - destruct (Z.ltb_spec n 0), (Z.geb_spec n total); simpl; split.
    all: try (intros _; right; exists n; split; [done|lia]).
    all: try done.
    intros [Hn|(m & [= <-] & Hm)]; [done|lia].
  - split; [by left|done].
Qed.

Lemma promote_Some now tmp size sid idx d :
  (∀ sz, Disk.chunks d !! sid ≠ Some (Disk.File sz)) →
  ∃ d', Routes.promote now tmp size sid idx d = Some d'
        ∧ Disk.chunkExists d' sid idx = true.
Proof.
  intros Hdir. unfold Routes.promote.
  destruct (Disk.chunks d !! sid) as [[sz|m files]|] eqn:Hs.
  - by destruct (Hdir sz).
  - rewrite Hs. eexists. split; [done|].
    unfold Disk.chunkExists. simpl. rewrite lookup_insert_eq.
    apply bool_decide_eq_true. by rewrite lookup_insert_eq.
  - rewrite lookup_insert_eq. eexists. split; [done|].
    unfold Disk.chunkExists. simpl. rewrite lookup_insert_eq.
    apply bool_decide_eq_true. by rewrite lookup_insert_eq.
Qed.

(** A request that passes every check is promoted and marked. *)
Lemma uploadChunk_accepts now req st d sid s ci idx tmp size :
  Routes.sessionId req = Some sid → sid ≠ "" →
  Routes.chunkIndex req = Some ci →
  Routes.file req = Some tmp →
  Disk.chunks d !! tmp = Some (Disk.File size) → size ≠ 0 →
  MemStorage.uploadSessions st !! sid = Some s →
  Routes.validIndex ci (UploadSession.totalChunks s) = Some idx →
  (∀ sz, Disk.chunks d !! sid ≠ Some (Disk.File sz)) →
  ∃ d', Routes.promote now tmp size sid idx d = Some d'
        ∧ Routes.uploadChunk now req st d
          = (Response.mk 200
               (Response.ChunkAccepted
                  (Z.of_nat (length (UploadSession.uploadedChunks (marked s idx))))
                  (UploadSession.totalChunks s)
                  (MemStorage.progressOf (marked s idx))),
             (MemStorage.markChunkUploaded sid idx st).2, d').
Proof.
  intros Hsid Hne Hci Hfile Htmp Hsize Hs Hidx Hdir.
  destruct (promote_Some now tmp size sid idx d Hdir) as (d' & Hp & Hex).
  exists d'. split; [done|].
  unfold Routes.uploadChunk, Routes.falsy, MemStorage.getUploadSession.
  rewrite Hsid, Hci, Hfile, Htmp, Hs, Hidx, Hp, Hex.
  rewrite bool_decide_eq_false_2 by done.
  rewrite (proj2 (Z.eqb_neq size 0)) by done. simpl.
  destruct (markChunkUploaded_Some sid idx st s Hs) as (Hr & _).
  destruct (MemStorage.markChunkUploaded sid idx st) as [o st'].
  simpl in Hr. subst o.
  replace (UploadSession.totalChunks (marked s idx)) with (UploadSession.totalChunks s); [done|].
  unfold marked. by destruct (JS.includes _ _).
Qed.

Lemma receivedCount_mark sid sid' idx st :
  (receivedCount sid st ≤ receivedCount sid (MemStorage.markChunkUploaded sid' idx st).2)%nat.
Proof.
  unfold receivedCount.
  destruct (MemStorage.uploadSessions st !! sid') as [s'|] eqn:Hs'.
  - destruct (markChunkUploaded_Some sid' idx st s' Hs') as (_ & Hm & _). rewrite Hm.
    destruct (decide (sid' = sid)) as [->|Hne].
    + rewrite lookup_insert_eq, Hs'. apply marked_length.
    + by rewrite lookup_insert_ne.
  - by rewrite markChunkUploaded_None.
Qed.

Lemma receivedCount_markAll calls sid st :
  (receivedCount sid st ≤ receivedCount sid (markAll calls st))%nat.
Proof.
  revert st. induction calls as [|[sid' idx] calls IH]; intros st; [done|].
  simpl. etrans; [apply (receivedCount_mark sid sid' idx)|]. apply IH.
Qed.

(** C3. Marking an index the session already holds returns the session
    as it is and leaves the session map as it is; a re-upload of such an
    index through POST /api/upload/chunk (both fields, a non-empty body,
    the index in range, no plain file in the place of the session
    directory) is answered 200 with [success: true] and the same count; and over any sequence of [markChunkUploaded] calls the count of
    a session never decreases, at any point of the sequence. *)
Theorem markChunkUploaded_idempotent :
  (∀ st sid s idx,
     MemStorage.uploadSessions st !! sid = Some s →
     idx ∈ UploadSession.uploadedChunks s →
     (MemStorage.markChunkUploaded sid idx st).1 = Some s
     ∧ MemStorage.uploadSessions (MemStorage.markChunkUploaded sid idx st).2
       = MemStorage.uploadSessions st
     ∧ receivedCount sid (MemStorage.markChunkUploaded sid idx st).2 = receivedCount sid st)
  ∧ (∀ now req st d sid s ci idx tmp size,
       Routes.sessionId req = Some sid → sid ≠ "" →
       Routes.chunkIndex req = Some ci → JS.parseInt ci = Some idx →
       Routes.file req = Some tmp →
       Disk.chunks d !! tmp = Some (Disk.File size) → size ≠ 0 →
       (∀ sz, Disk.chunks d !! sid ≠ Some (Disk.File sz)) →
       MemStorage.uploadSessions st !! sid = Some s →
       idx ∈ UploadSession.uploadedChunks s →
       0 ≤ idx < UploadSession.totalChunks s →
       let r := (Routes.postUploadChunk Routes.Passed now req st d).1.1 in
       let st' := (Routes.postUploadChunk Routes.Passed now req st d).1.2 in
       Response.status r = 200
       ∧ Response.success r = Some true
       ∧ Response.json r
         = Response.ChunkAccepted (Z.of_nat (length (UploadSession.uploadedChunks s)))
                                  (UploadSession.totalChunks s) (MemStorage.progressOf s)
       ∧ MemStorage.uploadSessions st' = MemStorage.uploadSessions st)
  ∧ (∀ calls more sid st,
       (receivedCount sid (markAll calls st)
        ≤ receivedCount sid (markAll (calls ++ more) st))%nat).
Proof.
  split_and!.
  - intros st sid s idx Hs Hin.
    destruct (markChunkUploaded_Some sid idx st s Hs) as (Hr & Hm & _).
    rewrite marked_known in Hr, Hm by done.
    assert (MemStorage.uploadSessions (MemStorage.markChunkUploaded sid idx st).2
            = MemStorage.uploadSessions st) as Heq.
    { rewrite Hm. by apply insert_id. }
    split_and!; [done..|]. unfold receivedCount. by rewrite Heq.
  - intros now req st d sid s ci idx tmp size Hsid Hne Hci Hparse Hfile Htmp Hsize Hdir
           Hs Hin Hrange r st'.
    assert (Routes.validIndex ci (UploadSession.totalChunks s) = Some idx) as Hv
      by by apply validIndex_Some.
    destruct (uploadChunk_accepts now req st d sid s ci idx tmp size) as (d' & _ & Hu);
      try done.
    subst r st'. simpl. rewrite Hu. simpl. rewrite marked_known by done.
    split_and!; try done.
    destruct (markChunkUploaded_Some sid idx st s Hs) as (_ & Hm & _).
    rewrite Hm, marked_known by done. by apply insert_id.
  - intros calls more sid st. unfold markAll. rewrite foldl_app.
    apply receivedCount_markAll.
Qed.

Lemma markChunkUploaded_idempotent_witness :
  ((MemStorage.markChunkUploaded "s1" 1 (demoStore [0; 1])).1 = Some (demoSession [0; 1])
   ∧ MemStorage.uploadSessions (MemStorage.markChunkUploaded "s1" 1 (demoStore [0; 1])).2
     = MemStorage.uploadSessions (demoStore [0; 1])
   ∧ receivedCount "s1" (MemStorage.markChunkUploaded "s1" 1 (demoStore [0; 1])).2
     = receivedCount "s1" (demoStore [0; 1]))
  ∧ Response.status (Routes.postUploadChunk Routes.Passed 5 demoRequest
                       (demoStore [0; 1]) demoDisk).1.1 = 200
  ∧ Nat.le (receivedCount "s1" (markAll [("s1", 2)] (demoStore [0; 1])))
           (receivedCount "s1" (markAll ([("s1", 2)] ++ [("s1", 0)]) (demoStore [0; 1]))).
Proof.
  destruct markChunkUploaded_idempotent as (H1 & H2 & H3).
  split; [|split].
  - apply (H1 (demoStore [0; 1]) "s1" (demoSession [0; 1]) 1); [reflexivity|].
    apply list_elem_of_In. simpl. auto.
  - refine (proj1 (H2 5 demoRequest (demoStore [0; 1]) demoDisk "s1" (demoSession [0; 1])
                      "1" 1 "temp_1_a" 7 _ _ _ _ _ _ _ _ _ _ _)); try reflexivity; try done.
    all: try (apply list_elem_of_In; simpl; auto).
    all: simpl; lia.
  - apply H3.
Defined.

(** C6. A [markChunkUploaded] call that returns a session whose owning
    video is in the store leaves, in the store it returns, that session
    under its key and the video with [uploadProgress] equal to
    [|uploadedChunks| / totalChunks * 100] of the returned session, every
    other field of the video as before.  (The session has at least one
    chunk, as every created session has; there the rational quotient is
    the JavaScript one.) *)
Theorem markChunkUploaded_recomputes_progress
    (st : MemStorage.t) (sid : string) (idx : Z) (s : UploadSession.t) (v : Video.t) :
  (MemStorage.markChunkUploaded sid idx st).1 = Some s →
  MemStorage.videos st !! UploadSession.videoId s = Some v →
  UploadSession.totalChunks s ≠ 0 →
  let st' := (MemStorage.markChunkUploaded sid idx st).2 in
  let progress :=
    ((inject_Z (Z.of_nat (length (UploadSession.uploadedChunks s)))
      / inject_Z (UploadSession.totalChunks s)) * 100)%Q in
  MemStorage.uploadSessions st' !! sid = Some s
  ∧ ∃ v', MemStorage.videos st' !! UploadSession.videoId s = Some v'
          ∧ Video.uploadProgress v' = progress
          ∧ v' = Video.spread v (Video.mkPartial None (Some progress) None None None None).
Proof.
  intros Hr Hv _ st' progress. subst st'.
  unfold MemStorage.markChunkUploaded in *.
  destruct (MemStorage.uploadSessions st !! sid) as [s0|] eqn:Hs0; [|done].
  simpl in Hr. injection Hr as Hr. rewrite Hr. simpl. rewrite Hv. simpl.
  rewrite !lookup_insert_eq. split; [done|]. eexists. split; [done|]. done.
Qed.

Lemma markChunkUploaded_recomputes_progress_witness :
  MemStorage.uploadSessions (MemStorage.markChunkUploaded "s1" 2 (demoStore [0; 1])).2 !! "s1"
  = Some (demoSession [0; 1; 2])
  ∧ ∃ v', MemStorage.videos (MemStorage.markChunkUploaded "s1" 2 (demoStore [0; 1])).2 !! "v1"
          = Some v'
          ∧ Video.uploadProgress v' = ((inject_Z 3 / inject_Z 3) * 100)%Q
          ∧ v' = Video.spread demoVideo
                   (Video.mkPartial None (Some ((inject_Z 3 / inject_Z 3) * 100)%Q)
                      None None None None).
Proof.
  apply (markChunkUploaded_recomputes_progress
           (demoStore [0; 1]) "s1" 2 (demoSession [0; 1; 2]) demoVideo);
    [reflexivity | reflexivity | simpl; lia].
Defined.

Example progress_two_of_three :
  Qeq (MemStorage.progressOf (demoSession [0; 1])) (200 # 3).
Proof. reflexivity. Qed.

Lemma chunkExists_unlinkTemp tmp d sid i :
  Disk.chunkExists (Routes.unlinkTemp tmp d) sid i = Disk.chunkExists d sid i.
Proof.
  unfold Routes.unlinkTemp, Disk.chunkExists.
  destruct (Disk.chunks d !! tmp) as [[sz|m files]|] eqn:Ht; [|done..]. simpl.
  destruct (decide (tmp = sid)) as [->|Hne].
  - by rewrite lookup_delete_eq, Ht.
  - by rewrite lookup_delete_ne.
Qed.

Lemma not_promoted_refl d : ¬ promoted d d.
Proof. intros (sid & i & H1 & H2). congruence. Qed.

Lemma not_promoted_unlinkTemp tmp d : ¬ promoted d (Routes.unlinkTemp tmp d).
Proof. intros (sid & i & H1 & H2). rewrite chunkExists_unlinkTemp in H1. congruence. Qed.

Lemma not_promoted_unlinkFile f d : ¬ promoted d (Routes.unlinkFile f d).
Proof. destruct f; [apply not_promoted_unlinkTemp | apply not_promoted_refl]. Qed.

Lemma uploadChunk_verdict now req st d :
  verdict req st d (Routes.uploadChunk now req st d).
Proof.
  unfold Routes.uploadChunk.
  destruct (Routes.sessionId req) as [sid|] eqn:Hsid; cycle 1.
  { apply MissingFields; [left; by rewrite Hsid | done | apply not_promoted_unlinkFile]. }
  destruct (Routes.chunkIndex req) as [ci|] eqn:Hci; cycle 1.
  { apply MissingFields; [right; by rewrite ?Hci | done | apply not_promoted_unlinkFile]. }
  destruct (Routes.falsy (Some sid)) eqn:Hfalsy.
  { apply MissingFields; [left; by rewrite Hsid | done | apply not_promoted_unlinkFile]. }
  destruct (Routes.file req) as [tmp|] eqn:Hfile; cycle 1.
  { apply NoBody; [by left | done | apply not_promoted_refl]. }
  destruct (Disk.chunks d !! tmp) as [[size|m files]|] eqn:Htmp; cycle 1.
  { eapply NotStored; [done| |done|apply not_promoted_unlinkFile].
    intros size. by rewrite Htmp. }
  { eapply NotStored; [done| |done|apply not_promoted_unlinkFile].
    intros size. by rewrite Htmp. }
  destruct (Z.eqb_spec size 0) as [->|Hsize].
  { apply NoBody; [right; by exists tmp | done | apply not_promoted_unlinkTemp]. }
  assert (bodyNonEmpty req d) as Hbody by (by exists tmp, size).
  destruct (MemStorage.getUploadSession sid st) as [s|] eqn:Hs; cycle 1.
  { eapply (UnknownSession req st d _ _ sid); try done.
    all: try apply not_promoted_unlinkTemp.
    all: try (by rewrite Hci).
    all: try (by rewrite Hsid). }
  destruct (Routes.validIndex ci (UploadSession.totalChunks s)) as [idx|] eqn:Hidx; cycle 1.
  { eapply BadIndex; try done. apply not_promoted_unlinkTemp. }
  apply AllPassed; [by exists sid, s | by exists sid, s, ci, idx | done].
Qed.

(** The first check: a request without its fields is answered 400 and
    nothing but its temp file is touched. *)
Lemma uploadChunk_outcome_fields now req st d :
  fieldsMissing req →
  Response.status (Routes.uploadChunk now req st d).1.1 = 400
  ∧ (Routes.uploadChunk now req st d).1.2 = st
  ∧ ¬ promoted d (Routes.uploadChunk now req st d).2.
Proof.
  intros Hm. unfold Routes.uploadChunk.
  destruct (Routes.sessionId req) as [sid|] eqn:Hsid; cycle 1.
  { simpl. split_and!; [done|done|apply not_promoted_unlinkFile]. }
  destruct (Routes.chunkIndex req) as [ci|] eqn:Hci; cycle 1.
  { simpl. split_and!; [done|done|apply not_promoted_unlinkFile]. }
  destruct Hm as [Hm|Hm]; [|congruence]. rewrite Hsid in Hm. rewrite Hm. simpl.
  split_and!; [done|done|apply not_promoted_unlinkFile].
Qed.

(** C7, as the code has it. The handler of POST /api/upload/chunk makes
    its checks in a fixed order and answers with the first that fails: 400
    when [sessionId] is absent or empty or [chunkIndex] is absent; 400
    when no file part arrived or the stored file is empty; 404 when the
    session does not exist; 400 when the index does not parse as an
    integer of [[0, totalChunks)]. So the answer for an unknown session is
    404 only when the request carries both fields and a non-empty body. In
    each of these cases the store is unchanged and no chunk file appears,
    and a request whose handling changes the store, puts a chunk file in
    place or is answered 200 has both fields and has passed the three
    validations. *)
Theorem uploadChunk_validates
    (now : Z) (req : Routes.ChunkRequest) (st : MemStorage.t) (d : Disk.t) :
  stored req d →
  let r := (Routes.postUploadChunk Routes.Passed now req st d).1.1 in
  let st' := (Routes.postUploadChunk Routes.Passed now req st d).1.2 in
  let d' := (Routes.postUploadChunk Routes.Passed now req st d).2 in
  (fieldsMissing req → Response.status r = 400 ∧ st' = st ∧ ¬ promoted d d')
  ∧ (¬ bodyNonEmpty req d → Response.status r = 400 ∧ st' = st ∧ ¬ promoted d d')
  ∧ (¬ fieldsMissing req → bodyNonEmpty req d → ¬ sessionKnown req st →
     Response.status r = 404 ∧ st' = st ∧ ¬ promoted d d')
  ∧ (sessionKnown req st → ¬ indexInRange req st →
     Response.status r = 400 ∧ st' = st ∧ ¬ promoted d d')
  ∧ (st' ≠ st ∨ promoted d d' ∨ Response.status r = 200 →
     ¬ fieldsMissing req
     ∧ sessionKnown req st ∧ indexInRange req st ∧ bodyNonEmpty req d).
Proof.
  intros Hstored r st' d'. subst r st' d'. simpl.
  pose proof (uploadChunk_verdict now req st d) as Hv.
  pose proof (uploadChunk_outcome_fields now req st d) as Hfields.
  destruct (Routes.uploadChunk now req st d) as [[r st'] d']. simpl in *.
  inversion Hv as [r0 d0 Hmiss H400 Hnp | r0 d0 Hno H400 Hnp | r0 d0 tmp Hfile Hns H500 Hnp
                  | r0 d0 sid Hf Hci Hbody Hsid Hs H404 Hnp
                  | r0 d0 sid s ci Hbody Hsid Hs Hci Hidx H400 Hnp
                  | out Hk Hi Hb]; subst.
  - split_and!.
    + done.
    + done.
    + intros Hnm. by destruct Hnm.
    + intros _ _. done.
    + intros [?|[?|?]]; [done|done|congruence].
  - split_and!.
    + done.
    + done.
    + intros _ (tmp & size & Hfile & Htmp & Hsize) _.
      destruct Hno as [?|(tmp' & ? & ?)]; [congruence|]. by simplify_eq.
    + intros _ _. done.
    + intros [?|[?|?]]; [done|done|congruence].
  - destruct (Hstored tmp Hfile) as [size Hsz]. by destruct (Hns size).
  - split_and!.
    + intros [Hm|Hm]; [congruence|]. rewrite Hm in Hci. by destruct Hci.
    + done.
    + done.
    + intros (sid' & s & ? & ?). simplify_eq.
    + intros [?|[?|?]]; [done|done|congruence].
  - split_and!.
    + done.
    + done.
    + intros _ _ Hnk. destruct Hnk. by exists sid, s.
    + done.
    + intros [?|[?|?]]; [done|done|congruence].
  - split_and!.
    + intros Hm. by destruct (Hfields Hm) as (? & ? & ?).
    + done.
    + done.
    + done.
    + intros Hch. split_and!; try done.
      intros Hm. destruct (Hfields Hm) as (H400 & -> & Hnp).
      destruct Hch as [?|[?|?]]; [done|done|congruence].
Qed.

Lemma uploadChunk_validates_witness :
  Response.status
    (Routes.postUploadChunk Routes.Passed 5 unknownRequest (demoStore [0]) demoDisk).1.1 = 404
  ∧ (Routes.postUploadChunk Routes.Passed 5 unknownRequest (demoStore [0]) demoDisk).1.2
    = demoStore [0].
Proof.
  assert (stored unknownRequest demoDisk) as Hstored.
  { intros tmp [= <-]. by exists 7. }
  destruct (uploadChunk_validates 5 unknownRequest (demoStore [0]) demoDisk Hstored)
    as (_ & _ & H404 & _).
  assert (Response.status
            (Routes.postUploadChunk Routes.Passed 5 unknownRequest (demoStore [0]) demoDisk).1.1
          = 404
          ∧ (Routes.postUploadChunk Routes.Passed 5 unknownRequest (demoStore [0]) demoDisk).1.2
            = demoStore [0]
          ∧ ¬ promoted demoDisk
                (Routes.postUploadChunk Routes.Passed 5 unknownRequest (demoStore [0])
                   demoDisk).2) as (Hr & Hst & _).
  { apply H404.
    - intros [Hm|Hm]; discriminate Hm.
    - exists "temp_1_a", 7. split; [reflexivity|]. split; [reflexivity|]. lia.
    - intros (sid & s & Hsid & Hs). injection Hsid as <-. vm_compute in Hs. discriminate. }
  split; [exact Hr|exact Hst].
Defined.

(** A request for an unknown session whose file part is empty: the
    answer is 400, not 404. *)
Lemma unknown_session_with_empty_body_is_400 :
  ¬ rejectsPerValidation 5 unknownRequest (demoStore [0]) emptyBodyDisk.
Proof.
  intros (H404 & _).
  assert (Response.status
            (Routes.postUploadChunk Routes.Passed 5 unknownRequest (demoStore [0])
               emptyBodyDisk).1.1 = 400) as H400 by reflexivity.
  rewrite H404 in H400; [discriminate H400|].
  intros (sid & s & Hsid & Hs). injection Hsid as <-. vm_compute in Hs. discriminate.
Qed.

Example unknown_session_without_index_is_400 :
  (Routes.postUploadChunk Routes.Passed 5
     (Routes.mkChunkRequest (Some "nope") None (Some "temp_1_a")) (demoStore [0]) demoDisk).1.1
  = Response.mk 400 (Response.Failure "Missing sessionId or chunkIndex").
Proof. reflexivity. Qed.

Example reupload_in_any_order :
  (Routes.postUploadChunk Routes.Passed 5 demoRequest (demoStore [0; 2]) demoDisk).1.1
  = Response.mk 200 (Response.ChunkAccepted 3 3 ((inject_Z 3 / inject_Z 3) * 100)%Q).
Proof. reflexivity. Qed.

Example empty_body_is_400 :
  (Routes.postUploadChunk Routes.Passed 5 unknownRequest (demoStore [0])
     (Disk.mk {["temp_1_a" := Disk.File 0]} ∅ ∅)).1.1
  = Response.mk 400 (Response.Failure "Empty chunk received").
Proof. reflexivity. Qed.

(** [parseInt] skips every [StrWhiteSpaceChar]: a no-break space (C2 A0
    in UTF-8), a byte order mark (EF BB BF) or a line separator (E2 80
    A8) before the digits does not make the index invalid. *)
Example index_after_unicode_space :
  Routes.validIndex (String "194" (String "160" "1")) 3 = Some 1
  ∧ Routes.validIndex (String "239" (String "187" (String "191" " 2"))) 3 = Some 2
  ∧ Routes.validIndex (String "226" (String "128" (String "168" "0x1"))) 3 = Some 1
  ∧ Routes.validIndex (String "194" "1") 3 = None.
Proof. by split_and!. Qed.

Example hex_index_is_read_by_parseInt :
  Routes.validIndex "0x2" 3 = Some 2 ∧ Routes.validIndex "3" 3 = None
  ∧ Routes.validIndex "-1" 3 = None ∧ Routes.validIndex "two" 3 = None.
Proof. by split_and!. Qed.

(** ** POST /api/upload/complete *)

Lemma elem_of_missingChunkFiles d sid total i :
  i ∈ Routes.missingChunkFiles d sid total ↔ 0 ≤ i < total ∧ Disk.chunkExists d sid i = false.
Proof.
  unfold Routes.missingChunkFiles. rewrite list_elem_of_filter, elem_of_seqZ.
  split; intros [? ?]; (split; [done || lia | done || lia]).
Qed.

(** C1, as the code has it. For every POST /api/upload/complete request
    whose session exists: when [|uploadedChunks| ≠ totalChunks] the
    response is 400 with the body [{ error, uploaded, total }], which
    carries the two counts and no list of indices; the list of missing
    indices, cut to its first 10 and sent with their number, is the
    answer (also 400) when the counts agree and chunk files are absent
    from the session directory, and it lists the indices of
    [[0, totalChunks)] whose files are absent. *)
Theorem complete_rejects_incomplete
    (sid : string) (st : MemStorage.t) (d : Disk.t) (s : UploadSession.t) :
  MemStorage.getUploadSession sid st = Some s →
  let received := Z.of_nat (length (UploadSession.uploadedChunks s)) in
  let total := UploadSession.totalChunks s in
  (received ≠ total →
     Routes.completeChecks sid st d
     = inl (Response.mk 400 (Response.UploadIncomplete received total))
     ∧ ∀ r, Routes.completeChecks sid st d = inl r → Response.missingChunks r = None)
  ∧ (received = total → Routes.missingChunkFiles d sid total ≠ [] →
     Routes.completeChecks sid st d
     = inl (Response.mk 400
              (Response.MissingChunkFiles
                 (take 10 (Routes.missingChunkFiles d sid total))
                 (Z.of_nat (length (Routes.missingChunkFiles d sid total))))))
  ∧ (∀ i, i ∈ Routes.missingChunkFiles d sid total
          ↔ 0 ≤ i < total ∧ Disk.chunkExists d sid i = false).
Proof.
  intros Hs received total. subst received total.
  unfold Routes.completeChecks. rewrite Hs. split_and!.
  - intros Hne. rewrite bool_decide_eq_true_2 by done.
    split; [done|]. by intros r [= <-].
  - intros Heq Hmiss. rewrite bool_decide_eq_false_2 by (intros ?; done).
    rewrite bool_decide_eq_true_2; [done|].
    destruct (Routes.missingChunkFiles _ _ _); [done|simpl; lia].
  - apply elem_of_missingChunkFiles.
Qed.

Lemma complete_rejects_incomplete_witness :
  Routes.completeChecks "s1" (demoStore [0; 1]) demoDisk
  = inl (Response.mk 400 (Response.UploadIncomplete 2 3)).
Proof.
  destruct (complete_rejects_incomplete "s1" (demoStore [0; 1]) demoDisk (demoSession [0; 1]))
    as (H & _); [reflexivity|].
  apply H. simpl. lia.
Defined.

(** The session of the specification's scenario, two of three chunks
    received: the answer does not carry [missingChunks: [2]]. *)
Lemma complete_count_mismatch_lists_nothing :
  ¬ completeListsMissing "s1" (demoStore [0; 1]) demoDisk.
Proof.
  intros H.
  destruct (H (demoSession [0; 1])) as (r & Hr & _ & Hm); [reflexivity|simpl; lia|].
  vm_compute in Hr. injection Hr as <-. discriminate Hm.
Qed.

Example complete_lists_missing_files :
  Routes.completeChecks "s1" (demoStore [0; 1; 2]) demoDisk
  = inl (Response.mk 400 (Response.MissingChunkFiles [2] 1)).
Proof. reflexivity. Qed.

(** ** DELETE /api/videos/:id *)

Lemma split_no_slash s : Path.hasChar "/" s = false → Path.split s = [s].
Proof.
  induction s as [|c s IH]; [done|]. cbn [Path.hasChar Path.split].
  rewrite (Ascii.eqb_sym "/" c). destruct (Ascii.eqb c "/"); [done|].
  intros Hs. by rewrite IH.
Qed.

Lemma join_name dir s :
  Path.hasChar "/" s = false → s ≠ "" → s ≠ "." → s ≠ ".." →
  Path.join dir s = (dir ++ [s])%list.
Proof.
  intros Hs H1 H2 H3. unfold Path.join. rewrite split_no_slash by done. simpl.
  unfold Path.enter. by rewrite !bool_decide_eq_false_2.
Qed.

Lemma below_app root rest : Disk.below root (root ++ rest) = Some rest.
Proof.
  induction root as [|r root IH]; simpl; [by destruct rest|].
  by rewrite bool_decide_eq_true_2.
Qed.

Lemma hasChar_app c a b :
  Path.hasChar c (a +:+ b) = Path.hasChar c a || Path.hasChar c b.
Proof.
  induction a as [|x a IH]; [done|].
  change (String x a +:+ b) with (String x (a +:+ b)). cbn [Path.hasChar].
  rewrite IH. by rewrite orb_assoc.
Qed.

Lemma length_app_string a b :
  String.length (a +:+ b) = (String.length a + String.length b)%nat.
Proof. induction a as [|x a IH]; simpl; [done|]. by rewrite IH. Qed.

(** [<id><ext>] is a name whenever the id holds no separator. *)
Lemma upload_name id ext :
  ext ∈ StorageCleanup.extensions → Path.hasChar "/" id = false →
  Path.hasChar "/" (id +:+ ext) = false
  ∧ id +:+ ext ≠ "" ∧ id +:+ ext ≠ "." ∧ id +:+ ext ≠ "..".
Proof.
  intros Hext Hid.
  assert (Path.hasChar "/" ext = false ∧ (4 ≤ String.length ext)%nat) as [Hs Hl].
  { unfold StorageCleanup.extensions in Hext.
    repeat (apply elem_of_cons in Hext as [->|Hext]; [split; [reflexivity|simpl; lia]|]).
    by apply not_elem_of_nil in Hext. }
  split; [by rewrite hasChar_app, Hid, Hs|].
  assert (4 ≤ String.length (id +:+ ext))%nat as Hlen by (rewrite length_app_string; lia).
  split_and!; intros Heq; rewrite Heq in Hlen; simpl in Hlen; lia.
Qed.

Lemma plain_spec id :
  Path.plain id = true →
  id ≠ "" ∧ id ≠ "." ∧ id ≠ ".." ∧ Path.hasChar "/" id = false ∧ Path.hasNul id = false.
Proof.
  unfold Path.plain. rewrite !andb_true_iff, !negb_true_iff, !bool_decide_eq_false.
  tauto.
Qed.

(** For an id that is one name the path of [cleanupTranscodedFiles] is
    the entry [id] of [transcoded/]. *)
Lemma cleanupTranscodedFiles_plain now root id d :
  Path.plain id = true →
  ∃ b d', StorageCleanup.cleanupTranscodedFiles now root id d = Some (b, d')
          ∧ Disk.chunks d' = Disk.chunks d
          ∧ Disk.uploads d' = Disk.uploads d
          ∧ Disk.transcoded d' = delete id (Disk.transcoded d).
Proof.
  intros (H1 & H2 & H3 & Hs & Hn)%plain_spec.
  unfold StorageCleanup.cleanupTranscodedFiles, Disk.rm. rewrite Hn.
  rewrite join_name by done. unfold Disk.locate.
  rewrite <- (assoc_L (++)). rewrite below_app. simpl.
  destruct (Disk.transcoded d !! id) as [dirs|] eqn:Ht; simpl.
  - rewrite andb_false_r. by eexists _, _.
  - eexists _, _. split; [done|]. by rewrite delete_id.
Qed.

(** And the paths of [cleanupUploadFile] are the names [<id><ext>] of
    [uploads/]: the first that exists is removed, nothing else is. *)
Lemma cleanupUploadFile_loop_spec now root exts id d :
  exts ⊆ StorageCleanup.extensions →
  Path.hasChar "/" id = false → Path.hasNul id = false →
  let found := filter (λ p, p ∈ Disk.uploads d) (map (λ ext, id +:+ ext) exts) in
  ∃ b d', StorageCleanup.cleanupUploadFile_loop now root exts id d = Some (b, d')
          ∧ Disk.chunks d' = Disk.chunks d ∧ Disk.transcoded d' = Disk.transcoded d
          ∧ Disk.uploads d' = match head found with
                              | Some p => Disk.uploads d ∖ {[p]}
                              | None => Disk.uploads d
                              end.
Proof.
  intros Hexts Hs Hn. induction exts as [|ext exts IH]; simpl; [by eexists _, _|].
  assert (ext ∈ StorageCleanup.extensions) as Hext by (apply Hexts; left).
  assert (exts ⊆ StorageCleanup.extensions) as Hexts'.
  { intros x Hx. apply Hexts. by right. }
  destruct (upload_name id ext Hext Hs) as (Hs' & H1 & H2 & H3).
  assert (Path.hasNul (id +:+ ext) = false) as ->.
  { unfold Path.hasNul in *. rewrite hasChar_app, Hn. simpl.
    unfold StorageCleanup.extensions in Hext.
    repeat (apply elem_of_cons in Hext as [->|Hext]; [reflexivity|]).
    by apply not_elem_of_nil in Hext. }
  unfold Disk.unlink. rewrite join_name by done. unfold Disk.locate.
  rewrite <- (assoc_L (++)). rewrite below_app. simpl.
  destruct (decide (id +:+ ext ∈ Disk.uploads d)) as [Hin|Hnin].
  - rewrite bool_decide_eq_true_2 by done. simpl.
    rewrite filter_cons_True by done. simpl. by eexists _, _.
  - rewrite bool_decide_eq_false_2 by done.
    rewrite filter_cons_False by done. by apply IH.
Qed.

(** The disk a DELETE leaves, for an id that is one path component. *)
Lemma deleteVideo_disk now1 now2 root id st d :
  Path.plain id = true →
  ∃ d', (Routes.deleteVideo now1 now2 root id st d).2 = Some d'
        ∧ Disk.chunks d' = Disk.chunks d
        ∧ Disk.transcoded d' = delete id (Disk.transcoded d)
        ∧ Disk.uploads d' = match head (uploadsOf id d) with
                            | Some p => Disk.uploads d ∖ {[p]}
                            | None => Disk.uploads d
                            end.
Proof.
  intros Hplain.
  destruct (cleanupTranscodedFiles_plain now1 root id d Hplain)
    as (b1 & d1 & Hd1 & Hc1 & Hu1 & Ht1).
  apply plain_spec in Hplain as (_ & _ & _ & Hs & Hn).
  destruct (cleanupUploadFile_loop_spec now2 root StorageCleanup.extensions id d1)
    as (b2 & d2 & Hloop & Hc2 & Ht2 & Hu2); [done..|].
  rewrite Hu1 in Hu2. fold (uploadsOf id d) in Hu2.
  exists d2.
  assert ((Routes.deleteVideo now1 now2 root id st d).2 = Some d2) as ->.
  { unfold Routes.deleteVideo. rewrite Hd1.
    cbn -[StorageCleanup.cleanupUploadFile MemStorage.deleteVideo].
    unfold StorageCleanup.cleanupUploadFile. rewrite Hloop.
    by destruct (MemStorage.deleteVideo id st) as [[] ?]. }
  split_and!; [done|congruence|congruence|done].
Qed.

Lemma first_upload_removed (q : option string) (s : gset string) p :
  p ∈ s →
  p ∈ match q with Some x => s ∖ {[x]} | None => s end ↔ q ≠ Some p.
Proof.
  intros Hp. destruct q as [x|].
  - rewrite elem_of_difference, elem_of_singleton. split.
    + intros [_ Hne] [= ->]. done.
    + intros Hne. split; [done|]. intros ->. done.
  - split; [done|]. by intros _.
Qed.

(** C9, as the code has it. A DELETE of an id the state store does not
    hold is answered 404 and leaves the store as it is, and before that
    answer the two cleanups have run on the id. For an id that is one path
    component the directory [transcoded/<id>] is removed, and of the files
    [uploads/<id><ext>] the first that exists, in the order .mp4, .webm,
    .mov, .avi, .mkv, is removed and the other ones stay; nothing else on
    the disk changes. *)
Theorem delete_unknown_video_cleans_disk
    (now1 now2 : Z) (root : list string) (id : string) (st : MemStorage.t) (d : Disk.t) :
  MemStorage.videos st !! id = None →
  let r := (Routes.deleteVideo now1 now2 root id st d).1.1 in
  let st' := (Routes.deleteVideo now1 now2 root id st d).1.2 in
  let d' := (Routes.deleteVideo now1 now2 root id st d).2 in
  Response.status r = 404
  ∧ st' = st
  ∧ d' = (r1 ← StorageCleanup.cleanupTranscodedFiles now1 root id d;
          r2 ← StorageCleanup.cleanupUploadFile now2 root id r1.2;
          Some r2.2)
  ∧ (Path.plain id = true →
     ∃ d1, d' = Some d1
           ∧ Disk.chunks d1 = Disk.chunks d
           ∧ Disk.transcoded d1 = delete id (Disk.transcoded d)
           ∧ Disk.transcoded d1 !! id = None
           ∧ Disk.uploads d1 ⊆ Disk.uploads d
           ∧ ∀ p, p ∈ Disk.uploads d →
                  (p ∈ Disk.uploads d1 ↔ head (uploadsOf id d) ≠ Some p)).
Proof.
  intros Hv r st' d'. subst r st' d'.
  split_and!.
  - unfold Routes.deleteVideo. simpl.
    by rewrite bool_decide_eq_false_2 by (rewrite Hv; by intros [? ?]).
  - unfold Routes.deleteVideo. simpl.
    rewrite bool_decide_eq_false_2 by (rewrite Hv; by intros [? ?]). simpl.
    destruct st as [vs ss js]. unfold MemStorage.set_videos. simpl in *.
    by rewrite delete_id.
  - unfold Routes.deleteVideo. simpl.
    by rewrite bool_decide_eq_false_2 by (rewrite Hv; by intros [? ?]).
  - intros Hplain.
    destruct (deleteVideo_disk now1 now2 root id st d Hplain)
      as (d1 & Hd1 & Hc & Ht & Hu).
    exists d1. split_and!; try done.
    + by rewrite Ht, lookup_delete_eq.
    + rewrite Hu. destruct (head (uploadsOf id d)); [|done].
      by apply subseteq_difference_l.
    + intros p Hp. rewrite Hu. by apply first_upload_removed.
Qed.

Lemma delete_unknown_video_cleans_disk_witness :
  Response.status (Routes.deleteVideo 1 2 demoRoot "gone" (demoStore []) twoSourcesDisk).1.1
  = 404
  ∧ ∃ d1, (Routes.deleteVideo 1 2 demoRoot "gone" (demoStore []) twoSourcesDisk).2 = Some d1
          ∧ Disk.transcoded d1 !! "gone" = None
          ∧ ("gone.mp4" ∉ Disk.uploads d1)
          ∧ "gone.webm" ∈ Disk.uploads d1
          ∧ "kept.mp4" ∈ Disk.uploads d1.
Proof.
  destruct (delete_unknown_video_cleans_disk 1 2 demoRoot "gone" (demoStore [])
              twoSourcesDisk eq_refl) as (Hr & _ & _ & Hplain).
  split; [exact Hr|].
  destruct (Hplain eq_refl) as (d1 & Hd1 & _ & _ & Ht & _ & Hu).
  exists d1. split; [exact Hd1|]. split; [exact Ht|].
  assert (head (uploadsOf "gone" twoSourcesDisk) = Some "gone.mp4") as Hhead
    by (vm_compute; reflexivity).
  rewrite Hhead in Hu.
  split_and!.
  - intros Hin. apply (Hu "gone.mp4") in Hin; [by apply Hin|].
    vm_compute. tauto.
  - apply Hu; [vm_compute; tauto|]. discriminate.
  - apply Hu; [vm_compute; tauto|]. discriminate.
Defined.

(** With [gone.mp4] and [gone.webm] on the disk the loop returns after
    the first, and [gone.webm] is still there when the 404 is sent. *)
Lemma delete_stops_at_the_first_extension :
  ¬ deletesAllOfUnknown 1 2 demoRoot "gone" (demoStore []) twoSourcesDisk.
Proof.
  intros (_ & _ & d' & Hd' & _ & Hall).
  assert ((Routes.deleteVideo 1 2 demoRoot "gone" (demoStore []) twoSourcesDisk).2
          = Some (Disk.mk (Disk.chunks twoSourcesDisk) {["gone.webm"; "kept.mp4"]}
                    {["kept" := {["360p"; "720p"]}]})) as Heq
    by (vm_compute; reflexivity).
  rewrite Heq in Hd'. injection Hd' as <-.
  apply (Hall ".webm"); [|simpl; set_solver].
  unfold StorageCleanup.extensions. set_solver.
Qed.

(** The id is handed to [path.join] as it comes: an id with separators
    or dot components names another place, and the removal happens there.
    [..] is the storage directory itself, [../uploads/kept.mp4] the source
    of another video, [kept/] the tree of a video, [kept/360p] one of its
    sub-directories, and [../..] a directory above the storage. *)
Example delete_resolves_the_id :
  (Routes.deleteVideo 1 2 demoRoot ".." (demoStore []) twoSourcesDisk).2
  = Some (Disk.mk ∅ ∅ ∅)
  ∧ (Disk.uploads <$> (Routes.deleteVideo 1 2 demoRoot "../uploads/kept.mp4" (demoStore [])
                         twoSourcesDisk).2)
    = Some {["gone.mp4"; "gone.webm"]}
  ∧ (Disk.transcoded <$> (Routes.deleteVideo 1 2 demoRoot "kept/" (demoStore [])
                            twoSourcesDisk).2)
    = Some {["gone" := {["360p"]}]}
  ∧ (Disk.transcoded <$> (Routes.deleteVideo 1 2 demoRoot "kept/360p" (demoStore [])
                            twoSourcesDisk).2)
    = Some {["gone" := {["360p"]}; "kept" := {["720p"]}]}
  ∧ (Disk.chunks <$> (Routes.deleteVideo 1 2 demoRoot "../chunks/s1/chunk_0" (demoStore [])
                        twoSourcesDisk).2)
    = Some {["s1" := Disk.Dir (Some 1) ∅]}
  ∧ (Routes.deleteVideo 1 2 demoRoot "../.." (demoStore []) twoSourcesDisk).2 = None.
Proof. split_and!; by vm_compute. Qed.

(** ** Storage GC *)

Lemma deletedBy_removes active expiry now d name :
  deletedBy active expiry now d name ↔
  ∃ e, Disk.chunks d !! name = Some e
       ∧ StorageCleanup.removes active expiry now name e = true.
Proof.
  unfold deletedBy, StorageCleanup.cleanupOrphanedSessions. simpl.
  rewrite map_lookup_filter_None. split.
  - intros [[e He] [Hnone|Hall]]; [congruence|].
    exists e. split; [done|].
    specialize (Hall e He). simpl in Hall.
    destruct (StorageCleanup.removes active expiry now name e); [done|].
    by destruct Hall.
  - intros (e & He & Hrm). split; [by exists e|]. right.
    intros e' He'. simplify_eq. simpl. by intros Hne.
Qed.

Lemma shouldClean_true active expiry now name mtimeMs :
  StorageCleanup.shouldClean active expiry now name mtimeMs = true ↔
  (∃ expiresAt, expiryOf expiry name = Some expiresAt ∧ now > expiresAt)
  ∨ (expiryOf expiry name = None ∧ (name ∉ active)
     ∧ (mtimeMs = None
        ∨ ∃ m, mtimeMs = Some m ∧ now - m > StorageCleanup.ORPHAN_SESSION_MAX_AGE_MS)).
Proof.
  unfold StorageCleanup.shouldClean, expiryOf.
  destruct (expiry ≫= (λ m, m !! name)) as [e|].
  - rewrite bool_decide_eq_true. split.
    + intros Hgt. left. by exists e.
    + intros [(e' & [= <-] & Hgt)|(Hnone & _)]; [done|discriminate].
  - destruct (decide (name ∈ active)) as [Hin|Hnin].
    + rewrite bool_decide_eq_true_2 by done. split; [done|].
      intros [(e' & Hsome & _)|(_ & Hnin & _)]; [discriminate|done].
    + rewrite bool_decide_eq_false_2 by done. destruct mtimeMs as [m|].
      * rewrite bool_decide_eq_true. split.
        -- intros Hold. right. split_and!; [done..|]. right. by exists m.
        -- intros [(e' & Hsome & _)|(_ & _ & [Hnone|(m' & [= <-] & Hold)])];
             [discriminate|discriminate|done].
      * split; [|done]. intros _. right. split_and!; [done..|]. by left.
Qed.

Lemma gc_removes_exactly_aux
    (active : gset string) (expiry : option (gmap string Z)) (now : Z) (d : Disk.t)
    (name : string) :
  (deletedBy active expiry now d name ↔
   ∃ mtimeMs files,
     Disk.chunks d !! name = Some (Disk.Dir mtimeMs files)
     ∧ JS.startsWith name "temp_" = false
     ∧ ((∃ expiresAt, expiryOf expiry name = Some expiresAt ∧ now > expiresAt)
        ∨ (expiryOf expiry name = None ∧ (name ∉ active)
           ∧ (mtimeMs = None
              ∨ ∃ m, mtimeMs = Some m
                     ∧ now - m > StorageCleanup.ORPHAN_SESSION_MAX_AGE_MS))))
  ∧ (name ∈ active → deletedBy active expiry now d name →
     ∃ expiresAt, expiryOf expiry name = Some expiresAt ∧ now > expiresAt).
Proof.
  assert (deletedBy active expiry now d name ↔
          ∃ mtimeMs files,
            Disk.chunks d !! name = Some (Disk.Dir mtimeMs files)
            ∧ JS.startsWith name "temp_" = false
            ∧ StorageCleanup.shouldClean active expiry now name mtimeMs = true) as Hiff.
  { rewrite deletedBy_removes. split.
    - intros ([sz|m files] & He & Hrm); simpl in Hrm; [done|].
      apply andb_true_iff in Hrm as [Ht Hc]. apply negb_true_iff in Ht.
      by exists m, files.
    - intros (m & files & He & Ht & Hc). exists (Disk.Dir m files).
      split; [done|]. simpl. by rewrite Ht, Hc. }
  split.
  - rewrite Hiff. split; intros (m & files & He & Ht & Hc); exists m, files;
      (split_and!; [done..|]); by apply shouldClean_true.
  - intros Hin (m & files & _ & _ & Hc)%Hiff.
    apply shouldClean_true in Hc as [?|(_ & Hnin & _)]; done.
Qed.

(** C4, as the code has it. In every run of [cleanupOrphanedSessions] a
    directory of [chunks/] is removed exactly when it is a directory whose
    name does not start with [temp_] and either (a) the expiry map given
    to the run has an entry for the session and that time has passed,
    whether or not the session is in the Active set, or (b) the map has no
    entry for it, the session is not in the Active set, and the mtime of
    the directory is more than 30 minutes old or cannot be read.  Hence a
    directory of a session in the Active set is removed only under (a),
    and never in a run that is given no expiry map. *)
Theorem gc_removes_exactly
    (active : gset string) (expiry : option (gmap string Z)) (now : Z) (d : Disk.t)
    (name : string) :
  (deletedBy active expiry now d name ↔
   ∃ mtimeMs files,
     Disk.chunks d !! name = Some (Disk.Dir mtimeMs files)
     ∧ JS.startsWith name "temp_" = false
     ∧ ((∃ expiresAt, expiryOf expiry name = Some expiresAt ∧ now > expiresAt)
        ∨ (expiryOf expiry name = None ∧ (name ∉ active)
           ∧ (mtimeMs = None
              ∨ ∃ m, mtimeMs = Some m
                     ∧ now - m > StorageCleanup.ORPHAN_SESSION_MAX_AGE_MS))))
  ∧ (name ∈ active → deletedBy active expiry now d name →
     ∃ expiresAt, expiryOf expiry name = Some expiresAt ∧ now > expiresAt)
  ∧ (expiry = None → name ∈ active → ¬ deletedBy active expiry now d name).
Proof.
  destruct (gc_removes_exactly_aux active expiry now d name) as [Hiff Hact].
  split; [exact Hiff|]. split; [exact Hact|].
  intros -> Hin Hdel. by destruct (Hact Hin Hdel) as (e & He & _).
Qed.

Lemma gc_removes_exactly_witness :
  ¬ deletedBy {["s1"]} None 86400000 staleDisk "s1"
  ∧ deletedBy {["s1"]} None 86400000 staleDisk "s2".
Proof.
  split.
  - apply (gc_removes_exactly {["s1"]} None 86400000 staleDisk "s1");
      [reflexivity | by apply elem_of_singleton].
  - apply (gc_removes_exactly {["s1"]} None 86400000 staleDisk "s2").
    exists (Some 0), ∅. split; [reflexivity|]. split; [reflexivity|].
    right. split; [reflexivity|]. split.
    + intros Hin. apply elem_of_singleton in Hin. discriminate Hin.
    + right. exists 0. split; [reflexivity|]. unfold StorageCleanup.ORPHAN_SESSION_MAX_AGE_MS. lia.
Defined.

Lemma getSessionExpiryMap_dom sessions :
  dom (Routes.getSessionExpiryMap sessions) = Routes.getActiveSessionIds sessions.
Proof.
  unfold Routes.getSessionExpiryMap, Routes.getActiveSessionIds.
  assert (∀ m : gmap string Z,
            dom (foldl (λ m session,
                          <[UploadSession.id session := UploadSession.expiresAt session]> m)
                       m sessions)
            = list_to_set (UploadSession.id <$> sessions) ∪ dom m) as Hgen.
  { induction sessions as [|s sessions IH]; intros m; simpl.
    - by rewrite union_empty_l_L.
    - rewrite IH, dom_insert_L, (assoc_L (∪)). f_equal. apply (comm_L (∪)). }
  rewrite Hgen, dom_empty_L. by rewrite union_empty_r_L.
Qed.

(** In the periodic run every Active session has an entry in the expiry
    map, so its directory goes exactly when its expiry has passed. *)
Lemma periodic_run_on_active_session sessions now d name :
  name ∈ Routes.getActiveSessionIds sessions →
  (deletedBy (Routes.getActiveSessionIds sessions)
             (Some (Routes.getSessionExpiryMap sessions)) now d name
   ↔ (∃ mtimeMs files, Disk.chunks d !! name = Some (Disk.Dir mtimeMs files))
     ∧ JS.startsWith name "temp_" = false
     ∧ ∃ expiresAt, Routes.getSessionExpiryMap sessions !! name = Some expiresAt
                    ∧ now > expiresAt).
Proof.
  intros Hin.
  destruct (gc_removes_exactly_aux (Routes.getActiveSessionIds sessions)
              (Some (Routes.getSessionExpiryMap sessions)) now d name) as [Hiff Hact].
  split.
  - intros Hdel. destruct (proj1 Hiff Hdel) as (m & files & He & Ht & _).
    split; [by exists m, files|]. split; [done|]. by apply Hact.
  - intros ((m & files & He) & Ht & Hexp). apply Hiff. exists m, files.
    split; [done|]. split; [done|]. by left.
Qed.

(** The periodic run, a day after the session was opened: the session is
    in the Active set, its entry in the expiry map has passed, and its
    directory is removed. *)
Lemma gc_removes_expired_active_session :
  ¬ gcSparesActive (Routes.getActiveSessionIds [demoSession [0]])
                   (Some (Routes.getSessionExpiryMap [demoSession [0]]))
                   86400001 staleDisk.
Proof.
  intros H. destruct (H "s1") as [Hnin _].
  - split; [by eexists|]. by vm_compute.
  - apply Hnin. by vm_compute.
Qed.

(** ** The event bus *)

(** C8. Whatever the broker variables are, whether or not the
    constructor of the connection throws and however the promise of
    [publish] settles: [emitEvent] returns normally; it first calls every
    listener of ["video-event"], in registration order, with the event;
    the only other thing it does is one [publish] on the channel
    [video-events], and that only when a connection is available; the
    promise it leaves behind is never a rejected one; and the listeners
    stay registered. *)
Theorem emitEvent_local_delivery_regardless_of_broker
    (ctorThrows : bool) (publishOutcome : Queue.settled) (now : Z)
    (type : EventType.t) (videoId : string) (data : option VideoEvent.data) (b : Queue.Bus) :
  let event := VideoEvent.mk type videoId data now in
  let e := Queue.emitEvent ctorThrows publishOutcome now type videoId data b in
  Queue.result e = Queue.Returned
  ∧ (∃ rest, Queue.actions e
             = (map (λ l, Queue.Invoke l event) (Queue.listeners b) ++ rest)%list
             ∧ (rest = [] ∨ rest = [Queue.Publish "video-events" event])
             ∧ ((Queue.getRedisConnection ctorThrows (Queue.broker b)).1 = false → rest = []))
  ∧ (∀ reason, Queue.detached e ≠ Some (Queue.Rejected reason))
  ∧ Queue.listeners (Queue.bus e) = Queue.listeners b.
Proof.
  intros event e. subst event e. unfold Queue.emitEvent.
  destruct (Queue.getRedisConnection ctorThrows (Queue.broker b)) as [[|] br]; simpl.
  - split_and!; [done| |done..].
    exists [Queue.Publish "video-events" (VideoEvent.mk type videoId data now)].
    split; [done|]. split; [by right|done].
  - split_and!; [done| |done..].
    exists []. rewrite app_nil_r. split; [done|]. split; [by left|done].
Qed.

Lemma getRedisConnection_dev_mode ctorThrows b :
  Queue.DEV_MODE b = true → (Queue.getRedisConnection ctorThrows b).1 = false.
Proof. intros H. unfold Queue.getRedisConnection. by rewrite H. Qed.

Lemma getRedisConnection_unavailable ctorThrows b :
  Queue.redisAvailable b = false → (Queue.getRedisConnection ctorThrows b).1 = false.
Proof.
  intros H. unfold Queue.getRedisConnection. rewrite H.
  by destruct (Queue.DEV_MODE b), (Queue.redisCheckDone b), (Queue.connection b), ctorThrows.
Qed.

Example emit_without_broker :
  Queue.actions
    (Queue.emitEvent false (Queue.Rejected "ECONNREFUSED") 9 EventType.UPLOAD_COMPLETED "v1"
       None (Queue.mkBus ["websocket"] (Queue.mkBroker true false false true)))
  = [Queue.Invoke "websocket" (VideoEvent.mk EventType.UPLOAD_COMPLETED "v1" None 9)].
Proof. reflexivity. Qed.

(** ** The encoder driver *)

Lemma digit_facts c :
  JS.is_digit c = true →
  JS.is_ws c = false
  ∧ (∃ d, JS.digit_val 10 c = Some d ∧ 0 ≤ d)
  ∧ c ≠ "-"%char ∧ c ≠ "+"%char ∧ c ≠ "x"%char ∧ c ≠ "X"%char.
Proof.
  destruct c as [[] [] [] [] [] [] [] []]; vm_compute; intros Hd; try discriminate Hd.
  all: split; [reflexivity|].
  all: split; [eexists; split; [reflexivity|discriminate]|].
  all: repeat split; discriminate.
Qed.

Lemma digit_not_ws_lead c : JS.is_digit c = true → JS.ws_lead c = false.
Proof.
  destruct c as [[] [] [] [] [] [] [] []]; vm_compute; intros Hd; try discriminate Hd.
  all: reflexivity.
Qed.

Lemma parse_digits_digits s acc :
  all_digits s = true → 0 ≤ default 0 acc → s ≠ "" ∨ is_Some acc →
  ∃ n, JS.parse_digits 10 s acc = Some n ∧ 0 ≤ n.
Proof.
  revert acc. induction s as [|c s IH]; intros acc Hall Hacc Hne; simpl in *.
  - destruct Hne as [?|[n ->]]; [done|]. by exists n.
  - apply andb_true_iff in Hall as [Hc Hall].
    destruct (digit_facts c Hc) as (_ & (dv & -> & Hdv) & _).
    apply IH; [done| |by right]. simpl. lia.
Qed.

Lemma parseInt_digits s :
  all_digits s = true → s ≠ "" → ∃ n, JS.parseInt s = Some n ∧ 0 ≤ n.
Proof.
  intros Hall Hne. destruct s as [|c s]; [done|]. clear Hne.
  pose proof Hall as Hall'. simpl in Hall'. apply andb_true_iff in Hall' as [Hc Hs].
  destruct (digit_facts c Hc) as (Hws & _ & Hm & Hp & _).
  destruct (parse_digits_digits (String c s) None Hall) as (n & Hn & Hn0);
    [done|by left|].
  exists n. split; [|done].
  assert (JS.parseInt (String c s)
          = match JS.parse_digits 10 (String c s) None with
            | Some n => Some (1 * n)
            | None => None
            end) as ->.
  { unfold JS.parseInt. simpl JS.skip_ws. rewrite Hws, (digit_not_ws_lead c Hc).
    cbn [negb].
    destruct s as [|c2 s].
    - destruct c as [[] [] [] [] [] [] [] []]; try done.
    - simpl in Hs. apply andb_true_iff in Hs as [Hc2 _].
      destruct (digit_facts c2 Hc2) as (_ & _ & _ & _ & Hx & HX).
      destruct c as [[] [] [] [] [] [] [] []]; try done.
      destruct c2 as [[] [] [] [] [] [] [] []]; try done. }
  rewrite Hn. f_equal. lia.
Qed.

Lemma take_digits_all_digits s : all_digits (JS.take_digits s) = true.
Proof.
  induction s as [|c s IH]; simpl; [done|].
  destruct (JS.is_digit c) eqn:Hc; simpl; [|done]. by rewrite Hc.
Qed.

Lemma matchOutTime_digits output digits :
  Queue.matchOutTime output = Some digits → all_digits digits = true ∧ digits ≠ "".
Proof.
  induction output as [|c output IH]; simpl.
  - unfold Queue.outTimeHere. simpl. done.
  - destruct (Queue.outTimeHere (String c output)) as [m|] eqn:Hm; [|exact IH].
    intros [= <-]. unfold Queue.outTimeHere in Hm.
    destruct (JS.strip_prefix "out_time_ms=" (String c output)) as [rest|]; [|done].
    simpl in Hm. pose proof (take_digits_all_digits rest) as Hd.
    destruct (JS.take_digits rest); [done|]. by injection Hm as <-.
Qed.

Lemma percentOf_le_99 currentTime duration : (Queue.percentOf currentTime duration <= 99)%Q.
Proof. unfold Queue.percentOf. apply Q.le_min_r. Qed.

Lemma percentOf_not_100 currentTime duration :
  Qeq_bool (Queue.percentOf currentTime duration) 100 = false.
Proof.
  destruct (Qeq_bool _ _) eqn:H; [|done].
  apply Qeq_bool_eq in H. pose proof (percentOf_le_99 currentTime duration) as Hle.
  rewrite H in Hle. by vm_compute in Hle.
Qed.



Example progress_line_quarter :
  (Queue.transcodeVideoFile_onEvent "out" Resolution.R360P
     (Queue.Stdout "frame=10 out_time_ms=25000000 speed=2x") (Queue.mkDriver 100 0%Q None)).1
  = [Qmin (((inject_Z 25000000 / 1000000) / inject_Z 100) * 100) 99].
Proof. reflexivity. Qed.

Example progress_line_capped :
  Forall2 Qeq
    (Queue.transcodeVideoFile_onEvent "out" Resolution.R360P
       (Queue.Stdout "out_time_ms=100000000") (Queue.mkDriver 100 0%Q None)).1
    [99%Q].
Proof. by repeat constructor. Qed.

Example progress_line_without_duration :
  (Queue.transcodeVideoFile_onEvent "out" Resolution.R360P
     (Queue.Stdout "out_time_ms=25000000") Queue.spawned).1 = [].
Proof. reflexivity. Qed.

Example duration_banner :
  Queue.duration
    (Queue.transcodeVideoFile_onEvent "out" Resolution.R360P
       (Queue.Stderr "  Duration: 00:01:40.50, start: 0.000000") Queue.spawned).2 = 100.
Proof. reflexivity. Qed.

Example nonzero_exit_rejects :
  Queue.promise
    (Queue.transcodeVideoFile_onEvent "out" Resolution.R360P (Queue.Close (Some 1))
       Queue.spawned).2
  = Some (Queue.Failed "FFmpeg exited with code 1").
Proof. reflexivity. Qed.

(** ** The three transcodes of a video *)

Lemma ResRecord_get_set_eq {A} (o : ResRecord.t A) r x :
  ResRecord.get (ResRecord.set o r x) r = Some x.
Proof. by destruct r. Qed.

Lemma ResRecord_get_set_ne {A} (o : ResRecord.t A) r r' x :
  r ≠ r' → ResRecord.get (ResRecord.set o r x) r' = ResRecord.get o r'.
Proof. by destruct r, r'. Qed.

Lemma updateVideo_videos id u st :
  MemStorage.videos (MemStorage.updateVideo id u st).2 !! id
  = (λ v, Video.spread v u) <$> MemStorage.videos st !! id.
Proof.
  unfold MemStorage.updateVideo.
  destruct (MemStorage.videos st !! id) as [v|] eqn:Hv; simpl.
  - by rewrite lookup_insert_eq.
  - by rewrite Hv.
Qed.

Lemma updateVideo_jobs id u st :
  MemStorage.transcodingJobs (MemStorage.updateVideo id u st).2 = MemStorage.transcodingJobs st.
Proof. unfold MemStorage.updateVideo. by destruct (MemStorage.videos st !! id). Qed.

Lemma updateTranscodingJob_videos id u st :
  MemStorage.videos (MemStorage.updateTranscodingJob id u st).2 = MemStorage.videos st.
Proof. unfold MemStorage.updateTranscodingJob. by destruct (MemStorage.transcodingJobs st !! id). Qed.

Lemma jobStatusOf_updateVideo id u st jid :
  jobStatusOf (MemStorage.updateVideo id u st).2 jid = jobStatusOf st jid.
Proof. unfold jobStatusOf. by rewrite updateVideo_jobs. Qed.

Lemma jobStatusOf_update_eq id u st :
  jobStatusOf (MemStorage.updateTranscodingJob id u st).2 id
  = (λ old, default old (TranscodingJob.p_status u)) <$> jobStatusOf st id.
Proof.
  unfold jobStatusOf, MemStorage.updateTranscodingJob.
  destruct (MemStorage.transcodingJobs st !! id) as [j|] eqn:Hj; simpl.
  - by rewrite lookup_insert_eq.
  - by rewrite Hj.
Qed.

Lemma jobStatusOf_update_ne id id' u st :
  id ≠ id' →
  jobStatusOf (MemStorage.updateTranscodingJob id u st).2 id' = jobStatusOf st id'.
Proof.
  intros Hne. unfold jobStatusOf, MemStorage.updateTranscodingJob.
  destruct (MemStorage.transcodingJobs st !! id) as [j|] eqn:Hj; simpl; [|done].
  by rewrite lookup_insert_ne.
Qed.

Lemma onEvent_cases playlist e d :
  Queue.promise d = None →
  (Queue.promise (Queue.onEvent playlist e d).2 = None
   ∧ ((Queue.onEvent playlist e d).1 = []
      ∨ ∃ currentTime duration,
          (Queue.onEvent playlist e d).1 = [Queue.percentOf currentTime duration]))
  ∨ (Queue.promise (Queue.onEvent playlist e d).2 = Some (Queue.Resolved playlist)
     ∧ (Queue.onEvent playlist e d).1 = [100%Q])
  ∨ (∃ message, Queue.promise (Queue.onEvent playlist e d).2 = Some (Queue.Failed message)
                ∧ (Queue.onEvent playlist e d).1 = []).
Proof.
  intros Hp. destruct e as [output|output|code|message]; simpl.
  - left. destruct (Queue.matchDuration output) as [[[h m] sec]|]; simpl; split; auto.
  - left. destruct (Queue.matchOutTime output) as [digits|]; simpl; [|by auto].
    destruct (bool_decide (Queue.duration d > 0)); simpl; [|by auto].
    destruct (JS.parseInt digits) as [us|]; simpl; [|by auto].
    split; [done|]. right. by eexists _, _.
  - destruct (bool_decide (code = Some 0)); simpl; unfold Queue.settle; rewrite Hp; simpl.
    + right. by left.
    + right. right. by eexists.
  - unfold Queue.settle. rewrite Hp. simpl. right. right. by eexists.
Qed.

Section Flows.
Context (jd : Sim.JobData).
Hypothesis distinct : ∀ r r', Sim.jobId jd r = Sim.jobId jd r' → r = r'.

Lemma jobOf_update_job s r u r' :
  jobOf jd (Sim.set_store s (MemStorage.updateTranscodingJob (Sim.jobId jd r) u (Sim.store s)).2) r'
  = if decide (r = r')
    then (λ old, default old (TranscodingJob.p_status u)) <$> jobOf jd s r'
    else jobOf jd s r'.
Proof.
  unfold jobOf. simpl. destruct (decide (r = r')) as [->|Hne].
  - apply jobStatusOf_update_eq.
  - apply jobStatusOf_update_ne. intros Heq. by apply Hne, distinct.
Qed.

(** The callback leaves the points of the flows, their drivers, the job
    statuses, the video status and the URLs alone; it may write [p] at
    [r] in the percentages. *)
Lemma progressCallback_views now r p s v :
  videoOf jd s = Some v →
  let s' := Sim.progressCallback jd now r p s in
  (∀ r', pcOf s' r' = pcOf s r')
  ∧ (∀ r', Sim.driver (Sim.flows s' r') = Sim.driver (Sim.flows s r'))
  ∧ (∀ r', jobOf jd s' r' = jobOf jd s r')
  ∧ ∃ v', videoOf jd s' = Some v'
          ∧ Video.status v' = Video.status v
          ∧ Video.hlsUrls v' = Video.hlsUrls v
          ∧ (∀ r', r' ≠ r → full v' r' = full v r')
          ∧ (full v' r = full v r ∨ full v' r = Qeq_bool p 100).
Proof.
  intros Hv s'. subst s'. unfold Sim.progressCallback.
  destruct (Qle_bool 5 (p - Sim.lastProgress (Sim.flows s r)) || Qeq_bool p 100); cycle 1.
  { split_and!; [done..|]. exists v. split_and!; [done..|by left]. }
  unfold videoOf in Hv. unfold MemStorage.getVideo. simpl. rewrite Hv.
  split_and!.
  - intros r'. unfold pcOf. simpl. by destruct (decide (r' = r)) as [->|].
  - intros r'. simpl. by destruct (decide (r' = r)) as [->|].
  - intros r'. unfold jobOf. simpl.
    destruct (decide (Sim.jobId jd r = Sim.jobId jd r')) as [Heq|Hne].
    + rewrite <- Heq, jobStatusOf_update_eq, jobStatusOf_updateVideo. simpl.
      by destruct (jobStatusOf (Sim.store s) (Sim.jobId jd r)).
    + by rewrite jobStatusOf_update_ne, jobStatusOf_updateVideo.
  - unfold videoOf. simpl. rewrite updateTranscodingJob_videos, updateVideo_videos, Hv.
    simpl. eexists. split; [done|]. simpl. split_and!; [done..| |].
    + intros r' Hne. unfold full, Sim.at100. simpl.
      by rewrite ResRecord_get_set_ne.
    + right. unfold full, Sim.at100. simpl. by rewrite ResRecord_get_set_eq.
Qed.

Lemma coherent_frame s s' r v v' :
  coherent jd s →
  videoOf jd s = Some v → videoOf jd s' = Some v' →
  Video.hlsUrls v' = Video.hlsUrls v →
  (∀ r', full v' r' = full v r') →
  (∀ r', r' ≠ r → pcOf s' r' = pcOf s r') →
  pcOf s r ≠ Sim.PcDone → pcOf s r ≠ Sim.PcFailed → pcOf s' r ≠ Sim.PcDone →
  (Video.status v' = Video.status v
   ∨ Video.status v' = VideoStatus.TRANSCODING
   ∨ (Video.status v' = VideoStatus.FAILED ∧ pcOf s' r = Sim.PcFailed)) →
  (∀ r', jobOf jd s' r' = Some (statusAt (pcOf s' r'))) →
  (∀ r', settledAt (pcOf s' r') = false →
         Queue.promise (Sim.driver (Sim.flows s' r')) = None) →
  coherent jd s'.
Proof.
  intros Hc Hv Hv' Hhls Hfull Hpc Hnd Hnf Hnd' Hst Hjobs Hpend.
  assert (∀ r0, pcOf s' r0 = Sim.PcDone ↔ pcOf s r0 = Sim.PcDone) as Hdone.
  { intros r0. destruct (decide (r0 = r)) as [->|Hne]; [done|]. by rewrite Hpc. }
  constructor.
  - by rewrite Hv'.
  - done.
  - done.
  - intros v0 r0 Hv0. rewrite Hv' in Hv0. injection Hv0 as <-.
    rewrite Hdone, <- (coh_hls jd s Hc v r0 Hv). unfold hlsUrlPresent. by rewrite Hhls.
  - intros v0 r0 Hv0. rewrite Hv' in Hv0. injection Hv0 as <-.
    by rewrite Hdone, <- (coh_full jd s Hc v r0 Hv), Hfull.
  - intros v0 Hv0. rewrite Hv' in Hv0. injection Hv0 as <-. split.
    + intros Hcomp. exfalso. destruct Hst as [Hs|[Hs|[Hs _]]].
      * rewrite Hs in Hcomp. by apply Hnd, (coh_completed jd s Hc v Hv).
      * by rewrite Hs in Hcomp.
      * by rewrite Hs in Hcomp.
    + intros Hall. by destruct (Hnd' (Hall r)).
  - intros v0 Hv0 Hfail. rewrite Hv' in Hv0. injection Hv0 as <-.
    destruct Hst as [Hs|[Hs|[_ Hs]]].
    + rewrite Hs in Hfail. destruct (coh_failed jd s Hc v Hv Hfail) as [r0 Hr0].
      exists r0. destruct (decide (r0 = r)) as [->|Hne]; [done|]. by rewrite Hpc.
    + by rewrite Hs in Hfail.
    + by exists r.
Qed.

Lemma coherent_local s s' r v v' :
  coherent jd s →
  videoOf jd s = Some v → videoOf jd s' = Some v' →
  Video.hlsUrls v' = Video.hlsUrls v →
  (∀ r', full v' r' = full v r') →
  (∀ r', r' ≠ r →
         pcOf s' r' = pcOf s r'
         ∧ Sim.driver (Sim.flows s' r') = Sim.driver (Sim.flows s r')
         ∧ jobOf jd s' r' = jobOf jd s r') →
  pcOf s r ≠ Sim.PcDone → pcOf s r ≠ Sim.PcFailed → pcOf s' r ≠ Sim.PcDone →
  (Video.status v' = Video.status v
   ∨ Video.status v' = VideoStatus.TRANSCODING
   ∨ (Video.status v' = VideoStatus.FAILED ∧ pcOf s' r = Sim.PcFailed)) →
  jobOf jd s' r = Some (statusAt (pcOf s' r)) →
  (settledAt (pcOf s' r) = false → Queue.promise (Sim.driver (Sim.flows s' r)) = None) →
  coherent jd s'.
Proof.
  intros Hc Hv Hv' Hhls Hfull Hoth Hnd Hnf Hnd' Hst Hjob Hpend.
  eapply (coherent_frame s s' r v v'); try done.
  - intros r' Hne. by apply Hoth.
  - intros r'. destruct (decide (r' = r)) as [->|Hne]; [done|].
    destruct (Hoth r' Hne) as (-> & _ & ->). apply (coh_jobs jd s Hc).
  - intros r'. destruct (decide (r' = r)) as [->|Hne]; [done|].
    destruct (Hoth r' Hne) as (-> & -> & _). apply (coh_pending jd s Hc).
Qed.

(** Resolving: the job is completed, the URL and 100 are written at [r],
    and the video is COMPLETED exactly when all three percentages are
    100. *)
Lemma coherent_resolved now s s1 r v v1 :
  coherent jd s →
  videoOf jd s = Some v → videoOf jd s1 = Some v1 →
  Video.hlsUrls v1 = Video.hlsUrls v →
  (∀ r', r' ≠ r → full v1 r' = full v r') →
  (∀ r', r' ≠ r →
         pcOf s1 r' = pcOf s r'
         ∧ Sim.driver (Sim.flows s1 r') = Sim.driver (Sim.flows s r')
         ∧ jobOf jd s1 r' = jobOf jd s r') →
  pcOf s r = Sim.PcEncoding →
  is_Some (jobOf jd s1 r) →
  coherent jd (Sim.onResolved jd now r s1).
Proof.
  intros Hc Hv Hv1 Hhls Hfull Hoth Hpc [js Hjs].
  set (s' := Sim.onResolved jd now r s1).
  set (tp2 := ResRecord.set (default ResRecord.empty (Video.transcodingProgress v1)) r 100%Q).
  set (hls2 := ResRecord.set (default ResRecord.empty (Video.hlsUrls v1)) r (Sim.hlsUrlOf jd r)).
  set (U := Video.mkPartial
              (Some (if forallb (Sim.at100 tp2) Resolution.all
                     then VideoStatus.COMPLETED else VideoStatus.TRANSCODING))
              None (Some (Some tp2)) (Some (Some hls2)) None
              (Some (if forallb (Sim.at100 tp2) Resolution.all then Some now else None))).
  set (Uj := TranscodingJob.mkPartial (Some JobStatus.completed) (Some 100%Q)
               (Some (Sim.hlsUrlOf jd r)) None (Some now)).
  set (v2 := Video.spread v1 U).
  assert (Sim.store s'
          = (MemStorage.updateVideo (Sim.videoId jd) U
               (MemStorage.updateTranscodingJob (Sim.jobId jd r) Uj (Sim.store s1)).2).2)
    as Hstore.
  { subst s'. unfold Sim.onResolved, MemStorage.getVideo. simpl.
    fold Uj. rewrite updateTranscodingJob_videos.
    unfold videoOf in Hv1. by rewrite Hv1. }
  assert (videoOf jd s' = Some v2) as Hv2.
  { unfold videoOf. rewrite Hstore, updateVideo_videos, updateTranscodingJob_videos.
    unfold videoOf in Hv1. by rewrite Hv1. }
  assert (pcOf s' r = Sim.PcDone) as Hpc'.
  { subst s'. unfold pcOf, Sim.onResolved. simpl. by rewrite decide_True. }
  assert (∀ r', r' ≠ r → pcOf s' r' = pcOf s r'
                         ∧ Sim.driver (Sim.flows s' r') = Sim.driver (Sim.flows s r')
                         ∧ jobOf jd s' r' = jobOf jd s r') as Hoth'.
  { intros r' Hne. destruct (Hoth r' Hne) as (Hp & Hd & Hj). split_and!.
    - rewrite <- Hp. subst s'. unfold pcOf, Sim.onResolved. simpl.
      by rewrite decide_False.
    - rewrite <- Hd. subst s'. unfold Sim.onResolved. simpl. by rewrite decide_False.
    - rewrite <- Hj. unfold jobOf. rewrite Hstore, jobStatusOf_updateVideo.
      apply jobStatusOf_update_ne. intros Heq. apply Hne. symmetry. by apply distinct. }
  assert (jobOf jd s' r = Some JobStatus.completed) as Hjob'.
  { unfold jobOf in *. by rewrite Hstore, jobStatusOf_updateVideo, jobStatusOf_update_eq, Hjs. }
  assert (∀ r0, full v2 r0 = true ↔ pcOf s' r0 = Sim.PcDone) as Hfull2.
  { intros r0. destruct (decide (r0 = r)) as [->|Hne].
    - rewrite Hpc'. unfold full, Sim.at100. simpl. subst tp2.
      by rewrite ResRecord_get_set_eq.
    - destruct (Hoth' r0 Hne) as (-> & _).
      rewrite <- (coh_full jd s Hc v r0 Hv), <- Hfull by done.
      unfold full, Sim.at100. simpl. subst tp2.
      by rewrite ResRecord_get_set_ne. }
  constructor.
  - by rewrite Hv2.
  - intros r0. destruct (decide (r0 = r)) as [->|Hne].
    + by rewrite Hjob', Hpc'.
    + destruct (Hoth' r0 Hne) as (-> & _ & ->). apply (coh_jobs jd s Hc).
  - intros r0. destruct (decide (r0 = r)) as [->|Hne].
    + by rewrite Hpc'.
    + destruct (Hoth' r0 Hne) as (-> & -> & _). apply (coh_pending jd s Hc).
  - intros v0 r0 Hv0. rewrite Hv2 in Hv0. injection Hv0 as <-.
    destruct (decide (r0 = r)) as [->|Hne].
    + rewrite Hpc'. unfold hlsUrlPresent. simpl. subst hls2.
      rewrite ResRecord_get_set_eq. split; [done|]. by eexists.
    + destruct (Hoth' r0 Hne) as (-> & _).
      rewrite <- (coh_hls jd s Hc v r0 Hv). unfold hlsUrlPresent. simpl. subst hls2.
      rewrite ResRecord_get_set_ne, <- Hhls by done.
      destruct (Video.hlsUrls v1); simpl; [done|]. by destruct r0.
  - intros v0 r0 Hv0. rewrite Hv2 in Hv0. injection Hv0 as <-. apply Hfull2.
  - intros v0 Hv0. rewrite Hv2 in Hv0. injection Hv0 as <-.
    assert (forallb (Sim.at100 tp2) Resolution.all = true ↔ ∀ r0, full v2 r0 = true) as Hall.
    { unfold Resolution.all. simpl. rewrite !andb_true_iff. split.
      - intros (H1 & H2 & H3 & _) r0. by destruct r0.
      - intros Hr. split_and!; [apply (Hr Resolution.R360P) | apply (Hr Resolution.R720P)
                                | apply (Hr Resolution.R1080P) | done]. }
    subst v2 U. destruct (forallb (Sim.at100 tp2) Resolution.all) eqn:Hb; simpl.
    + split; [|done]. intros _ r0. apply Hfull2. by apply Hall.
    + split; [done|]. intros Hd. exfalso.
      assert (false = true) as Habs; [|discriminate Habs].
      apply Hall. intros r0. by apply Hfull2.
  - intros v0 Hv0 Hfail. rewrite Hv2 in Hv0. injection Hv0 as <-.
    subst v2 U. by destruct (forallb (Sim.at100 tp2) Resolution.all).
Qed.

Ltac flow_simpl :=
  unfold pcOf, jobOf, videoOf in *; simpl;
  repeat first [ rewrite decide_True by done | rewrite decide_False by done ].

Lemma not_full_while_running s r v :
  coherent jd s → videoOf jd s = Some v → pcOf s r ≠ Sim.PcDone → full v r = false.
Proof.
  intros Hc Hv Hpc. destruct (full v r) eqn:Hf; [|done].
  by apply (coh_full jd s Hc v r Hv) in Hf.
Qed.

(** Every transition keeps the video and its jobs coherent. *)
Lemma step_coherent now l s s' :
  coherent jd s → Sim.step jd now l s = Some s' → coherent jd s'.
Proof.
  intros Hc Hstep. destruct (coh_video jd s Hc) as [v Hv].
  pose proof (coh_jobs jd s Hc) as Hjobs.
  pose proof (coh_pending jd s Hc) as Hpend.
  assert (∀ r r' u, r' ≠ r →
            jobStatusOf (MemStorage.updateTranscodingJob (Sim.jobId jd r) u (Sim.store s)).2
                        (Sim.jobId jd r')
            = jobStatusOf (Sim.store s) (Sim.jobId jd r')) as Hjne.
  { intros r r' u Hne. apply jobStatusOf_update_ne.
    intros Heq. apply Hne. symmetry. by apply distinct. }
  destruct l as [r|r|r|r hasFfmpeg|r e|r]; simpl in Hstep;
    destruct (Sim.pc (Sim.flows s r)) as [| | | | |em ee| |] eqn:Hpc; try discriminate Hstep.
  - (* Begin *)
    injection Hstep as <-.
    refine (coherent_local s _ r v
              (Video.spread v
                 (Video.mkPartial (Some VideoStatus.TRANSCODING) None None None None None))
              Hc Hv _ _ _ _ _ _ _ _ _ _).
    + flow_simpl. by rewrite updateVideo_videos, Hv.
    + done.
    + done.
    + intros r' Hne. flow_simpl. by rewrite jobStatusOf_updateVideo.
    + flow_simpl. by rewrite Hpc.
    + flow_simpl. by rewrite Hpc.
    + by flow_simpl.
    + right. by left.
    + flow_simpl. rewrite jobStatusOf_updateVideo, (Hjobs r). by rewrite Hpc.
    + flow_simpl. intros _. apply Hpend. by rewrite Hpc.
  - (* MarkProcessing *)
    injection Hstep as <-.
    refine (coherent_local s _ r v v Hc Hv _ _ _ _ _ _ _ _ _ _).
    + flow_simpl. by rewrite updateTranscodingJob_videos.
    + done.
    + done.
    + intros r' Hne. flow_simpl. split_and!; [done..|]. by apply Hjne.
    + flow_simpl. by rewrite Hpc.
    + flow_simpl. by rewrite Hpc.
    + by flow_simpl.
    + by left.
    + flow_simpl. rewrite jobStatusOf_update_eq, (Hjobs r). by rewrite Hpc.
    + flow_simpl. intros _. apply Hpend. by rewrite Hpc.
  - (* Announce *)
    injection Hstep as <-.
    refine (coherent_local s _ r v v Hc Hv _ _ _ _ _ _ _ _ _ _).
    + by flow_simpl.
    + done.
    + done.
    + intros r' Hne. by flow_simpl.
    + flow_simpl. by rewrite Hpc.
    + flow_simpl. by rewrite Hpc.
    + by flow_simpl.
    + by left.
    + flow_simpl. rewrite (Hjobs r). by rewrite Hpc.
    + flow_simpl. intros _. apply Hpend. by rewrite Hpc.
  - (* Checked *)
    destruct hasFfmpeg; injection Hstep as <-.
    + refine (coherent_local s _ r v v Hc Hv _ _ _ _ _ _ _ _ _ _).
      * by flow_simpl.
      * done.
      * done.
      * intros r' Hne. by flow_simpl.
      * flow_simpl. by rewrite Hpc.
      * flow_simpl. by rewrite Hpc.
      * by flow_simpl.
      * by left.
      * flow_simpl. rewrite (Hjobs r). by rewrite Hpc.
      * flow_simpl. intros _. apply Hpend. by rewrite Hpc.
    + refine (coherent_local s _ r v v Hc Hv _ _ _ _ _ _ _ _ _ _).
      * flow_simpl. by rewrite updateTranscodingJob_videos.
      * done.
      * done.
      * intros r' Hne. flow_simpl. split_and!; [done..|]. by apply Hjne.
      * flow_simpl. by rewrite Hpc.
      * flow_simpl. by rewrite Hpc.
      * by flow_simpl.
      * by left.
      * flow_simpl. rewrite jobStatusOf_update_eq, (Hjobs r). by rewrite Hpc.
      * by flow_simpl.
  - (* Encoder *)
    set (d0 := Sim.driver (Sim.flows s r)) in *.
    assert (Queue.promise d0 = None) as Hd0 by (apply Hpend; unfold pcOf; by rewrite Hpc).
    unfold Queue.transcodeVideoFile_onEvent in Hstep.
    pose proof (onEvent_cases (Queue.playlistPath (Sim.outputDir jd) r) e d0 Hd0) as Hcases.
    destruct (Queue.onEvent (Queue.playlistPath (Sim.outputDir jd) r) e d0) as [calls drv].
    simpl in Hcases.
    set (s0 := Sim.set_flow s r
                 (Sim.mkFlow Sim.PcEncoding (Sim.lastProgress (Sim.flows s r)) drv)) in *.
    assert (videoOf jd s0 = Some v) as Hv0 by done.
    assert (∀ r', r' ≠ r → pcOf s0 r' = pcOf s r'
                           ∧ Sim.driver (Sim.flows s0 r') = Sim.driver (Sim.flows s r')
                           ∧ jobOf jd s0 r' = jobOf jd s r') as Hoth0.
    { intros r' Hne. subst s0. by flow_simpl. }
    assert (pcOf s0 r = Sim.PcEncoding ∧ Sim.driver (Sim.flows s0 r) = drv
            ∧ jobOf jd s0 r = Some JobStatus.processing) as (Hpc0 & Hdrv0 & Hjob0).
    { subst s0. flow_simpl. split_and!; [done..|]. rewrite (Hjobs r). by rewrite Hpc. }
    assert (pcOf s r ≠ Sim.PcDone ∧ pcOf s r ≠ Sim.PcFailed) as [Hnd Hnf].
    { unfold pcOf. by rewrite Hpc. }
    destruct Hcases as [[Hnone Hcalls]|[[Hres Hcalls]|(message & Hfail & Hcalls)]].
    + (* the promise stays pending *)
      rewrite Hnone in Hstep. injection Hstep as <-.
      destruct Hcalls as [->|(ct & dur & ->)]; simpl.
      * refine (coherent_local s _ r v v Hc Hv Hv0 _ _ Hoth0 Hnd Hnf _ _ _ _); try done.
        -- by rewrite Hpc0.
        -- by left.
        -- by rewrite Hjob0, Hpc0.
        -- intros _. by rewrite Hdrv0.
      * destruct (progressCallback_views now r (Queue.percentOf ct dur) s0 v Hv0)
          as (Hpcs & Hdrvs & Hjs & v' & Hv' & Hst & Hhls & Hfne & Hfr).
        refine (coherent_local s _ r v v' Hc Hv Hv' Hhls _ _ Hnd Hnf _ _ _ _).
        -- intros r'. destruct (decide (r' = r)) as [->|Hne]; [|by apply Hfne].
           rewrite (not_full_while_running s r v Hc Hv Hnd).
           destruct Hfr as [->| ->].
           ++ apply (not_full_while_running s r v Hc Hv Hnd).
           ++ apply percentOf_not_100.
        -- intros r' Hne. rewrite Hpcs, Hdrvs, Hjs. by apply Hoth0.
        -- by rewrite Hpcs, Hpc0.
        -- by left.
        -- by rewrite Hjs, Hpcs, Hjob0, Hpc0.
        -- intros _. by rewrite Hdrvs, Hdrv0.
    + (* resolved *)
      rewrite Hres in Hstep. injection Hstep as <-. rewrite Hcalls. simpl.
      destruct (progressCallback_views now r 100%Q s0 v Hv0)
        as (Hpcs & Hdrvs & Hjs & v1 & Hv1 & Hst & Hhls & Hfne & Hfr).
      refine (coherent_resolved now s _ r v v1 Hc Hv Hv1 Hhls Hfne _ _ _).
      * intros r' Hne. rewrite Hpcs, Hdrvs, Hjs. by apply Hoth0.
      * unfold pcOf. by rewrite Hpc.
      * rewrite Hjs, Hjob0. by eexists.
    + (* rejected *)
      rewrite Hfail in Hstep. injection Hstep as <-. rewrite Hcalls. simpl.
      refine (coherent_local s _ r v v Hc Hv _ _ _ _ Hnd Hnf _ _ _ _).
      * flow_simpl. by rewrite updateTranscodingJob_videos.
      * done.
      * done.
      * intros r' Hne. flow_simpl. split_and!; [done..|]. by apply Hjne.
      * by flow_simpl.
      * by left.
      * flow_simpl. rewrite jobStatusOf_update_eq, (Hjobs r). by rewrite Hpc.
      * by flow_simpl.
  - (* FailVideo *)
    injection Hstep as <-.
    refine (coherent_local s _ r v
              (Video.spread v
                 (Video.mkPartial (Some VideoStatus.FAILED) None None None
                    (Some (Some em)) None))
              Hc Hv _ _ _ _ _ _ _ _ _ _).
    + flow_simpl. by rewrite updateVideo_videos, Hv.
    + done.
    + done.
    + intros r' Hne. flow_simpl. by rewrite jobStatusOf_updateVideo.
    + flow_simpl. by rewrite Hpc.
    + flow_simpl. by rewrite Hpc.
    + by flow_simpl.
    + right. right. by flow_simpl.
    + flow_simpl. rewrite jobStatusOf_updateVideo, (Hjobs r). by rewrite Hpc.
    + by flow_simpl.
Qed.

End Flows.

(** POST /api/upload/complete leaves the store the transcodes start from. *)
Lemma completeStore_queued now jobIds outputPath outputDir sid session st v :
  MemStorage.videos st !! UploadSession.videoId session = Some v →
  Video.hlsUrls v = None →
  (∀ r r', jobIds r = jobIds r' → r = r') →
  queued (Sim.mkJobData (UploadSession.videoId session) jobIds outputPath outputDir)
         (Routes.completeStore now jobIds outputPath sid session st).
Proof.
  intros Hv Hhls Hdist.
  assert (MemStorage.videos
            (MemStorage.updateUploadSession sid
               (UploadSession.mkPartial None (Some SessionStatus.completed)) st).2
          = MemStorage.videos st) as Hvs.
  { unfold MemStorage.updateUploadSession. by destruct (MemStorage.uploadSessions st !! sid). }
  unfold Routes.completeStore. simpl.
  constructor; simpl.
  - rewrite updateVideo_videos. simpl. rewrite updateVideo_videos, Hvs, Hv. simpl.
    eexists. split; [done|]. by split_and!.
  - intros r. rewrite jobStatusOf_updateVideo. unfold jobStatusOf. simpl.
    destruct r.
    + rewrite lookup_insert_ne by (intros H; by apply Hdist in H).
      rewrite lookup_insert_ne by (intros H; by apply Hdist in H).
      by rewrite lookup_insert_eq.
    + rewrite lookup_insert_ne by (intros H; by apply Hdist in H).
      by rewrite lookup_insert_eq.
    + by rewrite lookup_insert_eq.
  - done.
Qed.

Lemma statusAt_completed p : statusAt p = JobStatus.completed ↔ p = Sim.PcDone.
Proof. by destruct p. Qed.

Lemma start_coherent jd st : queued jd st → coherent jd (Sim.start st).
Proof.
  intros [(v & Hv & Hst & Hhls & Htp) Hjobs Hdist]. constructor.
  - by exists v.
  - intros r. apply Hjobs.
  - done.
  - intros v0 r Hv0. unfold videoOf in Hv0. simpl in Hv0. rewrite Hv in Hv0.
    injection Hv0 as <-. unfold hlsUrlPresent, pcOf. rewrite Hhls. simpl.
    split; [by intros [? ?]|done].
  - intros v0 r Hv0. unfold videoOf in Hv0. simpl in Hv0. rewrite Hv in Hv0.
    injection Hv0 as <-. unfold full, pcOf. rewrite Htp. by destruct r.
  - intros v0 Hv0. unfold videoOf in Hv0. simpl in Hv0. rewrite Hv in Hv0.
    injection Hv0 as <-. rewrite Hst. split; [done|].
    intros H. specialize (H Resolution.R360P). done.
  - intros v0 Hv0. unfold videoOf in Hv0. simpl in Hv0. rewrite Hv in Hv0.
    injection Hv0 as <-. by rewrite Hst.
Qed.

Lemma run_coherent jd tr s s' :
  (∀ r r', Sim.jobId jd r = Sim.jobId jd r' → r = r') →
  coherent jd s → Sim.run jd tr s = Some s' → coherent jd s'.
Proof.
  intros Hdist. revert s. induction tr as [|[now l] tr IH]; intros s Hc Hrun; simpl in Hrun.
  - by injection Hrun as <-.
  - destruct (Sim.step jd now l s) as [s1|] eqn:Hstep; [|done].
    apply (IH s1); [|done]. by eapply step_coherent.
Qed.

(** C2. Start from the store POST /api/upload/complete leaves for a video
    (queued, one pending job per resolution) and let the three in-process
    transcodes run, interleaved in any way and on any encoder output.  At
    every point of the run, and so once the handlers of all three
    resolutions have run: the video is COMPLETED iff all three jobs are
    completed; if the video is FAILED then some job is failed; and
    [hlsUrls[r]] is present iff the job of [r] is completed. *)
Theorem video_status_follows_jobs
    (jd : Sim.JobData) (st : MemStorage.t) (tr : list (Z * Sim.label)) (s : Sim.t) :
  queued jd st →
  Sim.run jd tr (Sim.start st) = Some s →
  ∃ v, MemStorage.videos (Sim.store s) !! Sim.videoId jd = Some v
       ∧ (Video.status v = VideoStatus.COMPLETED
          ↔ ∀ r, jobStatusOf (Sim.store s) (Sim.jobId jd r) = Some JobStatus.completed)
       ∧ (Video.status v = VideoStatus.FAILED
          → ∃ r, jobStatusOf (Sim.store s) (Sim.jobId jd r) = Some JobStatus.failed)
       ∧ (∀ r, hlsUrlPresent v r
               ↔ jobStatusOf (Sim.store s) (Sim.jobId jd r) = Some JobStatus.completed).
Proof.
  intros Hq Hrun.
  assert (coherent jd s) as Hc.
  { eapply run_coherent; [apply (queued_distinct jd st Hq) | by apply start_coherent | done]. }
  destruct (coh_video jd s Hc) as [v Hv]. exists v. split; [done|].
  assert (∀ r, jobStatusOf (Sim.store s) (Sim.jobId jd r) = Some JobStatus.completed
               ↔ pcOf s r = Sim.PcDone) as Hjob.
  { intros r. fold (jobOf jd s r). rewrite (coh_jobs jd s Hc r).
    rewrite <- statusAt_completed. split; [by intros [= ->]|by intros ->]. }
  split_and!.
  - rewrite (coh_completed jd s Hc v Hv). by setoid_rewrite Hjob.
  - intros Hf. destruct (coh_failed jd s Hc v Hv Hf) as [r Hr]. exists r.
    fold (jobOf jd s r). by rewrite (coh_jobs jd s Hc r), Hr.
  - intros r. by rewrite Hjob, (coh_hls jd s Hc v r Hv).
Qed.

Lemma demoQueued_queued : queued demoJobs demoQueued.
Proof.
  constructor.
  - eexists. split; [reflexivity|]. by split_and!.
  - by intros [].
  - by intros [] [].
Defined.

Lemma video_status_follows_jobs_witness :
  ∃ s v, Sim.run demoJobs demoTrace (Sim.start demoQueued) = Some s
         ∧ MemStorage.videos (Sim.store s) !! "v1" = Some v
         ∧ (Video.status v = VideoStatus.COMPLETED
            ↔ ∀ r, jobStatusOf (Sim.store s) (Sim.jobId demoJobs r) = Some JobStatus.completed)
         ∧ (Video.status v = VideoStatus.FAILED
            → ∃ r, jobStatusOf (Sim.store s) (Sim.jobId demoJobs r) = Some JobStatus.failed)
         ∧ (∀ r, hlsUrlPresent v r
                 ↔ jobStatusOf (Sim.store s) (Sim.jobId demoJobs r) = Some JobStatus.completed).
Proof.
  destruct (Sim.run demoJobs demoTrace (Sim.start demoQueued)) as [s|] eqn:Hrun;
    [|by vm_compute in Hrun].
  destruct (video_status_follows_jobs demoJobs demoQueued demoTrace s demoQueued_queued Hrun)
    as (v & Hv & H).
  exists s, v. split; [reflexivity|]. split; [exact Hv|exact H].
Defined.

Example failure_then_success_leaves_transcoding :
  (λ s, (Video.status <$> MemStorage.videos (Sim.store s) !! "v1",
         jobStatusOf (Sim.store s) "j360", jobStatusOf (Sim.store s) "j720",
         jobStatusOf (Sim.store s) "j1080"))
  <$> Sim.run demoJobs demoTrace (Sim.start demoQueued)
  = Some (Some VideoStatus.TRANSCODING, Some JobStatus.completed, Some JobStatus.failed,
          Some JobStatus.completed).
Proof. by vm_compute. Qed.

Example all_three_succeed :
  (λ s, Video.status <$> MemStorage.videos (Sim.store s) !! "v1")
  <$> Sim.run demoJobs
        (take 14 demoTrace ++
         [(15, Sim.Encoder Resolution.R720P (Queue.Close (Some 0)));
          (16, Sim.Encoder Resolution.R360P (Queue.Close (Some 0)));
          (17, Sim.Encoder Resolution.R1080P (Queue.Close (Some 0)))])
        (Sim.start demoQueued)
  = Some (Some VideoStatus.COMPLETED).
Proof. by vm_compute. Qed.

(** * Further properties *)

(** ** Decimal strings: [String(n)] and [parseInt] *)

Lemma pretty_N_char_digit d :
  (d < 10)%N →
  JS.is_digit (pretty_N_char d) = true
  ∧ JS.digit_val 10 (pretty_N_char d) = Some (Z.of_N d).
Proof.
  intros Hd.
  assert (d = 0 ∨ d = 1 ∨ d = 2 ∨ d = 3 ∨ d = 4 ∨ d = 5 ∨ d = 6 ∨ d = 7 ∨ d = 8 ∨ d = 9)%N
    as Hcases by lia.
  repeat (destruct Hcases as [->|Hcases]; [by vm_compute|]). subst. by vm_compute.
Qed.

Lemma pretty_N_go_parse (x : N) :
  ∀ a, default 0 a = 0 →
  ∃ b, (∀ s, JS.parse_digits 10 (pretty_N_go x s) a = JS.parse_digits 10 s b)
       ∧ (∀ s, all_digits (pretty_N_go x s) = all_digits s)
       ∧ default 0 b = Z.of_N x
       ∧ ((0 < x)%N → is_Some b)
       ∧ (x = 0%N → b = a).
Proof.
  induction (N.lt_wf_0 x) as [x _ IH]. intros a Ha.
  destruct (decide (0 < x)%N) as [Hpos|Hzero].
  - destruct (IH (x `div` 10)%N) with (a := a) as (b' & Hparse & Hall & Hval & _ & _);
      [by apply N.div_lt|done|].
    destruct (pretty_N_char_digit (x `mod` 10)%N) as [Hdig Hdv]; [by apply N.mod_lt|].
    exists (Some (10 * default 0 b' + Z.of_N (x `mod` 10))). split_and!.
    + intros s. rewrite pretty_N_go_step, Hparse by done. simpl. by rewrite Hdv.
    + intros s. rewrite pretty_N_go_step, Hall by done. simpl. by rewrite Hdig.
    + simpl. rewrite Hval. rewrite (N.div_mod x 10) at 3 by done. lia.
    + by eexists.
    + lia.
  - assert (x = 0%N) as -> by lia. exists a. by split_and!.
Qed.

(** [parseInt(String(i)) === i] for an index [i ≥ 0]. *)
Lemma parse_digits_pretty (i : Z) :
  0 ≤ i →
  JS.parse_digits 10 (pretty i) None = Some i
  ∧ all_digits (pretty i) = true ∧ pretty i ≠ "".
Proof.
  intros Hi.
  assert (JS.parse_digits 10 (pretty i) None = Some i ∧ all_digits (pretty i) = true)
    as [Hp Ha].
  { destruct i as [|p|p]; [by vm_compute| |lia].
    unfold pretty, pretty_Z, pretty, pretty_positive, pretty, pretty_N.
    rewrite decide_False by done.
    destruct (pretty_N_go_parse (N.pos p) None eq_refl)
      as (b & Hparse & Hall & Hval & Hsome & _).
    rewrite Hparse, Hall. simpl. destruct Hsome as [n ->]; [lia|]. simpl in Hval.
    by rewrite Hval. }
  split_and!; [done..|]. intros Hempty. by rewrite Hempty in Hp.
Qed.

Lemma parseInt_digit_string s :
  all_digits s = true → s ≠ "" →
  JS.parseInt s = JS.parse_digits 10 s None.
Proof.
  intros Hall Hne. destruct s as [|c s]; [done|]. clear Hne.
  pose proof Hall as Hall'. simpl in Hall'. apply andb_true_iff in Hall' as [Hc Hs].
  destruct (digit_facts c Hc) as (Hws & _ & Hm & Hp & _).
  destruct (parse_digits_digits (String c s) None Hall) as (n & Hn & Hn0);
    [done|by left|].
  rewrite Hn.
  assert (JS.parseInt (String c s)
          = match JS.parse_digits 10 (String c s) None with
            | Some n => Some (1 * n)
            | None => None
            end) as ->.
  { unfold JS.parseInt. simpl JS.skip_ws. rewrite Hws, (digit_not_ws_lead c Hc).
    cbn [negb].
    destruct s as [|c2 s].
    - destruct c as [[] [] [] [] [] [] [] []]; try done.
    - simpl in Hs. apply andb_true_iff in Hs as [Hc2 _].
      destruct (digit_facts c2 Hc2) as (_ & _ & _ & _ & Hx & HX).
      destruct c as [[] [] [] [] [] [] [] []]; try done.
      destruct c2 as [[] [] [] [] [] [] [] []]; try done. }
  rewrite Hn. f_equal. lia.
Qed.

Lemma parseInt_pretty (i : Z) : 0 ≤ i → JS.parseInt (pretty i) = Some i.
Proof.
  intros Hi. destruct (parse_digits_pretty i Hi) as (Hp & Ha & Hne).
  by rewrite parseInt_digit_string.
Qed.

(** ** The chunks the browser cuts *)

Lemma ceil_div_spec a c :
  0 < c → c * (MemStorage.ceil_div a c - 1) < a ≤ c * MemStorage.ceil_div a c.
Proof.
  intros Hc. unfold MemStorage.ceil_div.
  pose proof (Z.div_mod (- a) c) as Hdm. pose proof (Z.mod_pos_bound (- a) c Hc) as Hb.
  specialize (Hdm ltac:(lia)). nia.
Qed.

Lemma createChunks_lookup fileSize k c :
  0 ≤ fileSize →
  Client.createChunks fileSize !! k = Some c ↔
  Z.of_nat k < MemStorage.ceil_div fileSize Client.CHUNK_SIZE
  ∧ c = Client.mkChunkInfo (Z.of_nat k) (Z.of_nat k * Client.CHUNK_SIZE)
          (Z.min (Z.of_nat k * Client.CHUNK_SIZE + Client.CHUNK_SIZE) fileSize)
          (Z.min (Z.of_nat k * Client.CHUNK_SIZE + Client.CHUNK_SIZE) fileSize
           - Z.of_nat k * Client.CHUNK_SIZE) false.
Proof.
  intros Hf. unfold Client.createChunks. rewrite list_lookup_fmap.
  destruct (seqZ 0 (MemStorage.ceil_div fileSize Client.CHUNK_SIZE) !! k) as [i|] eqn:Hi; simpl.
  - apply lookup_seqZ in Hi as [-> Hlt]. split.
    + intros [= <-]. split; [done|]. by rewrite Z.add_0_l.
    + intros [_ ->]. by rewrite Z.add_0_l.
  - split; [done|]. intros [Hlt _]. exfalso.
    assert (is_Some (seqZ 0 (MemStorage.ceil_div fileSize Client.CHUNK_SIZE) !! k)) as [? ?];
      [|congruence].
    eexists. by apply lookup_seqZ_lt.
Qed.

Lemma sizes_prefix fileSize (m : nat) :
  0 ≤ fileSize →
  Z.of_nat m ≤ MemStorage.ceil_div fileSize Client.CHUNK_SIZE →
  foldl (λ sum c, sum + Client.size c) 0
        ((λ i, let start := i * Client.CHUNK_SIZE in
               let end_ := Z.min (start + Client.CHUNK_SIZE) fileSize in
               Client.mkChunkInfo i start end_ (end_ - start) false)
         <$> seqZ 0 (Z.of_nat m))
  = Z.min (Z.of_nat m * Client.CHUNK_SIZE) fileSize.
Proof.
  intros Hf. pose proof (ceil_div_spec fileSize Client.CHUNK_SIZE) as Hceil.
  unfold Client.CHUNK_SIZE in *. specialize (Hceil ltac:(lia)).
  induction m as [|m IH]; intros Hm.
  - simpl. lia.
  - rewrite seqZ_S, fmap_app, foldl_app, IH by lia. simpl. lia.
Qed.

Lemma createChunks_sizes fileSize :
  0 ≤ fileSize →
  foldl (λ sum c, sum + Client.size c) 0 (Client.createChunks fileSize) = fileSize.
Proof.
  intros Hf.
  pose proof (ceil_div_spec fileSize Client.CHUNK_SIZE ltac:(done)) as Hceil.
  assert (0 ≤ MemStorage.ceil_div fileSize Client.CHUNK_SIZE) as Hn0.
  { unfold Client.CHUNK_SIZE in *. lia. }
  unfold Client.createChunks.
  rewrite <- (Z2Nat.id (MemStorage.ceil_div fileSize Client.CHUNK_SIZE)) at 1 by done.
  rewrite sizes_prefix by lia. rewrite Z2Nat.id by done.
  unfold Client.CHUNK_SIZE in *. lia.
Qed.

(** X1. The chunks the browser cuts from a file tile it: there are
    [ceil(size / 2 MiB)] of them, numbered from 0; each is non-empty and
    at most 2 MiB long; the first starts at 0, each next one starts where
    the previous one ends, the last ends at the end of the file; and
    their sizes add up to the size of the file. *)
Theorem createChunks_tile_the_file (fileSize : Z) :
  0 ≤ fileSize →
  let chunks := Client.createChunks fileSize in
  Z.of_nat (length chunks) = MemStorage.ceil_div fileSize Client.CHUNK_SIZE
  ∧ (∀ k c, chunks !! k = Some c →
            Client.index c = Z.of_nat k
            ∧ 0 < Client.size c ≤ Client.CHUNK_SIZE
            ∧ Client.end_ c = Client.start c + Client.size c
            ∧ Client.uploaded c = false)
  ∧ (∀ c, chunks !! 0%nat = Some c → Client.start c = 0)
  ∧ (∀ k c c', chunks !! k = Some c → chunks !! S k = Some c' →
               Client.start c' = Client.end_ c)
  ∧ (∀ c, last chunks = Some c → Client.end_ c = fileSize)
  ∧ foldl (λ sum c, sum + Client.size c) 0 chunks = fileSize.
Proof.
  intros Hf chunks. subst chunks.
  pose proof (ceil_div_spec fileSize Client.CHUNK_SIZE ltac:(done)) as Hceil.
  assert (0 ≤ MemStorage.ceil_div fileSize Client.CHUNK_SIZE) as Hn0.
  { unfold Client.CHUNK_SIZE in *. lia. }
  assert (Z.of_nat (length (Client.createChunks fileSize))
          = MemStorage.ceil_div fileSize Client.CHUNK_SIZE) as Hlen.
  { unfold Client.createChunks. rewrite length_fmap, length_seqZ. lia. }
  split_and!.
  - done.
  - intros k c [Hk ->]%createChunks_lookup; [|done]. simpl.
    unfold Client.CHUNK_SIZE in *. split_and!; lia.
  - intros c [_ ->]%createChunks_lookup; [|done]. simpl. lia.
  - intros k c c' [Hk ->]%createChunks_lookup [Hk' ->]%createChunks_lookup; try done.
    simpl. unfold Client.CHUNK_SIZE in *. lia.
  - intros c Hlast. rewrite last_lookup in Hlast.
    pose proof Hlast as Hlt%lookup_lt_Some.
    apply createChunks_lookup in Hlast as [Hk ->]; [|done]. simpl.
    unfold Client.CHUNK_SIZE in *. lia.
  - by apply createChunks_sizes.
Qed.

Lemma createChunks_tile_the_file_witness :
  Z.of_nat (length (Client.createChunks 5000000)) = 3
  ∧ foldl (λ sum c, sum + Client.size c) 0 (Client.createChunks 5000000) = 5000000.
Proof.
  destruct (createChunks_tile_the_file 5000000) as (Hlen & _ & _ & _ & _ & Hsum); [lia|].
  split; [exact Hlen|exact Hsum].
Defined.

Lemma foldl_sizes_acc (l : list Client.ChunkInfo) (a : Z) :
  foldl (λ sum c, sum + Client.size c) a l
  = a + foldl (λ sum c, sum + Client.size c) 0 l.
Proof.
  revert a. induction l as [|c l IH]; intros a; simpl; [lia|].
  rewrite (IH (a + Client.size c)), (IH (0 + Client.size c)). lia.
Qed.

Lemma uploadedSize_marked (done_ : Z → bool) (l : list Client.ChunkInfo) :
  Forall (λ c, 0 ≤ Client.size c ∧ Client.uploaded c = false) l →
  let l' := (λ c, if done_ (Client.index c) then Client.setUploaded c else c) <$> l in
  0 ≤ Client.uploadedSize l' ≤ foldl (λ sum c, sum + Client.size c) 0 l
  ∧ (Forall (λ c, done_ (Client.index c) = true) l →
     Client.uploadedSize l' = foldl (λ sum c, sum + Client.size c) 0 l).
Proof.
  unfold Client.uploadedSize. induction 1 as [|c l [Hc Hu] Hl IH].
  - simpl. split; [lia|done].
  - rewrite fmap_cons. cbn [foldl].
    rewrite (foldl_sizes_acc l (0 + _)). destruct IH as [IH1 IH2].
    destruct (done_ (Client.index c)) eqn:Hd.
    + rewrite filter_cons_True by done. cbn [foldl Client.setUploaded Client.size].
      rewrite (foldl_sizes_acc _ (0 + _)). split; [lia|].
      intros Hall. apply Forall_cons in Hall as [_ Hall]. rewrite (IH2 Hall). lia.
    + rewrite filter_cons_False by (rewrite Hu; done). split; [lia|].
      intros Hall. apply Forall_cons in Hall as [Hall _]. congruence.
Qed.

(** X2. Whatever chunks of a file are marked uploaded, the byte count
    [updateProgress] shows lies between 0 and the size of the file, so the
    percentage lies between 0 and 100; once every chunk is marked the
    count is the size of the file and the percentage is 100. *)
Theorem updateProgress_bounds (fileSize : Z) (done_ : Z → bool) :
  0 < fileSize →
  let chunks := (λ c, if done_ (Client.index c) then Client.setUploaded c else c)
                <$> Client.createChunks fileSize in
  0 ≤ Client.uploadedSize chunks ≤ fileSize
  ∧ (0 <= Client.percentage chunks fileSize <= 100)%Q
  ∧ ((∀ i, 0 ≤ i < MemStorage.ceil_div fileSize Client.CHUNK_SIZE → done_ i = true) →
     Client.uploadedSize chunks = fileSize
     ∧ (Client.percentage chunks fileSize == 100)%Q).
Proof.
  intros Hf chunks.
  pose proof (createChunks_sizes fileSize ltac:(lia)) as Hsum.
  assert (Forall (λ c, 0 ≤ Client.size c ∧ Client.uploaded c = false)
                 (Client.createChunks fileSize)) as Hfor.
  { apply Forall_lookup. intros k c [Hk ->]%createChunks_lookup; [|lia]. simpl.
    pose proof (ceil_div_spec fileSize Client.CHUNK_SIZE ltac:(done)) as Hceil.
    unfold Client.CHUNK_SIZE in *. split; [lia|done]. }
  destruct (uploadedSize_marked done_ _ Hfor) as [Hb Heq]. fold chunks in Hb, Heq.
  rewrite Hsum in Hb, Heq.
  assert (∀ u, 0 ≤ u ≤ fileSize →
               (0 <= inject_Z u / inject_Z fileSize * 100 <= 100)%Q) as Hq.
  { intros u Hu. unfold Qle, Qdiv, Qmult, Qinv, inject_Z. simpl.
    destruct fileSize as [|p|p]; try lia. simpl. nia. }
  split; [done|]. split; [by apply Hq|].
  intros Hdone. assert (Client.uploadedSize chunks = fileSize) as Hu.
  { apply Heq. apply Forall_lookup. intros k c [Hk ->]%createChunks_lookup; [|lia].
    simpl. apply Hdone. lia. }
  split; [done|]. unfold Client.percentage. rewrite Hu.
  unfold Qeq, Qdiv, Qmult, Qinv, inject_Z. simpl.
  destruct fileSize as [|p|p]; try lia. simpl. nia.
Qed.

Lemma updateProgress_bounds_witness :
  0 ≤ Client.uploadedSize
        ((λ c, if Z.even (Client.index c) then Client.setUploaded c else c)
         <$> Client.createChunks 5000000) ≤ 5000000.
Proof.
  destruct (updateProgress_bounds 5000000 Z.even) as (H & _ & _); [lia|]. exact H.
Defined.

(** ** The chunk route keeps the store and the disk in step *)

Lemma marked_elem s idx i :
  i ∈ UploadSession.uploadedChunks (marked s idx)
  ↔ i ∈ UploadSession.uploadedChunks s ∨ i = idx.
Proof.
  unfold marked. destruct (JS.includes idx _) eqn:Hin.
  - apply includes_true in Hin. split; [by left|]. by intros [?| ->].
  - simpl. rewrite sort_Permutation. rewrite elem_of_app, list_elem_of_singleton. done.
Qed.

Lemma marked_totalChunks s idx :
  UploadSession.totalChunks (marked s idx) = UploadSession.totalChunks s.
Proof. unfold marked. by destruct (JS.includes _ _). Qed.

Lemma marked_videoId s idx :
  UploadSession.videoId (marked s idx) = UploadSession.videoId s.
Proof. unfold marked. by destruct (JS.includes _ _). Qed.

Lemma ascending_range_length (l : list Z) (a n : Z) :
  ascending l → Forall (λ i, a ≤ i < n) l → Z.of_nat (length l) ≤ Z.max 0 (n - a).
Proof.
  intros Hasc. revert a. induction Hasc as [|x l Hl IH Hx]; intros a Hr; simpl; [lia|].
  apply Forall_cons in Hr as [Hxa Hr].
  assert (Forall (λ i, x + 1 ≤ i < n) l) as Hr'.
  { apply Forall_forall. intros i Hi.
    pose proof (proj1 (Forall_forall _ _) Hx i Hi).
    pose proof (proj1 (Forall_forall _ _) Hr i Hi). simpl in *. lia. }
  specialize (IH _ Hr'). lia.
Qed.

Lemma ascending_sorted_le (l : list Z) : ascending l → StronglySorted Z.le l.
Proof.
  induction 1 as [|x k Hk IH Hx]; constructor; [done|].
  eapply Forall_impl; [exact Hx|]. intros i Hi. simpl in *. lia.
Qed.

(** An ascending list is determined by its elements. *)
Lemma ascending_ext (l l' : list Z) :
  ascending l → ascending l' → (∀ i, i ∈ l ↔ i ∈ l') → l = l'.
Proof.
  intros Hl Hl' Hel.
  assert (l ≡ₚ l') as Hperm by (apply NoDup_Permutation; auto using ascending_NoDup).
  rewrite (sort_numeric_unique l' l Hperm (ascending_sorted_le l Hl)).
  symmetry. by apply sort_numeric_unique, ascending_sorted_le.
Qed.

Lemma ascending_range_full (l : list Z) (n : Z) :
  ascending l → Forall (λ i, 0 ≤ i < n) l → Z.of_nat (length l) = n →
  l = seqZ 0 n.
Proof.
  intros Hasc Hr Hlen.
  assert (l ≡ₚ seqZ 0 n) as Hperm.
  { apply submseteq_length_Permutation.
    - apply NoDup_submseteq; [by apply ascending_NoDup|].
      intros i Hi. apply elem_of_seqZ.
      pose proof (proj1 (Forall_forall _ _) Hr i Hi). simpl in *. lia.
    - rewrite length_seqZ. lia. }
  pose proof (ascending_sorted_le l Hasc) as Hle.
  rewrite (sort_numeric_unique (seqZ 0 n) l Hperm Hle).
  symmetry. apply sort_numeric_unique; [done|].
  assert (∀ (m : nat) a, StronglySorted Z.le (seqZ a (Z.of_nat m))) as Hs.
  { induction m as [|m IH]; intros a; [rewrite seqZ_nil by lia; constructor|].
    rewrite seqZ_cons by lia. constructor.
    - replace (Z.pred (Z.of_nat (S m))) with (Z.of_nat m) by lia. apply IH.
    - apply Forall_forall. intros i Hi%elem_of_seqZ. lia. }
  destruct (decide (0 ≤ n)).
  - rewrite <- (Z2Nat.id n) by done. apply Hs.
  - rewrite seqZ_nil by lia. constructor.
Qed.

Lemma promote_keeps_chunks now tmp size sid idx d d' :
  Disk.chunks d !! tmp = Some (Disk.File size) →
  Routes.promote now tmp size sid idx d = Some d' →
  Disk.chunkExists d' sid idx = true
  ∧ ∀ sid' i, Disk.chunkExists d sid' i = true → Disk.chunkExists d' sid' i = true.
Proof.
  intros Htmp. unfold Routes.promote.
  destruct (Disk.chunks d !! sid) as [[sz|m files]|] eqn:Hs.
  - by rewrite Hs.
  - rewrite Hs. intros [= <-]. unfold Disk.chunkExists. simpl. split.
    + rewrite lookup_insert_eq. apply bool_decide_eq_true. by rewrite lookup_insert_eq.
    + intros sid' i. destruct (decide (sid' = sid)) as [->|Hne].
      * rewrite Hs, lookup_insert_eq. intros [x Hx]%bool_decide_eq_true.
        apply bool_decide_eq_true.
        destruct (decide (Disk.chunkName idx = Disk.chunkName i)) as [->|Hn].
        -- by rewrite lookup_insert_eq.
        -- rewrite lookup_insert_ne by done. by exists x.
      * rewrite lookup_insert_ne by done.
        destruct (decide (sid' = tmp)) as [->|Hnt]; [by rewrite Htmp|].
        by rewrite lookup_delete_ne.
  - rewrite lookup_insert_eq. intros [= <-]. unfold Disk.chunkExists. simpl. split.
    + rewrite lookup_insert_eq. apply bool_decide_eq_true. by rewrite lookup_insert_eq.
    + intros sid' i. destruct (decide (sid' = sid)) as [->|Hne]; [by rewrite Hs|].
      rewrite lookup_insert_ne by done.
      destruct (decide (sid' = tmp)) as [->|Hnt]; [by rewrite Htmp|].
      rewrite lookup_delete_ne by done. by rewrite lookup_insert_ne.
Qed.

(** What a chunk request can do: the disk keeps every chunk file it has,
    and the store either stays as it is or is the one [markChunkUploaded]
    leaves for an index in range whose chunk file is then on the disk. *)
Lemma uploadChunk_outcome now req st d :
  let r := (Routes.uploadChunk now req st d).1.1 in
  let st' := (Routes.uploadChunk now req st d).1.2 in
  let d' := (Routes.uploadChunk now req st d).2 in
  (∀ sid i, Disk.chunkExists d sid i = true → Disk.chunkExists d' sid i = true)
  ∧ ((st' = st ∧ Response.status r ≠ 200)
     ∨ ∃ sid s ci idx,
         MemStorage.uploadSessions st !! sid = Some s
         ∧ Routes.sessionId req = Some sid
         ∧ Routes.chunkIndex req = Some ci
         ∧ Routes.validIndex ci (UploadSession.totalChunks s) = Some idx
         ∧ st' = (MemStorage.markChunkUploaded sid idx st).2
         ∧ Disk.chunkExists d' sid idx = true
         ∧ Response.status r = 200).
Proof.
  assert (∀ f, ∀ sid i, Disk.chunkExists d sid i = true →
                        Disk.chunkExists (Routes.unlinkFile f d) sid i = true) as Hfile.
  { intros [tmp|] sid i; simpl; [|done]. by rewrite chunkExists_unlinkTemp. }
  unfold Routes.uploadChunk.
  destruct (Routes.sessionId req) as [sid|] eqn:Hsid; cycle 1.
  { simpl. split; [apply Hfile|by left]. }
  destruct (Routes.chunkIndex req) as [ci|] eqn:Hci; cycle 1.
  { simpl. split; [apply Hfile|by left]. }
  destruct (Routes.falsy (Some sid)) eqn:Hfalsy.
  { simpl. split; [apply Hfile|by left]. }
  destruct (Routes.file req) as [tmp|] eqn:Hf; cycle 1.
  { simpl. split; [done|by left]. }
  destruct (Disk.chunks d !! tmp) as [[size|m files]|] eqn:Htmp; cycle 1.
  { simpl. split; [apply Hfile|by left]. }
  { simpl. split; [apply Hfile|by left]. }
  destruct (size =? 0).
  { simpl. split; [intros ??; by rewrite chunkExists_unlinkTemp|by left]. }
  unfold MemStorage.getUploadSession.
  destruct (MemStorage.uploadSessions st !! sid) as [s|] eqn:Hs; cycle 1.
  { simpl. split; [intros ??; by rewrite chunkExists_unlinkTemp|by left]. }
  destruct (Routes.validIndex ci (UploadSession.totalChunks s)) as [idx|] eqn:Hidx; cycle 1.
  { simpl. split; [intros ??; by rewrite chunkExists_unlinkTemp|by left]. }
  destruct (Routes.promote now tmp size sid idx d) as [d1|] eqn:Hp; cycle 1.
  { simpl. split; [apply Hfile|by left]. }
  destruct (promote_keeps_chunks _ _ _ _ _ _ _ Htmp Hp) as [Hex Hmono].
  rewrite Hex. simpl.
  destruct (markChunkUploaded_Some sid idx st s Hs) as (Hr & _).
  destruct (MemStorage.markChunkUploaded sid idx st) as [o st1] eqn:Hm.
  simpl in Hr. subst o. simpl. split; [done|]. right.
  exists sid, s, ci, idx. by rewrite Hm.
Qed.

Lemma markChunkUploaded_inRange sid idx st s :
  MemStorage.uploadSessions st !! sid = Some s →
  0 ≤ idx < UploadSession.totalChunks s →
  chunksInRange st → chunksInRange (MemStorage.markChunkUploaded sid idx st).2.
Proof.
  intros Hs Hidx Hin id s'.
  destruct (markChunkUploaded_Some sid idx st s Hs) as (_ & -> & _).
  destruct (decide (id = sid)) as [->|Hne].
  - rewrite lookup_insert_eq. intros [= <-]. rewrite marked_totalChunks.
    apply Forall_forall. intros i [Hi| ->]%marked_elem; [|done].
    by apply (proj1 (Forall_forall _ _) (Hin sid s Hs)).
  - rewrite lookup_insert_ne by done. apply Hin.
Qed.

Lemma markChunkUploaded_backed sid idx st s d d' :
  MemStorage.uploadSessions st !! sid = Some s →
  Disk.chunkExists d' sid idx = true →
  (∀ sid i, Disk.chunkExists d sid i = true → Disk.chunkExists d' sid i = true) →
  chunksBacked st d → chunksBacked (MemStorage.markChunkUploaded sid idx st).2 d'.
Proof.
  intros Hs Hex Hmono Hb id s' i.
  destruct (markChunkUploaded_Some sid idx st s Hs) as (_ & -> & _).
  destruct (decide (id = sid)) as [->|Hne].
  - rewrite lookup_insert_eq. intros [= <-] [Hi| ->]%marked_elem; [|done].
    apply Hmono. by apply (Hb sid s).
  - rewrite lookup_insert_ne by done. intros Hs' Hi. apply Hmono. by apply (Hb id s').
Qed.

Lemma postUploadChunk_invariants pre now req st d :
  chunksAscending st → chunksInRange st → chunksBacked st d →
  chunksAscending (Routes.postUploadChunk pre now req st d).1.2
  ∧ chunksInRange (Routes.postUploadChunk pre now req st d).1.2
  ∧ chunksBacked (Routes.postUploadChunk pre now req st d).1.2
                 (Routes.postUploadChunk pre now req st d).2.
Proof.
  intros Hasc Hin Hb. destruct pre; simpl; try done.
  destruct (uploadChunk_outcome now req st d) as [Hmono Hst].
  destruct Hst as [[-> _]|(sid & s & ci & idx & Hs & _ & _ & Hv & -> & Hex & _)].
  - split_and!; try done. intros id s i Hs Hi. apply Hmono. by apply (Hb id s).
  - apply validIndex_Some in Hv as [_ Hv]. split_and!.
    + by apply markChunkUploaded_ascending.
    + by apply (markChunkUploaded_inRange sid idx st s).
    + by apply (markChunkUploaded_backed sid idx st s d).
Qed.

(** ** From the last chunk to the completion check *)

Lemma missingChunkFiles_backed st d sid s :
  chunksAscending st → chunksInRange st → chunksBacked st d →
  MemStorage.uploadSessions st !! sid = Some s →
  Z.of_nat (length (UploadSession.uploadedChunks s)) = UploadSession.totalChunks s →
  UploadSession.uploadedChunks s = seqZ 0 (UploadSession.totalChunks s)
  ∧ Routes.missingChunkFiles d sid (UploadSession.totalChunks s) = [].
Proof.
  intros Hasc Hin Hb Hs Hlen.
  pose proof (ascending_range_full _ _ (Hasc sid s Hs) (Hin sid s Hs) Hlen) as Hfull.
  split; [done|].
  destruct (Routes.missingChunkFiles d sid (UploadSession.totalChunks s)) as [|i l] eqn:Hm;
    [done|exfalso].
  assert (i ∈ Routes.missingChunkFiles d sid (UploadSession.totalChunks s)) as Hi.
  { rewrite Hm. apply list_elem_of_here. }
  apply elem_of_missingChunkFiles in Hi as [Hi Hex].
  rewrite (Hb sid s i Hs) in Hex; [done|]. rewrite Hfull. apply elem_of_seqZ. lia.
Qed.

(** X3. As long as the sessions and the disk are in the state the chunk
    route keeps them in, POST /api/upload/complete never answers with a
    list of missing chunk files: a session that holds totalChunks indices
    holds exactly 0 .. totalChunks-1, all its chunk files are there, and
    the request goes on to the reassembly. *)
Theorem complete_finds_every_chunk_file
    (sid : string) (st : MemStorage.t) (d : Disk.t) :
  chunksAscending st → chunksInRange st → chunksBacked st d →
  (∀ r, Routes.completeChecks sid st d = inl r → Response.missingChunks r = None)
  ∧ (∀ s, MemStorage.getUploadSession sid st = Some s →
          Z.of_nat (length (UploadSession.uploadedChunks s)) = UploadSession.totalChunks s →
          Routes.completeChecks sid st d = inr s
          ∧ UploadSession.uploadedChunks s = seqZ 0 (UploadSession.totalChunks s)).
Proof.
  intros Hasc Hin Hb. unfold Routes.completeChecks, MemStorage.getUploadSession.
  destruct (MemStorage.uploadSessions st !! sid) as [s|] eqn:Hs; cycle 1.
  { split; [by intros r [= <-]|done]. }
  case_bool_decide as Hlen.
  { split; [by intros r [= <-]|]. by intros ? [= <-] ?. }
  destruct (missingChunkFiles_backed st d sid s Hasc Hin Hb Hs Hlen) as [Hfull ->].
  simpl. split; [done|]. by intros ? [= <-] _.
Qed.

Lemma complete_finds_every_chunk_file_witness :
  Routes.completeChecks "s1" (demoStore [0; 1; 2]) completeDisk = inr (demoSession [0; 1; 2])
  ∧ UploadSession.uploadedChunks (demoSession [0; 1; 2]) = seqZ 0 3.
Proof.
  assert (chunksAscending (demoStore [0; 1; 2])) as Hasc.
  { intros id s. unfold demoStore. simpl.
    intros [<- <-]%lookup_singleton_Some. simpl. repeat constructor. }
  assert (chunksInRange (demoStore [0; 1; 2])) as Hin.
  { intros id s. unfold demoStore. simpl.
    intros [<- <-]%lookup_singleton_Some. simpl. repeat (constructor; [lia|]). constructor. }
  assert (chunksBacked (demoStore [0; 1; 2]) completeDisk) as Hb.
  { intros id s i. unfold demoStore. simpl.
    intros [<- <-]%lookup_singleton_Some. simpl.
    intros [->|[->| ->%list_elem_of_singleton]%elem_of_cons]%elem_of_cons; reflexivity. }
  exact (proj2 (complete_finds_every_chunk_file "s1" (demoStore [0; 1; 2]) completeDisk
                  Hasc Hin Hb) (demoSession [0; 1; 2]) eq_refl eq_refl).
Defined.

(** ** Opening a session *)



(** ** Retries and reordering of chunks *)

Lemma markAll_session sid (idxs : list Z) st s :
  MemStorage.uploadSessions st !! sid = Some s →
  MemStorage.uploadSessions (markAll (pair sid <$> idxs) st)
  = <[sid := foldl marked s idxs]> (MemStorage.uploadSessions st).
Proof.
  revert st s. induction idxs as [|i idxs IH]; intros st s Hs.
  - simpl. by rewrite insert_id.
  - unfold markAll in *. simpl.
    destruct (markChunkUploaded_Some sid i st s Hs) as (_ & Hses & _).
    rewrite (IH _ (marked s i)) by (by rewrite Hses, lookup_insert_eq).
    by rewrite Hses, insert_insert_eq.
Qed.

Lemma foldl_marked_spec s (idxs : list Z) :
  ascending (UploadSession.uploadedChunks s) →
  foldl marked s idxs
  = UploadSession.with_uploadedChunks s (UploadSession.uploadedChunks (foldl marked s idxs))
  ∧ ascending (UploadSession.uploadedChunks (foldl marked s idxs))
  ∧ ∀ i, i ∈ UploadSession.uploadedChunks (foldl marked s idxs)
         ↔ i ∈ UploadSession.uploadedChunks s ∨ i ∈ idxs.
Proof.
  revert s. induction idxs as [|x idxs IH]; intros s Hasc; simpl.
  - split_and!; [by destruct s|done|]. intros i. rewrite elem_of_nil. tauto.
  - destruct (IH (marked s x) (marked_ascending s x Hasc)) as (Heq & Ha & Hel).
    split_and!; [|done|].
    + rewrite Heq at 1. unfold marked. by destruct (JS.includes _ _).
    + intros i. rewrite Hel, marked_elem, elem_of_cons. tauto.
Qed.

(** X5. For the array of received indices only the set of indices that
    were marked counts: two sequences of [markChunkUploaded] calls on a
    session that name the same indices, in any order and with any number
    of repeats, leave the same sessions in the store, and the array is the
    ascending list of the indices received before or named by the calls. *)
Theorem markChunkUploaded_order_and_retries_irrelevant
    (st : MemStorage.t) (sid : string) (s : UploadSession.t) (idxs idxs' : list Z) :
  MemStorage.uploadSessions st !! sid = Some s →
  ascending (UploadSession.uploadedChunks s) →
  (∀ i, i ∈ idxs ↔ i ∈ idxs') →
  MemStorage.uploadSessions (markAll (pair sid <$> idxs) st)
  = MemStorage.uploadSessions (markAll (pair sid <$> idxs') st)
  ∧ ∃ s', MemStorage.uploadSessions (markAll (pair sid <$> idxs) st) !! sid = Some s'
          ∧ ascending (UploadSession.uploadedChunks s')
          ∧ (∀ i, i ∈ UploadSession.uploadedChunks s'
                  ↔ i ∈ UploadSession.uploadedChunks s ∨ i ∈ idxs)
          ∧ ∀ id, id ≠ sid →
                  MemStorage.uploadSessions (markAll (pair sid <$> idxs) st) !! id
                  = MemStorage.uploadSessions st !! id.
Proof.
  intros Hs Hasc Hsame.
  rewrite !(markAll_session sid _ st s Hs).
  destruct (foldl_marked_spec s idxs Hasc) as (Heq & Ha & Hel).
  destruct (foldl_marked_spec s idxs' Hasc) as (Heq' & Ha' & Hel').
  split.
  - f_equal. rewrite Heq, Heq'. f_equal. apply ascending_ext; [done..|].
    intros i. rewrite Hel, Hel', Hsame. tauto.
  - eexists. rewrite lookup_insert_eq. split_and!; [done..|].
    intros id Hid. by rewrite lookup_insert_ne.
Qed.

Lemma markChunkUploaded_order_and_retries_irrelevant_witness :
  MemStorage.uploadSessions (markAll (pair "s1" <$> [2; 1; 2]) (demoStore [0]))
  = MemStorage.uploadSessions (markAll (pair "s1" <$> [1; 1; 2]) (demoStore [0])).
Proof.
  refine (proj1 (markChunkUploaded_order_and_retries_irrelevant
                   (demoStore [0]) "s1" (demoSession [0]) [2; 1; 2] [1; 1; 2] _ _ _)).
  - reflexivity.
  - repeat constructor.
  - intros i. rewrite !elem_of_cons, !elem_of_nil. tauto.
Defined.

(** ** The two cleanup passes *)

Lemma map_size_filter_complement {A} (P : string * A → Prop) `{!∀ x, Decision (P x)}
    (m : gmap string A) :
  (size (filter P m) + size (filter (λ x, ¬ P x) m) = size m)%nat.
Proof.
  rewrite <- (map_filter_union_complement P m) at 3.
  by rewrite map_size_disj_union by apply map_disjoint_filter_complement.
Qed.

Lemma gc_lookup active expiry now d name :
  Disk.chunks (StorageCleanup.cleanupOrphanedSessions active expiry now d).2 !! name
  = e ← Disk.chunks d !! name;
    if StorageCleanup.removes active expiry now name e then None else Some e.
Proof.
  simpl. rewrite map_lookup_filter.
  destruct (Disk.chunks d !! name) as [e|]; simpl; [|done].
  destruct (StorageCleanup.removes active expiry now name e) eqn:Hr; case_guard; simpl in *;
    try done; congruence.
Qed.

(** X6. A run of [cleanupOrphanedSessions] only ever takes directories
    whose name does not start with [temp_] out of [chunks/]: plain files
    and [temp_] entries stay, whatever is kept is kept unchanged, and
    [uploads/] and [transcoded/] are not touched.  The number it returns
    is the number of entries that are gone, and a second run at the same
    instant with the same arguments removes nothing. *)
Theorem cleanupOrphanedSessions_frame
    (active : gset string) (expiry : option (gmap string Z)) (now : Z) (d : Disk.t) :
  let cleaned := (StorageCleanup.cleanupOrphanedSessions active expiry now d).1 in
  let d' := (StorageCleanup.cleanupOrphanedSessions active expiry now d).2 in
  Disk.uploads d' = Disk.uploads d
  ∧ Disk.transcoded d' = Disk.transcoded d
  ∧ Disk.chunks d' ⊆ Disk.chunks d
  ∧ (∀ name e, Disk.chunks d !! name = Some e →
               Disk.isDirectory e = false ∨ JS.startsWith name "temp_" = true →
               Disk.chunks d' !! name = Some e)
  ∧ cleaned = Z.of_nat (size (Disk.chunks d)) - Z.of_nat (size (Disk.chunks d'))
  ∧ StorageCleanup.cleanupOrphanedSessions active expiry now d' = (0, d')
  ∧ Cleanup.tempFileCount d' = Cleanup.tempFileCount d
  ∧ Cleanup.sessionDirCount d' = Cleanup.sessionDirCount d - cleaned.
Proof.
  intros cleaned d'.
  set (P := λ kv : string * Disk.entry,
              StorageCleanup.removes active expiry now kv.1 kv.2 = true).
  assert (Disk.chunks d' = filter (λ kv, ¬ P kv) (Disk.chunks d)) as Hchunks by done.
  assert (cleaned = Z.of_nat (size (filter P (Disk.chunks d)))) as Hcleaned by done.
  pose proof (map_size_filter_complement P (Disk.chunks d)) as Hsize.
  assert (∀ name e, Disk.chunks d' !! name = Some e →
                    Disk.chunks d !! name = Some e
                    ∧ StorageCleanup.removes active expiry now name e = false) as Hkept.
  { intros name e. unfold d'. rewrite gc_lookup.
    destruct (Disk.chunks d !! name) as [e0|]; simpl; [|done].
    destruct (StorageCleanup.removes active expiry now name e0) eqn:Hr; [done|].
    by intros [= <-]. }
  assert (∀ name e, Disk.chunks d !! name = Some e →
                    StorageCleanup.removes active expiry now name e = false →
                    Disk.chunks d' !! name = Some e) as Hkeep.
  { intros name e He Hr. unfold d'. by rewrite gc_lookup, He; simpl; rewrite Hr. }
  assert (∀ name e, StorageCleanup.removes active expiry now name e = true →
                    JS.startsWith name "temp_" = false ∧ Disk.isDirectory e = true) as Hrem.
  { intros name e Hr. unfold StorageCleanup.removes in Hr. destruct e; [done|].
    apply andb_true_iff in Hr as [Ht _]. by destruct (JS.startsWith name "temp_"). }
  assert (filter P (Disk.chunks d') = ∅) as Hnone.
  { apply map_empty_filter. intros name e He HP. unfold P in HP. simpl in HP.
    destruct (Hkept name e He). congruence. }
  assert (filter (λ kv, ¬ P kv) (Disk.chunks d') = Disk.chunks d') as Hall.
  { apply map_filter_id. intros name e He HP. unfold P in HP. simpl in HP.
    destruct (Hkept name e He). congruence. }
  split_and!.
  - done.
  - done.
  - rewrite Hchunks. apply map_filter_subseteq.
  - intros name e He Hwhy. apply Hkeep; [done|].
    destruct (StorageCleanup.removes active expiry now name e) eqn:Hr; [|done].
    destruct (Hrem name e Hr). destruct Hwhy; congruence.
  - rewrite Hcleaned, Hchunks. lia.
  - change (StorageCleanup.cleanupOrphanedSessions active expiry now d')
      with (Z.of_nat (size (filter P (Disk.chunks d'))),
            Disk.set_chunks d' (filter (λ kv, ¬ P kv) (Disk.chunks d'))).
    rewrite Hnone, Hall, map_size_empty. by destruct d'.
  - unfold Cleanup.tempFileCount. f_equal. f_equal.
    apply map_filter_strong_ext. intros name e. simpl. split.
    + intros [Ht He]. split; [done|]. by apply Hkept.
    + intros [Ht He]. split; [done|]. apply Hkeep; [done|].
      destruct (StorageCleanup.removes active expiry now name e) eqn:Hr; [|done].
      destruct (Hrem name e Hr). congruence.
  - unfold Cleanup.sessionDirCount. rewrite Hcleaned.
    set (S := λ kv : string * Disk.entry,
                JS.startsWith kv.1 "temp_" = false ∧ Disk.isDirectory kv.2 = true).
    pose proof (map_size_filter_complement P (filter S (Disk.chunks d))) as Hs.
    assert (filter P (filter S (Disk.chunks d)) = filter P (Disk.chunks d)) as E1.
    { apply map_filter_strong_ext. intros name e. rewrite map_lookup_filter_Some.
      unfold P, S. simpl. split; [tauto|]. intros [HP He]. destruct (Hrem name e HP). tauto. }
    assert (filter (λ x, ¬ P x) (filter S (Disk.chunks d)) = filter S (Disk.chunks d')) as E2.
    { apply map_filter_strong_ext. intros name e. rewrite map_lookup_filter_Some.
      unfold P, S. simpl. split.
      - intros (HP & He & HS). split; [done|]. apply Hkeep; [done|].
        by destruct (StorageCleanup.removes active expiry now name e).
      - intros (HS & He). destruct (Hkept name e He) as [? Hr].
        split; [congruence|]. tauto. }
    rewrite E1, E2 in Hs. lia.
Qed.

Lemma cleanupOrphanedSessions_frame_witness :
  StorageCleanup.cleanupOrphanedSessions {["s1"]} None 86400000
    (StorageCleanup.cleanupOrphanedSessions {["s1"]} None 86400000 staleDisk).2
  = (0, (StorageCleanup.cleanupOrphanedSessions {["s1"]} None 86400000 staleDisk).2).
Proof.
  exact (proj1 (proj2 (proj2 (proj2 (proj2 (proj2
    (cleanupOrphanedSessions_frame {["s1"]} None 86400000 staleDisk))))))).
Defined.

Lemma temp_lookup fileMtime now d name :
  Disk.chunks (Cleanup.cleanupTempFiles fileMtime now d).2 !! name
  = e ← Disk.chunks d !! name;
    if Cleanup.unlinked fileMtime now name e then None else Some e.
Proof.
  simpl. rewrite map_lookup_filter.
  destruct (Disk.chunks d !! name) as [e|]; simpl; [|done].
  destruct (Cleanup.unlinked fileMtime now name e) eqn:Hr; case_guard; simpl in *;
    try done; congruence.
Qed.

Lemma temp_chunkExists fileMtime now d sid i :
  Disk.chunkExists (Cleanup.cleanupTempFiles fileMtime now d).2 sid i
  = Disk.chunkExists d sid i.
Proof.
  unfold Disk.chunkExists. rewrite temp_lookup.
  destruct (Disk.chunks d !! sid) as [[sz|m files]|]; simpl.
  - by destruct (Cleanup.unlinked _ _ _ _).
  - unfold Cleanup.unlinked. simpl. by rewrite andb_false_r.
  - done.
Qed.

(** X7. [cleanupTempFiles] removes from [chunks/] exactly the plain
    files whose name starts with [temp_] and that are older than five
    minutes (or cannot be read): a temp file multer wrote less than five
    minutes ago stays, and so does every directory, hence every chunk
    file of every session.  The number it returns counts, besides the
    files removed, the old directories whose name starts with [temp_],
    which it fails to unlink; it is never more than the number of [temp_]
    entries. *)
Theorem cleanupTempFiles_removes_old_temp_files
    (fileMtime : string → option Z) (now : Z) (d : Disk.t) :
  let cleaned := (Cleanup.cleanupTempFiles fileMtime now d).1 in
  let d' := (Cleanup.cleanupTempFiles fileMtime now d).2 in
  Disk.uploads d' = Disk.uploads d
  ∧ Disk.transcoded d' = Disk.transcoded d
  ∧ (∀ name, Disk.chunks d' !! name = None ↔
             Disk.chunks d !! name = None
             ∨ ∃ size, Disk.chunks d !! name = Some (Disk.File size)
                       ∧ JS.startsWith name "temp_" = true
                       ∧ ∀ m, fileMtime name = Some m →
                              now - m > StorageCleanup.TEMP_FILE_MAX_AGE_MS)
  ∧ (∀ name e, Disk.chunks d' !! name = Some e → Disk.chunks d !! name = Some e)
  ∧ (∀ sid i, Disk.chunkExists d' sid i = Disk.chunkExists d sid i)
  ∧ Z.of_nat (size (Disk.chunks d)) - Z.of_nat (size (Disk.chunks d')) ≤ cleaned
    ≤ Cleanup.tempFileCount d
  ∧ cleaned - (Z.of_nat (size (Disk.chunks d)) - Z.of_nat (size (Disk.chunks d')))
    = Z.of_nat (size (filter (λ kv, Cleanup.counted fileMtime now kv.1 kv.2 = true
                                    ∧ Disk.isDirectory kv.2 = true) (Disk.chunks d))).
Proof.
  intros cleaned d'.
  set (C := λ kv : string * Disk.entry, Cleanup.counted fileMtime now kv.1 kv.2 = true).
  set (U := λ kv : string * Disk.entry, Cleanup.unlinked fileMtime now kv.1 kv.2 = true).
  set (T := λ kv : string * Disk.entry, JS.startsWith kv.1 "temp_" = true).
  set (D := λ kv : string * Disk.entry, C kv ∧ Disk.isDirectory kv.2 = true).
  assert (cleaned = Z.of_nat (size (filter C (Disk.chunks d)))) as Hcleaned by done.
  assert (Disk.chunks d' = filter (λ kv, ¬ U kv) (Disk.chunks d)) as Hchunks by done.
  pose proof (map_size_filter_complement U (Disk.chunks d)) as HsU.
  pose proof (map_size_filter_complement U (filter C (Disk.chunks d))) as HsC.
  pose proof (map_size_filter_complement C (filter T (Disk.chunks d))) as HsT.
  assert (filter U (filter C (Disk.chunks d)) = filter U (Disk.chunks d)) as E1.
  { apply map_filter_strong_ext. intros name e. rewrite map_lookup_filter_Some.
    unfold U, C, Cleanup.unlinked. simpl. split; [tauto|]. intros [HU He].
    apply andb_true_iff in HU as [? ?]. rewrite andb_true_iff. tauto. }
  assert (filter (λ kv, ¬ U kv) (filter C (Disk.chunks d)) = filter D (Disk.chunks d)) as E2.
  { apply map_filter_strong_ext. intros name e. rewrite map_lookup_filter_Some.
    unfold U, D, C, Cleanup.unlinked. simpl.
    destruct (Cleanup.counted fileMtime now name e), (Disk.isDirectory e); simpl;
      split; intros; destruct_and?; split_and?; try done. }
  assert (filter C (filter T (Disk.chunks d)) = filter C (Disk.chunks d)) as E3.
  { apply map_filter_strong_ext. intros name e. rewrite map_lookup_filter_Some.
    unfold C, T, Cleanup.counted. simpl. split; [tauto|]. intros [HC He].
    pose proof HC as [? ?]%andb_true_iff. tauto. }
  rewrite E1, E2 in HsC. rewrite E3 in HsT.
  split_and!.
  - done.
  - done.
  - intros name. unfold d'. rewrite temp_lookup.
    destruct (Disk.chunks d !! name) as [e|] eqn:He; simpl; [|by split; [left|]].
    unfold Cleanup.unlinked, Cleanup.counted, Cleanup.tooOld, Cleanup.mtimeOf.
    destruct e as [sz|mt files]; simpl.
    + rewrite andb_true_r. destruct (JS.startsWith name "temp_"); simpl.
      * destruct (fileMtime name) as [m|].
        -- case_bool_decide as Hold.
           ++ split; [|done]. intros _. right. exists sz. split_and!; try done.
              by intros ? [= <-].
           ++ split; [done|]. intros [?|(sz' & _ & _ & Hm)]; [done|].
              by specialize (Hm m eq_refl).
        -- split; [|done]. intros _. right. exists sz. by split_and!.
      * split; [done|]. by intros [?|(? & _ & ? & _)].
    + rewrite andb_false_r. split; [done|]. by intros [?|(? & ? & _)].
  - intros name e. unfold d'. rewrite temp_lookup.
    destruct (Disk.chunks d !! name) as [e0|]; simpl; [|done].
    by destruct (Cleanup.unlinked fileMtime now name e0).
  - intros sid i. apply temp_chunkExists.
  - rewrite Hcleaned, Hchunks. lia.
  - rewrite Hcleaned.
    change (Cleanup.tempFileCount d) with (Z.of_nat (size (filter T (Disk.chunks d)))). lia.
  - rewrite Hcleaned, Hchunks.
    match goal with
    | |- _ = Z.of_nat (size ?m) => change m with (filter D (Disk.chunks d))
    end. lia.
Qed.

Lemma cleanupTempFiles_removes_old_temp_files_witness :
  Disk.chunkExists (Cleanup.cleanupTempFiles (λ _, Some 0) 400000 demoDisk).2 "s1" 1
  = Disk.chunkExists demoDisk "s1" 1.
Proof.
  exact (proj1 (proj2 (proj2 (proj2 (proj2
    (cleanupTempFiles_removes_old_temp_files (λ _, Some 0) 400000 demoDisk))))) "s1" 1).
Defined.

Lemma getSessionExpiryMap_lookup sessions name expiresAt :
  Routes.getSessionExpiryMap sessions !! name = Some expiresAt →
  ∃ s, s ∈ sessions ∧ UploadSession.id s = name ∧ UploadSession.expiresAt s = expiresAt.
Proof.
  unfold Routes.getSessionExpiryMap.
  assert (∀ m : gmap string Z,
            foldl (λ m session,
                     <[UploadSession.id session := UploadSession.expiresAt session]> m)
                  m sessions !! name = Some expiresAt →
            (∃ s, s ∈ sessions ∧ UploadSession.id s = name
                  ∧ UploadSession.expiresAt s = expiresAt)
            ∨ m !! name = Some expiresAt) as Hgen.
  { induction sessions as [|s sessions IH]; intros m; simpl; [by right|].
    intros [(s' & Hin & Hid & He)|Hm]%IH.
    - left. exists s'. split; [by apply list_elem_of_further|done].
    - destruct (decide (UploadSession.id s = name)) as [Heq|Hne].
      + rewrite Heq, lookup_insert_eq in Hm. injection Hm as Hm.
        left. exists s. split; [apply list_elem_of_here|done].
      + rewrite lookup_insert_ne in Hm by done. by right. }
  intros [?|Hm]%Hgen; [done|]. by rewrite lookup_empty in Hm.
Qed.

Lemma runFullCleanup_disk fileMtime active expiry now1 now2 d :
  (Cleanup.runFullCleanup fileMtime active expiry now1 now2 d).2
  = (StorageCleanup.cleanupOrphanedSessions active expiry now2
       (Cleanup.cleanupTempFiles fileMtime now1 d).2).2.
Proof. done. Qed.

Lemma gc_chunkExists_kept active expiry now d name :
  (∀ m files, Disk.chunks d !! name = Some (Disk.Dir m files) →
              StorageCleanup.shouldClean active expiry now name m = false) →
  ∀ i, Disk.chunkExists (StorageCleanup.cleanupOrphanedSessions active expiry now d).2 name i
       = Disk.chunkExists d name i.
Proof.
  intros Hkeep i. unfold Disk.chunkExists. rewrite gc_lookup.
  destruct (Disk.chunks d !! name) as [[sz|m files]|] eqn:He; simpl; [done| |done].
  by rewrite (Hkeep m files eq_refl), andb_false_r.
Qed.

(** X8. The cleanup the server runs leaves uploads in progress alone.
    The periodic run, which hands over the listed sessions with their
    expiry times, keeps every chunk file of a listed session as long as
    none of the listed sessions has expired; so if every session that has
    received a chunk is listed, each received index still has its chunk
    file afterwards.  The manual run (POST /api/storage/cleanup), which
    hands over the ids only, keeps every chunk file of a listed session
    whatever its expiry time. *)
Theorem runFullCleanup_spares_live_uploads
    (fileMtime : string → option Z) (sessions : list UploadSession.t)
    (now1 now2 : Z) (st : MemStorage.t) (d : Disk.t) :
  let periodic :=
    (Cleanup.runFullCleanup fileMtime (Routes.getActiveSessionIds sessions)
       (Some (Routes.getSessionExpiryMap sessions)) now1 now2 d).2 in
  let manual :=
    (Cleanup.runFullCleanup fileMtime (Routes.getActiveSessionIds sessions)
       None now1 now2 d).2 in
  (∀ s i, s ∈ sessions →
          Disk.chunkExists manual (UploadSession.id s) i
          = Disk.chunkExists d (UploadSession.id s) i)
  ∧ ((∀ s, s ∈ sessions → now2 ≤ UploadSession.expiresAt s) →
     (∀ s i, s ∈ sessions →
             Disk.chunkExists periodic (UploadSession.id s) i
             = Disk.chunkExists d (UploadSession.id s) i)
     ∧ (chunksBacked st d →
        (∀ id s, MemStorage.uploadSessions st !! id = Some s →
                 UploadSession.uploadedChunks s ≠ [] →
                 ∃ s', s' ∈ sessions ∧ UploadSession.id s' = id) →
        chunksBacked st periodic)).
Proof.
  intros periodic manual.
  assert (∀ s, s ∈ sessions →
               UploadSession.id s ∈ Routes.getActiveSessionIds sessions) as Hact.
  { intros s Hs. unfold Routes.getActiveSessionIds.
    apply elem_of_list_to_set, list_elem_of_fmap. by exists s. }
  split.
  - intros s i Hs. unfold manual. rewrite runFullCleanup_disk.
    rewrite gc_chunkExists_kept; [apply temp_chunkExists|].
    intros m files _. unfold StorageCleanup.shouldClean. simpl.
    by rewrite bool_decide_eq_true_2 by by apply Hact.
  - intros Hlive.
    assert (∀ s i, s ∈ sessions →
                   Disk.chunkExists periodic (UploadSession.id s) i
                   = Disk.chunkExists d (UploadSession.id s) i) as Hkept.
    { intros s i Hs. unfold periodic. rewrite runFullCleanup_disk.
      rewrite gc_chunkExists_kept; [apply temp_chunkExists|].
      intros m files _. unfold StorageCleanup.shouldClean. simpl.
      pose proof (Hact s Hs) as Hdom. rewrite <- getSessionExpiryMap_dom in Hdom.
      apply elem_of_dom in Hdom as [e He]. rewrite He.
      destruct (getSessionExpiryMap_lookup _ _ _ He) as (s' & Hs' & _ & <-).
      apply bool_decide_eq_false_2. specialize (Hlive s' Hs'). lia. }
    split; [done|]. intros Hb Hlisted id s i Hs Hi.
    destruct (Hlisted id s Hs) as (s' & Hs' & <-).
    { intros Hnil. rewrite Hnil in Hi. by apply elem_of_nil in Hi. }
    rewrite Hkept by done. by apply (Hb _ s).
Qed.

Lemma runFullCleanup_spares_live_uploads_witness :
  Disk.chunkExists
    (Cleanup.runFullCleanup (λ _, None) (Routes.getActiveSessionIds [demoSession [0]])
       (Some (Routes.getSessionExpiryMap [demoSession [0]])) 86400000 86400000 staleDisk).2
    "s1" 0
  = Disk.chunkExists staleDisk "s1" 0.
Proof.
  refine (proj1 (proj2 (runFullCleanup_spares_live_uploads (λ _, None) [demoSession [0]]
                          86400000 86400000 (demoStore [0]) staleDisk) _)
            (demoSession [0]) 0 _).
  - intros s ->%list_elem_of_singleton. simpl. lia.
  - apply list_elem_of_here.
Defined.
Lemma checkDiskSpace_hasSpace totalSize :
  (Cleanup.checkDiskSpace totalSize).1 = true ↔ totalSize ≤ 400 * 1024 * 1024.
Proof.
  unfold Cleanup.checkDiskSpace, StorageCleanup.MIN_FREE_SPACE_MB. simpl.
  rewrite Qle_bool_iff.
  assert ((500 - inject_Z totalSize / 1024 / 1024 ==
           inject_Z (500 * 1048576 - totalSize) / 1048576)%Q) as Heq.
  { unfold Qeq, Qminus, Qplus, Qopp, Qdiv, Qmult, Qinv, inject_Z. simpl. lia. }
  split.
  - intros Hle.
    destruct (Q.max_spec 0 (500 - inject_Z totalSize / 1024 / 1024)%Q) as [[_ Hm]|[_ Hm]];
      rewrite Hm in Hle; [|by apply Qle_bool_iff in Hle].
    rewrite Heq in Hle. unfold Qle, Qdiv, Qmult, Qinv, inject_Z in Hle. simpl in Hle. lia.
  - intros Hsz. eapply Qle_trans; [|apply Q.le_max_r].
    rewrite Heq. unfold Qle, Qdiv, Qmult, Qinv, inject_Z. simpl. lia.
Qed.


(** ** POST /api/upload/chunk as a whole *)

Lemma temp_lookup_Some fileMtime now d name e :
  Disk.chunks (Cleanup.cleanupTempFiles fileMtime now d).2 !! name = Some e →
  Disk.chunks d !! name = Some e.
Proof.
  rewrite temp_lookup. destruct (Disk.chunks d !! name) as [e0|]; simpl; [|done].
  by destruct (Cleanup.unlinked fileMtime now name e0).
Qed.

Lemma temp_lookup_None fileMtime now d name :
  Disk.chunks d !! name = None →
  Disk.chunks (Cleanup.cleanupTempFiles fileMtime now d).2 !! name = None.
Proof. intros H. by rewrite temp_lookup, H. Qed.

Lemma multerStore_chunkExists tmp size d sid i :
  Disk.chunks d !! tmp = None →
  Disk.chunkExists (Upload.multerStore tmp size d) sid i = Disk.chunkExists d sid i.
Proof.
  intros Hfresh. unfold Disk.chunkExists, Upload.multerStore. simpl.
  destruct (decide (sid = tmp)) as [->|Hne].
  - by rewrite lookup_insert_eq, Hfresh.
  - by rewrite lookup_insert_ne.
Qed.

Lemma manual_cleanup_keeps fileMtime (active : gset string) now1 now2 d name i :
  name ∈ active →
  Disk.chunkExists (Cleanup.runFullCleanup fileMtime active None now1 now2 d).2 name i
  = Disk.chunkExists d name i.
Proof.
  intros Hact. rewrite runFullCleanup_disk.
  rewrite gc_chunkExists_kept; [apply temp_chunkExists|].
  intros m files _. unfold StorageCleanup.shouldClean. simpl.
  by rewrite bool_decide_eq_true_2.
Qed.

Lemma handleChunkUpload_invariants w req size st d :
  chunksAscending st → chunksInRange st → chunksBacked st d →
  (∀ tmp, Routes.file req = Some tmp → Disk.chunks d !! tmp = None) →
  (ChunkRoute.multer w = ChunkRoute.Quota →
   ∀ id s, MemStorage.uploadSessions st !! id = Some s →
           UploadSession.uploadedChunks s ≠ [] →
           id ∈ Routes.getActiveSessionIds (ChunkRoute.activeSessions w)) →
  chunksAscending (ChunkRoute.handleChunkUpload w req size st d).1.2
  ∧ chunksInRange (ChunkRoute.handleChunkUpload w req size st d).1.2
  ∧ chunksBacked (ChunkRoute.handleChunkUpload w req size st d).1.2
                 (ChunkRoute.handleChunkUpload w req size st d).2.
Proof.
  intros Hasc Hin Hb Hfresh Hquota. unfold ChunkRoute.handleChunkUpload.
  set (dc := (Cleanup.cleanupTempFiles (ChunkRoute.fileMtime w) (ChunkRoute.cleanupAt w) d).2).
  assert (chunksBacked st dc) as Hbc.
  { intros id s i Hs Hi. unfold dc. rewrite temp_chunkExists. by apply (Hb id s). }
  destruct (Cleanup.checkDiskSpace (ChunkRoute.totalSize w)).1; cbn [negb];
    [|by apply postUploadChunk_invariants].
  destruct (ChunkRoute.multer w) eqn:Hm.
  - apply postUploadChunk_invariants; [done..|].
    destruct (Routes.file req) as [tmp|] eqn:Hf; [|done].
    intros id s i Hs Hi. rewrite multerStore_chunkExists; [by apply (Hbc id s)|].
    apply temp_lookup_None. by apply Hfresh.
  - by apply postUploadChunk_invariants.
  - apply postUploadChunk_invariants; [done..|]. intros id s i Hs Hi.
    rewrite manual_cleanup_keeps; [by apply (Hbc id s)|].
    apply (Hquota eq_refl id s Hs). intros Hnil. rewrite Hnil in Hi.
    by apply elem_of_nil in Hi.
  - by apply postUploadChunk_invariants.
Qed.

(** X9. POST /api/upload/chunk as a whole (the temp-file pass and the
    space check of the preflight, multer, the handler, the cleanup of the
    quota branch), whatever the request, keeps three facts about every
    session: the received indices are strictly ascending, they lie in
    [0, totalChunks), and each has its chunk file in the session's
    directory.  So a session never holds more than totalChunks indices and
    its progress never passes 100.  For the third fact the name multer
    picks is new, and in the quota branch the sessions holding chunks are
    among the active ones handed to the cleanup. *)
Theorem handleChunkUpload_keeps_sessions_sound
    (w : ChunkRoute.Env) (req : Routes.ChunkRequest) (size : Z)
    (st : MemStorage.t) (d : Disk.t) :
  chunksAscending st → chunksInRange st → chunksBacked st d →
  (∀ tmp, Routes.file req = Some tmp → Disk.chunks d !! tmp = None) →
  (ChunkRoute.multer w = ChunkRoute.Quota →
   ∀ id s, MemStorage.uploadSessions st !! id = Some s →
           UploadSession.uploadedChunks s ≠ [] →
           id ∈ Routes.getActiveSessionIds (ChunkRoute.activeSessions w)) →
  let st' := (ChunkRoute.handleChunkUpload w req size st d).1.2 in
  let d' := (ChunkRoute.handleChunkUpload w req size st d).2 in
  chunksAscending st' ∧ chunksInRange st' ∧ chunksBacked st' d'
  ∧ ∀ id s, MemStorage.uploadSessions st' !! id = Some s →
            Z.of_nat (length (UploadSession.uploadedChunks s))
            ≤ Z.max 0 (UploadSession.totalChunks s)
            ∧ (0 < UploadSession.totalChunks s → (MemStorage.progressOf s <= 100)%Q).
Proof.
  intros Hasc Hin Hb Hfresh Hquota st' d'.
  destruct (handleChunkUpload_invariants w req size st d Hasc Hin Hb Hfresh Hquota)
    as (Ha' & Hi' & Hb').
  fold st' in Ha', Hi', Hb'. fold d' in Hb'.
  split_and!; try done. intros id s Hs.
  pose proof (ascending_range_length _ 0 _ (Ha' id s Hs) (Hi' id s Hs)) as Hlen.
  rewrite Z.sub_0_r in Hlen. split; [done|]. intros Hpos.
  unfold MemStorage.progressOf, Qle, Qdiv, Qmult, Qinv, inject_Z. simpl.
  destruct (UploadSession.totalChunks s) as [|p|p]; try lia. simpl. nia.
Qed.

Lemma handleChunkUpload_keeps_sessions_sound_witness :
  chunksBacked
    (ChunkRoute.handleChunkUpload (demoEnv 1)
       (Routes.mkChunkRequest (Some "s1") (Some "1") (Some "temp_9_z")) 7
       (demoStore [0]) demoDisk).1.2
    (ChunkRoute.handleChunkUpload (demoEnv 1)
       (Routes.mkChunkRequest (Some "s1") (Some "1") (Some "temp_9_z")) 7
       (demoStore [0]) demoDisk).2.
Proof.
  refine (proj1 (proj2 (proj2
    (handleChunkUpload_keeps_sessions_sound (demoEnv 1)
       (Routes.mkChunkRequest (Some "s1") (Some "1") (Some "temp_9_z")) 7
       (demoStore [0]) demoDisk _ _ _ _ _)))).
  - intros id s. unfold demoStore. simpl.
    intros [<- <-]%lookup_singleton_Some. simpl. repeat constructor.
  - intros id s. unfold demoStore. simpl.
    intros [<- <-]%lookup_singleton_Some. simpl. repeat constructor; lia.
  - intros id s i. unfold demoStore. simpl.
    intros [<- <-]%lookup_singleton_Some. simpl.
    intros ->%list_elem_of_singleton. reflexivity.
  - intros tmp [= <-]. reflexivity.
  - discriminate.
Defined.

(** X10. The server takes new chunks only while the three storage
    directories hold at most 400 MiB: [checkDiskSpace] reports space
    exactly then, and its estimate of free space lies between 0 and 500.
    Above the limit POST /api/upload/chunk answers 507 with code
    STORAGE_FULL, not retryable, whatever the request and whatever multer
    would have said; the store is as before and the disk is the one the
    temp-file pass of the preflight leaves, with every chunk file in
    place and the file part of the request not stored. *)
Theorem chunk_refused_when_storage_full
    (w : ChunkRoute.Env) (req : Routes.ChunkRequest) (size : Z)
    (st : MemStorage.t) (d : Disk.t) :
  ((Cleanup.checkDiskSpace (ChunkRoute.totalSize w)).1 = true
   ↔ ChunkRoute.totalSize w ≤ 400 * 1024 * 1024)
  ∧ (0 <= (Cleanup.checkDiskSpace (ChunkRoute.totalSize w)).2)%Q
  ∧ (0 ≤ ChunkRoute.totalSize w →
     ((Cleanup.checkDiskSpace (ChunkRoute.totalSize w)).2 <= 500)%Q)
  ∧ (400 * 1024 * 1024 < ChunkRoute.totalSize w →
     ChunkRoute.handleChunkUpload w req size st d
     = (Response.mk 507
          (Response.FailureCode "Insufficient storage space" "STORAGE_FULL" (Some false)),
        st,
        (Cleanup.cleanupTempFiles (ChunkRoute.fileMtime w) (ChunkRoute.cleanupAt w) d).2)
     ∧ ∀ sid i, Disk.chunkExists (ChunkRoute.handleChunkUpload w req size st d).2 sid i
                = Disk.chunkExists d sid i).
Proof.
  split_and!.
  - apply checkDiskSpace_hasSpace.
  - simpl. apply Q.le_max_l.
  - intros Hpos. simpl. apply Q.max_lub; [done|].
    unfold Qle, Qminus, Qplus, Qopp, Qdiv, Qmult, Qinv, inject_Z. simpl. lia.
  - intros Hfull.
    assert (ChunkRoute.handleChunkUpload w req size st d
            = (Response.mk 507
                 (Response.FailureCode "Insufficient storage space" "STORAGE_FULL"
                    (Some false)),
               st,
               (Cleanup.cleanupTempFiles (ChunkRoute.fileMtime w)
                  (ChunkRoute.cleanupAt w) d).2)) as Heq.
    { unfold ChunkRoute.handleChunkUpload.
      destruct ((Cleanup.checkDiskSpace (ChunkRoute.totalSize w)).1) eqn:Hs; [|done].
      apply checkDiskSpace_hasSpace in Hs. lia. }
    split; [done|]. intros sid i. rewrite Heq. apply temp_chunkExists.
Qed.

Lemma chunk_refused_when_storage_full_witness :
  Response.status
    (ChunkRoute.handleChunkUpload fullEnv demoRequest 7 (demoStore [0]) demoDisk).1.1 = 507.
Proof.
  rewrite (proj1 (proj2 (proj2 (proj2
             (chunk_refused_when_storage_full fullEnv demoRequest 7 (demoStore [0]) demoDisk)))
             ltac:(simpl; lia))).
  reflexivity.
Defined.

(** ** A whole upload: session, chunks in any order, completion check *)

Lemma markChunkUploaded_video sid idx st s v :
  MemStorage.uploadSessions st !! sid = Some s →
  MemStorage.videos st !! UploadSession.videoId s = Some v →
  MemStorage.videos (MemStorage.markChunkUploaded sid idx st).2 !! UploadSession.videoId s
  = Some (Video.spread v
            (Video.mkPartial None (Some (MemStorage.progressOf (marked s idx)))
                             None None None None)).
Proof.
  intros Hs Hv. unfold MemStorage.markChunkUploaded, marked. rewrite Hs.
  destruct (JS.includes idx (UploadSession.uploadedChunks s)); simpl;
    rewrite Hv; simpl; by rewrite lookup_insert_eq.
Qed.

Lemma validIndex_pretty i total :
  0 ≤ i < total → Routes.validIndex (pretty i) total = Some i.
Proof. intros Hi. apply validIndex_Some. split; [apply parseInt_pretty; lia|done]. Qed.

Lemma uploadAll_snoc env sid tempName cs c st d :
  ChunkRoute.uploadAll env sid tempName (cs ++ [c]) st d
  = ChunkRoute.uploadOne env sid tempName (ChunkRoute.uploadAll env sid tempName cs st d) c.
Proof. unfold ChunkRoute.uploadAll. by rewrite foldl_app. Qed.

(** The state of one session while the client's chunks arrive. *)
Lemma uploadAll_accepts env sid tempName (cs : list Client.ChunkInfo) st d s v :
  ChunkRoute.unhindered env →
  sid ≠ "" → (∀ i, tempName i ≠ sid) →
  MemStorage.uploadSessions st !! sid = Some s →
  MemStorage.videos st !! UploadSession.videoId s = Some v →
  (∀ sz, Disk.chunks d !! sid ≠ Some (Disk.File sz)) →
  Forall (λ c, 0 ≤ Client.index c < UploadSession.totalChunks s ∧ Client.size c ≠ 0) cs →
  ascending (UploadSession.uploadedChunks s) →
  (∀ i, i ∈ UploadSession.uploadedChunks s → Disk.chunkExists d sid i = true) →
  let rs := (ChunkRoute.uploadAll env sid tempName cs st d).1.1 in
  let st' := (ChunkRoute.uploadAll env sid tempName cs st d).1.2 in
  let d' := (ChunkRoute.uploadAll env sid tempName cs st d).2 in
  Forall (λ r, Response.status r = 200) rs
  ∧ length rs = length cs
  ∧ (∀ sz, Disk.chunks d' !! sid ≠ Some (Disk.File sz))
  ∧ ∃ s' v',
      MemStorage.uploadSessions st' !! sid = Some s'
      ∧ UploadSession.totalChunks s' = UploadSession.totalChunks s
      ∧ UploadSession.videoId s' = UploadSession.videoId s
      ∧ ascending (UploadSession.uploadedChunks s')
      ∧ (∀ i, i ∈ UploadSession.uploadedChunks s'
              ↔ i ∈ UploadSession.uploadedChunks s ∨ i ∈ Client.index <$> cs)
      ∧ (∀ i, i ∈ UploadSession.uploadedChunks s' → Disk.chunkExists d' sid i = true)
      ∧ MemStorage.videos st' !! UploadSession.videoId s = Some v'
      ∧ Video.hlsUrls v' = Video.hlsUrls v
      ∧ (cs ≠ [] → Video.uploadProgress v' = MemStorage.progressOf s').
Proof.
  intros Hunh Hne Htmp Hs Hv Hdir Hcs Hasc Hback.
  induction cs as [|c cs IH] using rev_ind.
  - simpl. split_and!; try done. exists s, v. split_and!; try done.
    intros i. rewrite elem_of_nil. tauto.
  - apply Forall_app in Hcs as [Hcs Hc]. apply Forall_singleton in Hc as [Hidx Hsize].
    specialize (IH Hcs). simpl in IH.
    rewrite uploadAll_snoc.
    destruct (ChunkRoute.uploadAll env sid tempName cs st d) as [[rs st1] d1]. simpl in IH.
    destruct IH as (Hrs & Hlen & Hdir1 & s1 & v1 & Hs1 & Htot & Hvid & Hasc1 & Hel & Hb1 & Hv1
                    & Hhls1 & _).
    unfold ChunkRoute.uploadOne, ChunkRoute.handleChunkUpload.
    destruct (Hunh (Client.index c)) as [-> ->].
    cbn [negb Routes.file Client.chunkRequest Routes.postUploadChunk].
    set (tmp := tempName (Client.index c)).
    set (dc := (Cleanup.cleanupTempFiles (ChunkRoute.fileMtime (env (Client.index c)))
                  (ChunkRoute.cleanupAt (env (Client.index c))) d1).2).
    set (dm := Upload.multerStore tmp (Client.size c) dc).
    assert (Disk.chunks dm !! tmp = Some (Disk.File (Client.size c))) as Hdm.
    { unfold dm, Upload.multerStore. simpl. by rewrite lookup_insert_eq. }
    assert (Disk.chunks dm !! sid = Disk.chunks dc !! sid) as Hdms.
    { unfold dm, Upload.multerStore. simpl. rewrite lookup_insert_ne; [done|apply Htmp]. }
    assert (∀ i, Disk.chunkExists dm sid i = Disk.chunkExists d1 sid i) as Hdmex.
    { intros i. unfold Disk.chunkExists at 1. rewrite Hdms.
      change (Disk.chunkExists dc sid i = Disk.chunkExists d1 sid i).
      apply temp_chunkExists. }
    destruct (uploadChunk_accepts (ChunkRoute.handlerAt (env (Client.index c)))
                (Client.chunkRequest sid c tmp) st1 dm sid s1
                (pretty (Client.index c)) (Client.index c) tmp (Client.size c))
      as (d2 & Hp & ->); try done.
    { apply validIndex_pretty. by rewrite Htot. }
    { intros sz. rewrite Hdms. intros Hsz%temp_lookup_Some. by apply (Hdir1 sz). }
    destruct (promote_keeps_chunks _ _ _ _ _ _ _ Hdm Hp) as [Hex Hmono].
    destruct (markChunkUploaded_Some sid (Client.index c) st1 s1 Hs1) as (_ & Hses & _).
    simpl. split_and!.
    + apply Forall_app. split; [done|]. by apply Forall_singleton.
    + rewrite !length_app. simpl. lia.
    + intros sz Hsz. unfold Disk.chunkExists in Hex. by rewrite Hsz in Hex.
    + eexists (marked s1 (Client.index c)), _. split_and!.
      * by rewrite Hses, lookup_insert_eq.
      * by rewrite marked_totalChunks.
      * by rewrite marked_videoId.
      * by apply marked_ascending.
      * intros i. rewrite marked_elem, Hel, fmap_app, elem_of_app. simpl.
        rewrite list_elem_of_singleton. tauto.
      * intros i [Hi| ->]%marked_elem; [|done]. apply Hmono.
        rewrite Hdmex. by apply Hb1.
      * rewrite <- Hvid. apply markChunkUploaded_video; [done|by rewrite Hvid].
      * done.
      * done.
Qed.

Lemma upload_in_any_order_state
    (videoId sessionId filename mimeType : string) (fileSize t0 : Z)
    (env : Z → ChunkRoute.Env) (tempName : Z → string)
    (order : list Client.ChunkInfo) (st : MemStorage.t) (d : Disk.t) :
  ChunkRoute.unhindered env →
  filename ≠ "" → 0 < fileSize → sessionId ≠ "" →
  (∀ i, tempName i ≠ sessionId) →
  (∀ sz, Disk.chunks d !! sessionId ≠ Some (Disk.File sz)) →
  order ≡ₚ Client.createChunks fileSize →
  let body := Upload.mkSessionRequest (Some filename) (Some fileSize) (Some mimeType) in
  let created := Upload.postUploadSession videoId sessionId t0 body st in
  let uploaded := ChunkRoute.uploadAll env sessionId tempName order created.2 d in
  created.1.1 = 200
  ∧ Forall (λ r, Response.status r = 200) uploaded.1.1
  ∧ length uploaded.1.1 = length order
  ∧ ∃ s v,
      Routes.completeChecks sessionId uploaded.1.2 uploaded.2 = inr s
      ∧ UploadSession.totalChunks s = Z.of_nat (length order)
      ∧ UploadSession.uploadedChunks s = seqZ 0 (UploadSession.totalChunks s)
      ∧ MemStorage.videos uploaded.1.2 !! videoId = Some v
      ∧ (Video.uploadProgress v == 100)%Q
      ∧ UploadSession.videoId s = videoId
      ∧ Video.hlsUrls v = None
      ∧ MemStorage.uploadSessions uploaded.1.2 !! sessionId = Some s.
Proof.
  intros Hunh Hfn Hsize Hsid Htmp Hdir Hperm body created uploaded.
  pose proof (ceil_div_spec fileSize Client.CHUNK_SIZE ltac:(done)) as Hceil.
  set (total := MemStorage.ceil_div fileSize Routes.CHUNK_SIZE).
  assert (0 < total) as Htotal.
  { unfold total, Routes.CHUNK_SIZE, Client.CHUNK_SIZE in *. lia. }
  set (video := Video.mk videoId filename fileSize mimeType VideoStatus.UPLOADING 0%Q
                         None None None t0 None).
  set (s0 := UploadSession.mk sessionId videoId filename fileSize Routes.CHUNK_SIZE total []
                              SessionStatus.active t0 (t0 + 24 * 60 * 60 * 1000)).
  set (st0 := MemStorage.set_uploadSessions
                (MemStorage.set_videos st (<[videoId := video]> (MemStorage.videos st)))
                (<[sessionId := s0]> (MemStorage.uploadSessions st))).
  assert (created = (200, Some s0, st0)) as Hcreated.
  { unfold created, Upload.postUploadSession, Upload.safeParse, body. simpl.
    rewrite bool_decide_eq_true_2 by done.
    rewrite (proj2 (Z.ltb_lt 0 fileSize)) by done. reflexivity. }
  assert (Z.of_nat (length order) = total) as Hlen.
  { rewrite Hperm. unfold Client.createChunks. rewrite length_fmap, length_seqZ.
    unfold total, Routes.CHUNK_SIZE, Client.CHUNK_SIZE in *. lia. }
  assert (∀ i, i ∈ Client.index <$> order ↔ 0 ≤ i < total) as Hidx.
  { intros i. rewrite Hperm. unfold Client.createChunks. rewrite <- list_fmap_compose.
    rewrite list_elem_of_fmap. setoid_rewrite elem_of_seqZ.
    unfold total, Routes.CHUNK_SIZE, Client.CHUNK_SIZE. simpl. split.
    - intros (j & -> & Hj). lia.
    - intros Hi. exists i. split; [done|lia]. }
  destruct (uploadAll_accepts env sessionId tempName order st0 d s0 video)
    as (Hrs & Hlrs & _ & s & v & Hs & Htot & Hvid & Hasc & Hel & Hback & Hv & Hhls & Hprog);
    try done.
  { unfold st0. simpl. by rewrite lookup_insert_eq. }
  { unfold st0. simpl. by rewrite lookup_insert_eq. }
  { rewrite Hperm. apply Forall_lookup. intros k c [Hk ->]%createChunks_lookup; [|lia].
    simpl. unfold total, Routes.CHUNK_SIZE, Client.CHUNK_SIZE in *. lia. }
  { constructor. }
  { simpl. by intros i ?%elem_of_nil. }
  assert (created.2 = st0) as Hst0 by (by rewrite Hcreated).
  fold (created.2) in uploaded.
  assert (uploaded = ChunkRoute.uploadAll env sessionId tempName order st0 d) as Hup
    by (unfold uploaded; by rewrite Hst0).
  rewrite <- Hup in *. clearbody uploaded. simpl in *.
  split; [by rewrite Hcreated|]. split; [done|]. split; [done|].
  assert (UploadSession.uploadedChunks s ≡ₚ seqZ 0 total) as Hp.
  { apply NoDup_Permutation; [by apply ascending_NoDup|apply NoDup_seqZ|].
    intros i. rewrite Hel, Hidx, elem_of_seqZ, elem_of_nil. lia. }
  assert (Z.of_nat (length (UploadSession.uploadedChunks s)) = total) as Hls.
  { rewrite Hp, length_seqZ. lia. }
  assert (UploadSession.uploadedChunks s = seqZ 0 total) as Hfull.
  { apply ascending_range_full; [done| |done]. apply Forall_forall. intros i Hi.
    rewrite Hp in Hi. apply elem_of_seqZ in Hi. lia. }
  exists s, v. split_and!.
  - unfold Routes.completeChecks, MemStorage.getUploadSession. rewrite Hs.
    rewrite bool_decide_eq_false_2 by (rewrite Htot, Hls; tauto).
    destruct (Routes.missingChunkFiles uploaded.2 sessionId (UploadSession.totalChunks s))
      as [|i l] eqn:Hm; [done|exfalso].
    assert (i ∈ Routes.missingChunkFiles uploaded.2 sessionId (UploadSession.totalChunks s))
      as [Hi Hex]%elem_of_missingChunkFiles by (rewrite Hm; apply list_elem_of_here).
    rewrite Hback in Hex; [done|]. rewrite Hfull. apply elem_of_seqZ. lia.
  - by rewrite Htot, Hlen.
  - by rewrite Htot.
  - done.
  - rewrite Hprog by (intros ->; simpl in Hlen; lia).
    unfold MemStorage.progressOf. rewrite Hls, Htot.
    unfold Qeq, Qdiv, Qmult, Qinv, inject_Z. simpl.
    destruct total as [|p|p]; try lia. simpl. nia.
  - done.
  - done.
  - done.
Qed.


(** X11. A whole upload goes through: after POST /api/upload/session for
    a file, the chunks the browser cuts from it, posted one request after
    the other in any order, are all accepted with 200 as long as the
    storage is not full and multer stores each of them; the session then
    holds exactly the indices 0 .. totalChunks-1, the video's
    uploadProgress is 100, and POST /api/upload/complete passes both of
    its checks. *)
Theorem upload_in_any_order_completes
    (videoId sessionId filename mimeType : string) (fileSize t0 : Z)
    (env : Z → ChunkRoute.Env) (tempName : Z → string)
    (order : list Client.ChunkInfo) (st : MemStorage.t) (d : Disk.t) :
  ChunkRoute.unhindered env →
  filename ≠ "" → 0 < fileSize → sessionId ≠ "" →
  (∀ i, tempName i ≠ sessionId) →
  (∀ sz, Disk.chunks d !! sessionId ≠ Some (Disk.File sz)) →
  order ≡ₚ Client.createChunks fileSize →
  let body := Upload.mkSessionRequest (Some filename) (Some fileSize) (Some mimeType) in
  let created := Upload.postUploadSession videoId sessionId t0 body st in
  let uploaded := ChunkRoute.uploadAll env sessionId tempName order created.2 d in
  created.1.1 = 200
  ∧ Forall (λ r, Response.status r = 200) uploaded.1.1
  ∧ length uploaded.1.1 = length order
  ∧ ∃ s v,
      Routes.completeChecks sessionId uploaded.1.2 uploaded.2 = inr s
      ∧ UploadSession.totalChunks s = Z.of_nat (length order)
      ∧ UploadSession.uploadedChunks s = seqZ 0 (UploadSession.totalChunks s)
      ∧ MemStorage.videos uploaded.1.2 !! videoId = Some v
      ∧ (Video.uploadProgress v == 100)%Q.
Proof.
  intros Hunh Hfn Hsize Hsid Htmp Hdir Hperm body created uploaded.
  destruct (upload_in_any_order_state videoId sessionId filename mimeType fileSize t0 env
              tempName order st d Hunh Hfn Hsize Hsid Htmp Hdir Hperm)
    as (H200 & Hrs & Hlen & s & v & Hc & Htot & Hfull & Hv & Hp & _).
  split; [exact H200|]. split; [exact Hrs|]. split; [exact Hlen|].
  exists s, v. split; [exact Hc|]. split; [exact Htot|]. split; [exact Hfull|].
  split; [exact Hv|exact Hp].
Qed.

Lemma demoEnv_unhindered : ChunkRoute.unhindered demoEnv.
Proof. intros i. split; [|reflexivity]. by apply checkDiskSpace_hasSpace. Qed.

Lemma upload_in_any_order_completes_witness :
  Forall (λ r, Response.status r = 200)
    (ChunkRoute.uploadAll demoEnv "s9" (λ i, "temp_" +:+ pretty i)
       (reverse (Client.createChunks 5000000))
       (Upload.postUploadSession "v9" "s9" 0
          (Upload.mkSessionRequest (Some "clip.mp4") (Some 5000000) (Some "video/mp4"))
          MemStorage.empty).2
       (Disk.mk ∅ ∅ ∅)).1.1.
Proof.
  refine (proj1 (proj2
    (upload_in_any_order_completes "v9" "s9" "clip.mp4" "video/mp4" 5000000 0
       demoEnv (λ i, "temp_" +:+ pretty i) (reverse (Client.createChunks 5000000))
       MemStorage.empty (Disk.mk ∅ ∅ ∅) demoEnv_unhindered _ _ _ _ _ _))).
  - discriminate.
  - lia.
  - discriminate.
  - intros i. discriminate.
  - intros sz. discriminate.
  - apply reverse_Permutation.
Defined.

(** ** Deletion and statistics *)

(** X12. DELETE /api/videos/:id for a video the store knows, under an
    id that is one path component as [randomUUID()] gives them, answers
    200 and removes that video and nothing else from the store: the other
    videos, all upload sessions and all transcoding jobs stay, also the
    jobs and the session of the deleted video.  On the disk the video's
    output tree is gone; of its upload files the first that exists, in
    the order of the five extensions, is removed and every other file of
    [uploads/] stays; [chunks/] and the other output trees are not
    touched. *)
Theorem delete_known_video_keeps_jobs_and_sessions
    (now1 now2 : Z) (root : list string) (id : string)
    (st : MemStorage.t) (d : Disk.t) (v : Video.t) :
  MemStorage.videos st !! id = Some v →
  Path.plain id = true →
  let r := (Routes.deleteVideo now1 now2 root id st d).1.1 in
  let st' := (Routes.deleteVideo now1 now2 root id st d).1.2 in
  r = Response.mk 200 Response.Success
  ∧ MemStorage.videos st' = delete id (MemStorage.videos st)
  ∧ MemStorage.uploadSessions st' = MemStorage.uploadSessions st
  ∧ MemStorage.transcodingJobs st' = MemStorage.transcodingJobs st
  ∧ ∃ d', (Routes.deleteVideo now1 now2 root id st d).2 = Some d'
          ∧ Disk.chunks d' = Disk.chunks d
          ∧ Disk.transcoded d' = delete id (Disk.transcoded d)
          ∧ Disk.uploads d' ⊆ Disk.uploads d
          ∧ ∀ p, p ∈ Disk.uploads d →
                 (p ∈ Disk.uploads d' ↔ head (uploadsOf id d) ≠ Some p).
Proof.
  intros Hv Hplain r st'. subst r st'.
  destruct (deleteVideo_disk now1 now2 root id st d Hplain)
    as (d' & Hd' & Hc & Ht & Hu).
  unfold Routes.deleteVideo, MemStorage.deleteVideo in *.
  rewrite Hv in *. rewrite bool_decide_eq_true_2 in * by done. simpl in *.
  split_and!; try done.
  exists d'. split_and!; try done.
  - rewrite Hu. destruct (head (uploadsOf id d)); [|done].
    by apply subseteq_difference_l.
  - intros p Hp. rewrite Hu. by apply first_upload_removed.
Qed.

Lemma delete_known_video_keeps_jobs_and_sessions_witness :
  MemStorage.uploadSessions (Routes.deleteVideo 1 2 demoRoot "v1" (demoStore [0]) v1Disk).1.2
  = MemStorage.uploadSessions (demoStore [0])
  ∧ ∃ d', (Routes.deleteVideo 1 2 demoRoot "v1" (demoStore [0]) v1Disk).2 = Some d'
          ∧ Disk.transcoded d' = delete "v1" (Disk.transcoded v1Disk)
          ∧ ("v1.mp4" ∉ Disk.uploads d')
          ∧ "v1.webm" ∈ Disk.uploads d'
          ∧ "v2.mp4" ∈ Disk.uploads d'.
Proof.
  destruct (delete_known_video_keeps_jobs_and_sessions 1 2 demoRoot "v1" (demoStore [0])
              v1Disk demoVideo eq_refl eq_refl) as (_ & _ & Hs & _ & d' & Hd' & _ & Ht & _ & Hu).
  split; [exact Hs|].
  exists d'. split; [exact Hd'|]. split; [exact Ht|].
  assert (head (uploadsOf "v1" v1Disk) = Some "v1.mp4") as Hhead
    by (vm_compute; reflexivity).
  rewrite Hhead in Hu.
  split_and!.
  - intros Hin. apply (Hu "v1.mp4") in Hin; [by apply Hin|].
    vm_compute. tauto.
  - apply Hu; [vm_compute; tauto|]. discriminate.
  - apply Hu; [vm_compute; tauto|]. discriminate.
Defined.

Lemma status_counts (l : list TranscodingJob.t) :
  (length (filter (λ j, TranscodingJob.status j = JobStatus.pending) l)
   + length (filter (λ j, TranscodingJob.status j = JobStatus.processing) l)
   + length (filter (λ j, TranscodingJob.status j = JobStatus.completed) l)
   + length (filter (λ j, TranscodingJob.status j = JobStatus.failed) l)
   = length l)%nat.
Proof.
  induction l as [|j l IH]; [done|].
  rewrite !filter_cons. destruct (TranscodingJob.status j); simpl;
    repeat case_decide; try done; simpl; lia.
Qed.

Lemma countStatus_create id now videoId resolution inputPath st s :
  MemStorage.transcodingJobs st !! id = None →
  Stats.countStatus (MemStorage.createTranscodingJob id now videoId resolution inputPath st).2 s
  = Stats.countStatus st s + (if decide (s = JobStatus.pending) then 1 else 0).
Proof.
  intros Hfresh. unfold Stats.countStatus, MemStorage.createTranscodingJob. simpl.
  rewrite (map_to_list_insert _ _ _ Hfresh), fmap_cons, filter_cons. simpl.
  case_decide as Hs.
  - rewrite decide_True by done. simpl. lia.
  - rewrite decide_False by done. lia.
Qed.

(** X13. The queue statistics of the store count every job exactly once:
    the four numbers add up to the number of jobs, and a newly created
    job adds one to [waiting] and nothing to the others.  When no Redis
    connection is handed out, as in the in-process mode, GET
    /api/queue/stats answers with exactly these numbers. *)
Theorem queue_stats_count_every_job
    (ctorThrows : bool) (counts : option Stats.QueueStats) (b : Queue.Broker)
    (st : MemStorage.t) :
  let s := Stats.storageQueueStats st in
  Stats.waiting s + Stats.active s + Stats.completed s + Stats.failed s
  = Z.of_nat (size (MemStorage.transcodingJobs st))
  ∧ (∀ id now videoId resolution inputPath,
       MemStorage.transcodingJobs st !! id = None →
       Stats.storageQueueStats
         (MemStorage.createTranscodingJob id now videoId resolution inputPath st).2
       = Stats.mkQueueStats (Stats.waiting s + 1) (Stats.active s)
                            (Stats.completed s) (Stats.failed s))
  ∧ (Queue.DEV_MODE b = true ∨ Queue.redisAvailable b = false →
     (Stats.getQueueStatsRoute ctorThrows counts b st).1 = s).
Proof.
  intros s. split_and!.
  - unfold s, Stats.storageQueueStats, Stats.countStatus. simpl.
    pose proof (status_counts ((map_to_list (MemStorage.transcodingJobs st)).*2)) as Hc.
    rewrite length_fmap, length_map_to_list in Hc. lia.
  - intros id now videoId resolution inputPath Hfresh.
    unfold Stats.storageQueueStats. rewrite !countStatus_create by done.
    simpl. f_equal; lia.
  - intros Hoff. unfold Stats.getQueueStatsRoute, Stats.getQueueStats.
    assert ((Queue.getRedisConnection ctorThrows b).1 = false) as Hnone.
    { destruct Hoff; [by apply getRedisConnection_dev_mode
                     |by apply getRedisConnection_unavailable]. }
    destruct (Queue.getRedisConnection ctorThrows b) as [redis b']. simpl in Hnone.
    subst redis. reflexivity.
Qed.

Lemma queue_stats_count_every_job_witness :
  (Stats.getQueueStatsRoute false (Some (Stats.mkQueueStats 7 7 7 7))
     (Queue.mkBroker true false false true) demoQueued).1
  = Stats.storageQueueStats demoQueued.
Proof.
  refine (proj2 (proj2 (queue_stats_count_every_job false (Some (Stats.mkQueueStats 7 7 7 7))
                          (Queue.mkBroker true false false true) demoQueued)) _).
  by left.
Defined.

(** ** Runs of the encoder driver *)

Lemma two_digits_all_digits s a rest :
  JS.two_digits s = Some (a, rest) → all_digits a = true ∧ a ≠ "".
Proof.
  unfold JS.two_digits. destruct s as [|c1 [|c2 s]]; try done.
  destruct (JS.is_digit c1) eqn:H1, (JS.is_digit c2) eqn:H2; try done.
  intros [= <- <-]. simpl. by rewrite H1, H2.
Qed.

Lemma durationHere_digits s h m sec :
  Queue.durationHere s = Some (h, m, sec) →
  (all_digits h = true ∧ h ≠ "") ∧ (all_digits m = true ∧ m ≠ "")
  ∧ (all_digits sec = true ∧ sec ≠ "").
Proof.
  unfold Queue.durationHere. intros H.
  repeat match type of H with
         | context [mbind _ ?o] => destruct o as [?|] eqn:?; simpl in H; [|done]
         | context [let '(_, _) := ?p in _] => destruct p; simpl in H
         end.
  injection H as <- <- <-.
  repeat match goal with
         | H : JS.two_digits _ = Some _ |- _ => apply two_digits_all_digits in H
         end.
  tauto.
Qed.

Lemma matchDuration_digits output h m sec :
  Queue.matchDuration output = Some (h, m, sec) →
  (all_digits h = true ∧ h ≠ "") ∧ (all_digits m = true ∧ m ≠ "")
  ∧ (all_digits sec = true ∧ sec ≠ "").
Proof.
  induction output as [|c output IH]; simpl.
  - done.
  - destruct (Queue.durationHere (String c output)) as [[[? ?] ?]|] eqn:Hd; [|exact IH].
    intros [= <- <- <-]. by apply durationHere_digits in Hd.
Qed.

Lemma onEvent_duration playlist e d :
  0 ≤ Queue.duration d → 0 ≤ Queue.duration (Queue.onEvent playlist e d).2.
Proof.
  intros Hd. destruct e as [output|output|code|message]; simpl.
  - destruct (Queue.matchDuration output) as [[[h m] sec]|] eqn:Hm; simpl; [|done].
    destruct (matchDuration_digits _ _ _ _ Hm) as ([? ?] & [? ?] & [? ?]).
    destruct (parseInt_digits h) as (nh & -> & ?); [done..|].
    destruct (parseInt_digits m) as (nm & -> & ?); [done..|].
    destruct (parseInt_digits sec) as (ns & -> & ?); [done..|]. simpl. lia.
  - destruct (Queue.matchOutTime output) as [digits|]; simpl; [|done].
    destruct (bool_decide (Queue.duration d > 0)); simpl; [|done].
    by destruct (JS.parseInt digits).
  - destruct (bool_decide (code = Some 0)); simpl; unfold Queue.settle;
      by destruct (Queue.promise d).
  - unfold Queue.settle. by destruct (Queue.promise d).
Qed.

Lemma percentOf_nonneg us duration :
  0 ≤ us → 0 < duration → (0 <= Queue.percentOf (Queue.secondsOf us) duration)%Q.
Proof.
  intros Hus Hd. unfold Queue.percentOf. apply Q.min_glb; [|done].
  unfold Queue.secondsOf, Qle, Qdiv, Qmult, Qinv, inject_Z. simpl.
  destruct duration as [|p|p]; try lia. simpl. nia.
Qed.

Lemma onEvent_reports playlist e d :
  0 ≤ Queue.duration d →
  Forall (λ p, (0 <= p <= 99)%Q ∨ p = 100%Q) (Queue.onEvent playlist e d).1.
Proof.
  intros Hd. destruct e as [output|output|code|message]; simpl.
  - by destruct (Queue.matchDuration output) as [[[h m] sec]|].
  - destruct (Queue.matchOutTime output) as [digits|] eqn:Hm; simpl; [|done].
    case_bool_decide as Hpos; simpl; [|done].
    destruct (matchOutTime_digits _ _ Hm) as [Hall Hne].
    destruct (parseInt_digits digits Hall Hne) as (us & -> & Hus). simpl.
    constructor; [|done]. left. split; [apply percentOf_nonneg; lia|apply percentOf_le_99].
  - destruct (bool_decide (code = Some 0)); simpl; [|done]. constructor; [by right|done].
  - done.
Qed.

Lemma onEvent_promise playlist e d :
  Queue.promise (Queue.onEvent playlist e d).2
  = match Queue.promise d with
    | Some o => Some o
    | None => Encoder.outcomeOf playlist e
    end.
Proof.
  destruct e as [output|output|code|message]; simpl.
  - destruct (Queue.matchDuration output) as [[[h m] sec]|]; simpl;
      by destruct (Queue.promise d).
  - destruct (Queue.matchOutTime output) as [digits|]; simpl;
      [|by destruct (Queue.promise d)].
    destruct (bool_decide (Queue.duration d > 0)); simpl; [|by destruct (Queue.promise d)].
    destruct (JS.parseInt digits); simpl; by destruct (Queue.promise d).
  - destruct (bool_decide (code = Some 0)); simpl; unfold Queue.settle;
      by destruct (Queue.promise d) eqn:Hp.
  - unfold Queue.settle. by destruct (Queue.promise d) eqn:Hp.
Qed.

Lemma drive_snoc playlist es e d :
  Encoder.drive playlist (es ++ [e]) d
  = (((Encoder.drive playlist es d).1
      ++ (Queue.onEvent playlist e (Encoder.drive playlist es d).2).1)%list,
     (Queue.onEvent playlist e (Encoder.drive playlist es d).2).2).
Proof.
  unfold Encoder.drive. rewrite foldl_app. simpl.
  by destruct (Queue.onEvent playlist e _).
Qed.

Lemma drive_cons playlist e es d :
  Encoder.drive playlist (e :: es) d
  = (((Queue.onEvent playlist e d).1
      ++ (Encoder.drive playlist es (Queue.onEvent playlist e d).2).1)%list,
     (Encoder.drive playlist es (Queue.onEvent playlist e d).2).2).
Proof.
  unfold Encoder.drive. simpl.
  destruct (Queue.onEvent playlist e d) as [calls d'] eqn:He. simpl.
  assert (∀ acc : list Q * Queue.Driver,
            foldl (λ acc e, let '(calls, d') := Queue.onEvent playlist e acc.2 in
                            ((acc.1 ++ calls)%list, d')) acc es
            = ((acc.1 ++ (foldl (λ acc e, let '(calls, d') := Queue.onEvent playlist e acc.2 in
                                          ((acc.1 ++ calls)%list, d')) ([], acc.2) es).1)%list,
               (foldl (λ acc e, let '(calls, d') := Queue.onEvent playlist e acc.2 in
                                ((acc.1 ++ calls)%list, d')) ([], acc.2) es).2)) as Hgen.
  { induction es as [|e' es IH] using rev_ind; intros acc.
    - simpl. rewrite app_nil_r. by destruct acc.
    - rewrite !foldl_app. simpl. rewrite (IH acc). simpl.
      destruct (Queue.onEvent playlist e' _) as [c2 d2]. simpl. by rewrite app_assoc. }
  by rewrite (Hgen (calls, d')).
Qed.

(** X14. Whatever the child process does, the promise of the driver
    settles once, with the first close or error event, and later events
    do not change it; every value handed to [onProgress] lies in [0, 99]
    or is exactly 100; and as long as no duration has been read from
    stderr the only values reported are the 100s of a clean exit. *)
Theorem driver_settles_once_and_reports_in_range
    (playlist : string) (es : list Queue.ProcessEvent) (d : Queue.Driver) :
  0 ≤ Queue.duration d →
  let reports := (Encoder.drive playlist es d).1 in
  let d' := (Encoder.drive playlist es d).2 in
  Queue.promise d'
  = match Queue.promise d with
    | Some o => Some o
    | None => Encoder.firstOutcome playlist es
    end
  ∧ Forall (λ p, (0 <= p <= 99)%Q ∨ p = 100%Q) reports
  ∧ (Queue.duration d = 0 →
     Forall (λ e, ∀ output, e ≠ Queue.Stderr output) es →
     Forall (λ p, p = 100%Q) reports ∧ Queue.duration d' = 0).
Proof.
  revert d. induction es as [|e es IH]; intros d Hd; simpl.
  - split_and!; [by destruct (Queue.promise d)|done|done].
  - rewrite drive_cons. simpl.
    destruct (IH (Queue.onEvent playlist e d).2 (onEvent_duration playlist e d Hd))
      as (Hp & Hr & Hz).
    split_and!.
    + rewrite Hp, onEvent_promise. destruct (Queue.promise d); [done|].
      by destruct (Encoder.outcomeOf playlist e).
    + apply Forall_app. split; [by apply onEvent_reports|done].
    + intros Hzero Hno. apply Forall_cons in Hno as [He Hno].
      assert ((Queue.onEvent playlist e d).1 = [] ∨ (Queue.onEvent playlist e d).1 = [100%Q])
        as Hcalls.
      { destruct e as [output|output|code|message]; simpl.
        - by destruct (He output).
        - destruct (Queue.matchOutTime output); simpl; [|by left].
          rewrite bool_decide_eq_false_2 by lia. by left.
        - destruct (bool_decide (code = Some 0)); simpl; [by right|by left].
        - by left. }
      assert (Queue.duration (Queue.onEvent playlist e d).2 = 0) as Hz'.
      { destruct e as [output|output|code|message]; simpl.
        - by destruct (He output).
        - destruct (Queue.matchOutTime output); simpl; [|done].
          by rewrite bool_decide_eq_false_2 by lia.
        - destruct (bool_decide (code = Some 0)); simpl; unfold Queue.settle;
            by destruct (Queue.promise d).
        - unfold Queue.settle. by destruct (Queue.promise d). }
      destruct (Hz Hz' Hno) as [Hall Hfin]. split; [|done].
      apply Forall_app. split; [|done].
      destruct Hcalls as [-> | ->]; repeat constructor.
Qed.

Lemma driver_settles_once_and_reports_in_range_witness :
  Queue.promise
    (Encoder.drive "out/720p/playlist.m3u8"
       [Queue.Stdout "out_time_ms=5"; Queue.Error "spawn ffmpeg ENOENT"; Queue.Close (Some 0)]
       Queue.spawned).2
  = Some (Queue.Failed "spawn ffmpeg ENOENT").
Proof.
  assert (0 ≤ Queue.duration Queue.spawned) as Hd by (simpl; lia).
  exact (proj1 (driver_settles_once_and_reports_in_range "out/720p/playlist.m3u8"
    [Queue.Stdout "out_time_ms=5"; Queue.Error "spawn ffmpeg ENOENT"; Queue.Close (Some 0)]
    Queue.spawned Hd)).
Defined.

Lemma pad2_digits n :
  0 ≤ n < 100 →
  (∀ rest, JS.two_digits (Encoder.pad2 n +:+ rest) = Some (Encoder.pad2 n, rest))
  ∧ JS.parseInt (Encoder.pad2 n) = Some n.
Proof.
  intros Hn. unfold Encoder.pad2.
  assert (Z.to_N n `div` 10 < 10)%N as Hq.
  { apply N.Div0.div_lt_upper_bound; lia. }
  assert (Z.to_N n `mod` 10 < 10)%N as Hr by (by apply N.mod_lt).
  destruct (pretty_N_char_digit _ Hq) as [Hd1 Hv1].
  destruct (pretty_N_char_digit _ Hr) as [Hd2 Hv2].
  split.
  - intros rest. simpl. by rewrite Hd1, Hd2.
  - rewrite parseInt_digit_string; [|by simpl; rewrite Hd1, Hd2|done].
    simpl. rewrite Hv1, Hv2. simpl. f_equal.
    pose proof (N.div_mod (Z.to_N n) 10 ltac:(done)). lia.
Qed.

Lemma strip_prefix_app p s : JS.strip_prefix p (p +:+ s) = Some s.
Proof.
  induction p as [|x p IH]; simpl; [by destruct s|]. by rewrite Ascii.eqb_refl.
Qed.

Lemma durationHere_fields (fh fm fs fc rest : string) :
  (∀ r, JS.two_digits (fh +:+ r) = Some (fh, r)) →
  (∀ r, JS.two_digits (fm +:+ r) = Some (fm, r)) →
  (∀ r, JS.two_digits (fs +:+ r) = Some (fs, r)) →
  (∀ r, JS.two_digits (fc +:+ r) = Some (fc, r)) →
  Queue.durationHere
    ("Duration: " +:+ fh +:+ ":" +:+ fm +:+ ":" +:+ fs +:+ "." +:+ fc +:+ rest)
  = Some (fh, fm, fs).
Proof.
  intros Hh Hm Hs Hc. unfold Queue.durationHere.
  rewrite strip_prefix_app. cbn [mbind option_bind].
  rewrite Hh. cbn [mbind option_bind]. rewrite (strip_prefix_app ":"). cbn [mbind option_bind].
  rewrite Hm. cbn [mbind option_bind]. rewrite (strip_prefix_app ":"). cbn [mbind option_bind].
  rewrite Hs. cbn [mbind option_bind]. rewrite (strip_prefix_app "."). cbn [mbind option_bind].
  by rewrite Hc.
Qed.

Lemma durationHere_banner h m s c rest :
  0 ≤ h < 100 → 0 ≤ m < 100 → 0 ≤ s < 100 → 0 ≤ c < 100 →
  Queue.durationHere (Encoder.banner h m s c rest)
  = Some (Encoder.pad2 h, Encoder.pad2 m, Encoder.pad2 s).
Proof.
  intros Hh Hm Hs Hc. unfold Encoder.banner.
  apply durationHere_fields; intros r; by apply pad2_digits.
Qed.

Lemma matchDuration_here s found :
  Queue.durationHere s = Some found → Queue.matchDuration s = Some found.
Proof.
  intros H. destruct s; [discriminate H|]. cbn [Queue.matchDuration]. by rewrite H.
Qed.

Lemma matchDuration_banner pre h m s c rest :
  Forall (λ x, x ≠ "D"%char) (list_ascii_of_string pre) →
  0 ≤ h < 100 → 0 ≤ m < 100 → 0 ≤ s < 100 → 0 ≤ c < 100 →
  Queue.matchDuration (pre +:+ Encoder.banner h m s c rest)
  = Some (Encoder.pad2 h, Encoder.pad2 m, Encoder.pad2 s).
Proof.
  intros Hpre Hh Hm Hs Hc. induction pre as [|x pre IH].
  - apply matchDuration_here. by apply durationHere_banner.
  - simpl in Hpre. apply Forall_cons in Hpre as [Hx Hpre].
    change (String x pre +:+ Encoder.banner h m s c rest)
      with (String x (pre +:+ Encoder.banner h m s c rest)).
    cbn [Queue.matchDuration].
    replace (Queue.durationHere (String x (pre +:+ Encoder.banner h m s c rest)))
      with (@None (string * string * string)); [by apply IH|].
    unfold Queue.durationHere. cbn [JS.strip_prefix].
    destruct (Ascii.eqb_spec "D" x) as [<-|_]; done.
Qed.

(** X15. The duration the driver works with is the whole number of
    seconds of FFmpeg's [Duration: hh:mm:ss.cc] line, the hundredths being
    dropped: the first such line of a stderr chunk sets it to
    [3600 hh + 60 mm + ss].  For an input shorter than one second it is
    therefore 0, and no progress is reported for any stdout chunk. *)
Theorem duration_is_whole_seconds
    (playlist pre rest : string) (h m s c : Z) (d : Queue.Driver) :
  Forall (λ x, x ≠ "D"%char) (list_ascii_of_string pre) →
  0 ≤ h < 100 → 0 ≤ m < 100 → 0 ≤ s < 100 → 0 ≤ c < 100 →
  let d' := (Queue.onEvent playlist (Queue.Stderr (pre +:+ Encoder.banner h m s c rest)) d).2 in
  Queue.onEvent playlist (Queue.Stderr (pre +:+ Encoder.banner h m s c rest)) d
  = ([], Queue.mkDriver (3600 * h + 60 * m + s) (Queue.currentTime d) (Queue.promise d))
  ∧ (h = 0 → m = 0 → s = 0 →
     ∀ output, Queue.onEvent playlist (Queue.Stdout output) d' = ([], d')).
Proof.
  intros Hpre Hh Hm Hs Hc d'.
  assert (Queue.onEvent playlist (Queue.Stderr (pre +:+ Encoder.banner h m s c rest)) d
          = ([], Queue.mkDriver (3600 * h + 60 * m + s) (Queue.currentTime d)
                   (Queue.promise d))) as Heq.
  { cbn [Queue.onEvent]. rewrite matchDuration_banner by done.
    rewrite (proj2 (pad2_digits h Hh)), (proj2 (pad2_digits m Hm)),
      (proj2 (pad2_digits s Hs)). simpl. do 2 f_equal. lia. }
  split; [done|]. intros -> -> -> output. subst d'. rewrite Heq.
  cbn [Queue.onEvent snd]. destruct (Queue.matchOutTime output); [|done].
  by rewrite bool_decide_eq_false_2 by (simpl; lia).
Qed.

Lemma duration_is_whole_seconds_witness :
  Queue.onEvent "out/360p/playlist.m3u8"
    (Queue.Stderr ("  " +:+ Encoder.banner 1 2 3 45 ", start: 0.000000")) Queue.spawned
  = ([], Queue.mkDriver 3723 0%Q None).
Proof.
  refine (proj1 (duration_is_whole_seconds "out/360p/playlist.m3u8" "  " ", start: 0.000000"
                   1 2 3 45 Queue.spawned _ _ _ _ _)); [|lia..].
  repeat constructor; discriminate.
Defined.

(** ** What a run of the three flows touches *)

Lemma sameElsewhere_refl jd st : sameElsewhere jd st st.
Proof. by constructor. Qed.

Lemma sameElsewhere_trans jd st1 st2 st3 :
  sameElsewhere jd st1 st2 → sameElsewhere jd st2 st3 → sameElsewhere jd st1 st3.
Proof.
  intros [A1 B1 C1 D1 E1] [A2 B2 C2 D2 E2]. constructor.
  - by rewrite A2.
  - intros id Hid. by rewrite B2, B1.
  - intros id Hid. by rewrite C2, C1.
  - by rewrite D2.
  - by rewrite E2.
Qed.

Lemma sameElsewhere_updateVideo jd u st :
  sameElsewhere jd st (MemStorage.updateVideo (Sim.videoId jd) u st).2.
Proof.
  unfold MemStorage.updateVideo.
  destruct (MemStorage.videos st !! Sim.videoId jd) as [v|] eqn:Hv; simpl;
    [|apply sameElsewhere_refl].
  constructor; simpl; try done.
  - intros id Hid. by rewrite lookup_insert_ne.
  - rewrite dom_insert_L. apply elem_of_dom_2 in Hv.
    apply subseteq_union_1_L. by apply singleton_subseteq_l.
Qed.

Lemma sameElsewhere_updateJob jd r u st :
  sameElsewhere jd st (MemStorage.updateTranscodingJob (Sim.jobId jd r) u st).2.
Proof.
  unfold MemStorage.updateTranscodingJob.
  destruct (MemStorage.transcodingJobs st !! Sim.jobId jd r) as [j|] eqn:Hj; simpl;
    [|apply sameElsewhere_refl].
  constructor; simpl; try done.
  - intros id Hid. rewrite lookup_insert_ne; [done|]. intros Heq. by apply (Hid r).
  - rewrite dom_insert_L. apply elem_of_dom_2 in Hj.
    apply subseteq_union_1_L. by apply singleton_subseteq_l.
Qed.

Lemma sameElsewhere_progressCallback jd now r p s :
  sameElsewhere jd (Sim.store s) (Sim.store (Sim.progressCallback jd now r p s)).
Proof.
  unfold Sim.progressCallback.
  destruct (Qle_bool 5 (p - Sim.lastProgress (Sim.flows s r)) || Qeq_bool p 100);
    [|apply sameElsewhere_refl].
  simpl. eapply sameElsewhere_trans; [|apply sameElsewhere_updateJob].
  unfold MemStorage.getVideo.
  destruct (MemStorage.videos (Sim.store s) !! Sim.videoId jd);
    [apply sameElsewhere_updateVideo|apply sameElsewhere_refl].
Qed.

Lemma sameElsewhere_callbacks jd now r calls s :
  sameElsewhere jd (Sim.store s)
    (Sim.store (foldl (λ s progress, Sim.progressCallback jd now r progress s) s calls)).
Proof.
  revert s. induction calls as [|p calls IH]; intros s; simpl; [apply sameElsewhere_refl|].
  eapply sameElsewhere_trans; [apply sameElsewhere_progressCallback|apply IH].
Qed.

Lemma sameElsewhere_onResolved jd now r s :
  sameElsewhere jd (Sim.store s) (Sim.store (Sim.onResolved jd now r s)).
Proof.
  unfold Sim.onResolved. simpl.
  eapply sameElsewhere_trans; [apply sameElsewhere_updateJob|].
  unfold MemStorage.getVideo.
  destruct (MemStorage.videos _ !! Sim.videoId jd);
    [apply sameElsewhere_updateVideo|apply sameElsewhere_refl].
Qed.

Lemma sameElsewhere_step jd now l s s' :
  Sim.step jd now l s = Some s' → sameElsewhere jd (Sim.store s) (Sim.store s').
Proof.
  intros Hstep.
  destruct l as [r|r|r|r hasFfmpeg|r e|r]; simpl in Hstep;
    destruct (Sim.pc (Sim.flows s r)) as [| | | | |em ee| |] eqn:Hpc; try discriminate Hstep.
  - injection Hstep as <-. simpl. apply sameElsewhere_updateVideo.
  - injection Hstep as <-. simpl. apply sameElsewhere_updateJob.
  - injection Hstep as <-. simpl. apply sameElsewhere_refl.
  - destruct hasFfmpeg; injection Hstep as <-; simpl;
      [apply sameElsewhere_refl|apply sameElsewhere_updateJob].
  - destruct (Queue.transcodeVideoFile_onEvent _ r e _) as [calls drv].
    set (s0 := Sim.set_flow s r _) in Hstep.
    pose proof (sameElsewhere_callbacks jd now r calls s0) as Hcalls.
    change (Sim.store s0) with (Sim.store s) in Hcalls.
    destruct (Queue.promise drv) as [[playlist|message]|]; injection Hstep as <-.
    + eapply sameElsewhere_trans; [exact Hcalls|apply sameElsewhere_onResolved].
    + eapply sameElsewhere_trans; [exact Hcalls|]. simpl. apply sameElsewhere_updateJob.
    + exact Hcalls.
  - injection Hstep as <-. simpl. apply sameElsewhere_updateVideo.
Qed.

Lemma run_sameElsewhere jd tr s s' :
  Sim.run jd tr s = Some s' → sameElsewhere jd (Sim.store s) (Sim.store s').
Proof.
  revert s. induction tr as [|[now l] tr IH]; intros s Hrun; simpl in Hrun.
  - injection Hrun as <-. apply sameElsewhere_refl.
  - destruct (Sim.step jd now l s) as [s1|] eqn:Hstep; [|done].
    eapply sameElsewhere_trans; [by eapply sameElsewhere_step|by apply IH].
Qed.

(** X16. A run of the three transcoding flows of a video, whatever the
    order of their steps and whatever the encoders do, changes nothing in
    the store but that video and its three jobs: every upload session,
    every other video and every other job is as before, and no video or
    job is added or removed. *)
Theorem run_touches_only_its_video_and_jobs
    (jd : Sim.JobData) (tr : list (Z * Sim.label)) (s s' : Sim.t) :
  Sim.run jd tr s = Some s' →
  MemStorage.uploadSessions (Sim.store s') = MemStorage.uploadSessions (Sim.store s)
  ∧ (∀ id, id ≠ Sim.videoId jd →
           MemStorage.videos (Sim.store s') !! id = MemStorage.videos (Sim.store s) !! id)
  ∧ (∀ id, (∀ r, id ≠ Sim.jobId jd r) →
           MemStorage.transcodingJobs (Sim.store s') !! id
           = MemStorage.transcodingJobs (Sim.store s) !! id)
  ∧ dom (MemStorage.videos (Sim.store s')) = dom (MemStorage.videos (Sim.store s))
  ∧ dom (MemStorage.transcodingJobs (Sim.store s'))
    = dom (MemStorage.transcodingJobs (Sim.store s)).
Proof.
  intros Hrun. by destruct (run_sameElsewhere jd tr s s' Hrun).
Qed.

Lemma run_touches_only_its_video_and_jobs_witness :
  ∃ s', Sim.run demoJobs demoTrace (Sim.start demoQueued) = Some s'
        ∧ MemStorage.uploadSessions (Sim.store s') = MemStorage.uploadSessions demoQueued.
Proof.
  destruct (Sim.run demoJobs demoTrace (Sim.start demoQueued)) as [s'|] eqn:Hrun;
    [|by vm_compute in Hrun].
  exists s'. split; [reflexivity|].
  exact (proj1 (run_touches_only_its_video_and_jobs demoJobs demoTrace
                  (Sim.start demoQueued) s' Hrun)).
Defined.

(** ** What a run of the three flows announces *)

Lemma marks_app r l l' : marks r (l ++ l') = (marks r l ++ marks r l')%list.
Proof. unfold marks. apply omap_app. Qed.

Lemma progressCallback_emitted jd now r p s :
  let go := Qle_bool 5 (p - Sim.lastProgress (Sim.flows s r)) || Qeq_bool p 100 in
  Sim.emitted (Sim.progressCallback jd now r p s)
  = (Sim.emitted s
     ++ (if go
         then [VideoEvent.mk EventType.TRANSCODING_PROGRESS (Sim.videoId jd)
                 (Some (VideoEvent.ProgressData r p (Sim.jobId jd r))) now]
         else []))%list
  ∧ ∀ r', Sim.flows (Sim.progressCallback jd now r p s) r'
          = if go && bool_decide (r' = r)
            then Sim.mkFlow (Sim.pc (Sim.flows s r)) p (Sim.driver (Sim.flows s r))
            else Sim.flows s r'.
Proof.
  intros go. unfold Sim.progressCallback. fold go. destruct go; simpl.
  - split; [done|]. intros r'. by case_decide; case_bool_decide.
  - split; [by rewrite app_nil_r|done].
Qed.

Lemma flowAnnounced_other s s' r new :
  Sim.flows s' r = Sim.flows s r →
  Sim.emitted s' = (Sim.emitted s ++ new)%list →
  marks r new = [] →
  flowAnnounced s r → flowAnnounced s' r.
Proof.
  intros Hf He Hnew (ps & last & Hramp & Hmarks & Hlast & Hdur & Hprom).
  exists ps, last. unfold pcOf in *. rewrite Hf, He, marks_app, Hnew, app_nil_r. done.
Qed.

Lemma flowAnnounced_start st r : flowAnnounced (Sim.start st) r.
Proof. exists [0%Q], 0%Q. split_and!; try done; constructor. Qed.

Lemma flowAnnounced_step jd now l s s' :
  (∀ r, flowAnnounced s r) → Sim.step jd now l s = Some s' → ∀ r, flowAnnounced s' r.
Proof.
  intros Hinv Hstep r.
  destruct l as [r0|r0|r0|r0 hasFfmpeg|r0 e|r0]; simpl in Hstep;
    destruct (Sim.pc (Sim.flows s r0)) as [| | | | |em ee| |] eqn:Hpc; try discriminate Hstep.
  - (* Begin *)
    injection Hstep as <-. destruct (decide (r = r0)) as [->|Hne].
    + destruct (Hinv r0) as (ps & last & Hramp & Hmarks & Hlast & Hdur & Hprom).
      unfold pcOf in *. rewrite Hpc in *. exists ps, last. unfold pcOf. simpl.
      rewrite decide_True by done. simpl. split_and!; try done; intros _; by apply Hprom.
    + apply (flowAnnounced_other s _ r []); [simpl; by rewrite decide_False
                                            |simpl; by rewrite app_nil_r|done|apply Hinv].
  - (* MarkProcessing *)
    injection Hstep as <-. destruct (decide (r = r0)) as [->|Hne].
    + destruct (Hinv r0) as (ps & last & Hramp & Hmarks & Hlast & Hdur & Hprom).
      unfold pcOf in *. rewrite Hpc in *. exists ps, last. unfold pcOf. simpl.
      rewrite decide_True by done. simpl. split_and!; try done; intros _; by apply Hprom.
    + apply (flowAnnounced_other s _ r []); [simpl; by rewrite decide_False
                                            |simpl; by rewrite app_nil_r|done|apply Hinv].
  - (* Announce *)
    injection Hstep as <-. destruct (decide (r = r0)) as [->|Hne].
    + destruct (Hinv r0) as (ps & last & Hramp & Hmarks & Hlast & Hdur & Hprom).
      unfold pcOf in *. rewrite Hpc in *. exists [0%Q], 0%Q. unfold pcOf. simpl.
      rewrite decide_True by done. simpl. rewrite marks_app, Hmarks. unfold marks, markOf. simpl.
      rewrite decide_True by done. simpl.
      split_and!; try done; [constructor|..]; intros _; by apply Hprom.
    + eapply (flowAnnounced_other s _ r); [simpl; by rewrite decide_False
                                          |simpl; done| |apply Hinv].
      unfold marks, markOf. simpl. by rewrite decide_False by done.
  - (* Checked *)
    destruct hasFfmpeg; injection Hstep as <-; destruct (decide (r = r0)) as [->|Hne].
    + destruct (Hinv r0) as (ps & last & Hramp & Hmarks & Hlast & Hdur & Hprom).
      unfold pcOf in *. rewrite Hpc in *. exists ps, last. unfold pcOf. simpl.
      rewrite decide_True by done. simpl. split_and!; try done; intros _; by apply Hprom.
    + apply (flowAnnounced_other s _ r []); [simpl; by rewrite decide_False
                                            |simpl; by rewrite app_nil_r|done|apply Hinv].
    + destruct (Hinv r0) as (ps & last & Hramp & Hmarks & Hlast & Hdur & Hprom).
      unfold pcOf in *. rewrite Hpc in *. exists ps, last. unfold pcOf. simpl.
      rewrite decide_True by done. simpl. split_and!; done.
    + apply (flowAnnounced_other s _ r []); [simpl; by rewrite decide_False
                                            |simpl; by rewrite app_nil_r|done|apply Hinv].
  - (* Encoder *)
    destruct (Hinv r0) as (ps & last & Hramp & Hmarks & Hlast & Hdur & Hprom).
    unfold pcOf in Hmarks, Hlast, Hprom. rewrite Hpc in Hmarks, Hlast, Hprom.
    specialize (Hprom eq_refl). simpl in Hmarks.
    set (d0 := Sim.driver (Sim.flows s r0)) in *.
    unfold Queue.transcodeVideoFile_onEvent in Hstep.
    pose proof (onEvent_cases (Queue.playlistPath (Sim.outputDir jd) r0) e d0 Hprom) as Hcases.
    pose proof (onEvent_reports (Queue.playlistPath (Sim.outputDir jd) r0) e d0 Hdur) as Hrep.
    pose proof (onEvent_duration (Queue.playlistPath (Sim.outputDir jd) r0) e d0 Hdur) as Hdur'.
    destruct (Queue.onEvent (Queue.playlistPath (Sim.outputDir jd) r0) e d0) as [calls drv].
    simpl in Hcases, Hrep, Hdur'.
    set (s0 := Sim.set_flow s r0
                 (Sim.mkFlow Sim.PcEncoding (Sim.lastProgress (Sim.flows s r0)) drv)) in *.
    assert (Sim.flows s0 r0
            = Sim.mkFlow Sim.PcEncoding (Sim.lastProgress (Sim.flows s r0)) drv) as Hf0.
    { subst s0. simpl. by rewrite decide_True. }
    assert (∀ r', r' ≠ r0 → Sim.flows s0 r' = Sim.flows s r') as Hf0'.
    { intros r' Hne. subst s0. simpl. by rewrite decide_False. }
    assert (Sim.emitted s0 = Sim.emitted s) as He0 by done.
    destruct Hcases as [[Hnone Hcalls]|[[Hres Hcalls]|(message & Hfail & Hcalls)]].
    + (* pending *)
      rewrite Hnone in Hstep. injection Hstep as <-.
      destruct Hcalls as [->|(ct & dur & ->)]; simpl.
      * destruct (decide (r = r0)) as [->|Hne].
        -- exists ps, last. unfold pcOf. rewrite Hf0, He0. simpl. by split_and!.
        -- apply (flowAnnounced_other s _ r []); [by apply Hf0'
                                                 |by rewrite app_nil_r|done|apply Hinv].
      * set (p := Queue.percentOf ct dur) in *.
        destruct (progressCallback_emitted jd now r0 p s0) as [Hem Hfl].
        rewrite Hf0 in Hem, Hfl. cbn [Sim.pc Sim.driver Sim.lastProgress] in Hem, Hfl.
        assert (Qeq_bool p 100 = false) as H100 by apply percentOf_not_100.
        rewrite H100, orb_false_r in Hem, Hfl.
        apply Forall_singleton in Hrep as [[Hp0 Hp99]|Hbad];
          [|by rewrite Hbad in H100].
        destruct (Qle_bool 5 (p - Sim.lastProgress (Sim.flows s r0))) eqn:Hgo.
        -- destruct (decide (r = r0)) as [->|Hne].
           ++ exists (ps ++ [p])%list, p. unfold pcOf.
              rewrite Hfl, bool_decide_eq_true_2 by done. simpl.
              rewrite Hem, ?He0, marks_app, Hmarks. unfold marks, markOf. simpl.
              rewrite decide_True by done. simpl.
              split_and!; try done.
              ** apply (ramp_step ps last p); [done| |done].
                 apply Qle_bool_iff in Hgo. by rewrite <- Hlast.
              ** by rewrite fmap_app.
           ++ eapply (flowAnnounced_other s _ r).
              ** rewrite Hfl, bool_decide_eq_false_2 by done. cbn [andb]. by apply Hf0'.
              ** by rewrite Hem, ?He0.
              ** unfold marks, markOf. simpl. by rewrite decide_False by done.
              ** apply Hinv.
        -- destruct (decide (r = r0)) as [->|Hne].
           ++ exists ps, last. unfold pcOf. rewrite Hfl. cbn [andb]. rewrite Hf0. simpl.
              rewrite Hem, ?He0, app_nil_r. by split_and!.
           ++ apply (flowAnnounced_other s _ r []).
              ** rewrite Hfl. cbn [andb]. by apply Hf0'.
              ** by rewrite Hem, ?He0.
              ** done.
              ** apply Hinv.
    + (* resolved *)
      rewrite Hres in Hstep. injection Hstep as <-. rewrite Hcalls. simpl.
      destruct (progressCallback_emitted jd now r0 100%Q s0) as [Hem Hfl].
      rewrite Hf0 in Hem, Hfl. cbn [Sim.pc Sim.driver Sim.lastProgress] in Hem, Hfl.
      rewrite orb_true_r in Hem, Hfl. cbn [andb] in Hfl.
      destruct (decide (r = r0)) as [->|Hne].
      * exists ps, last. unfold pcOf, Sim.onResolved. simpl.
        rewrite decide_True by done. simpl.
        rewrite Hfl, bool_decide_eq_true_2 by done. simpl.
        rewrite marks_app, Hem, marks_app, ?He0, Hmarks. unfold marks, markOf. simpl.
        rewrite !decide_True by done. simpl. rewrite <- app_assoc. by split_and!.
      * eapply (flowAnnounced_other s _ r).
        -- unfold Sim.onResolved. simpl. rewrite decide_False by done.
           rewrite Hfl, bool_decide_eq_false_2 by done. by apply Hf0'.
        -- unfold Sim.onResolved. simpl. rewrite Hem, ?He0, <- app_assoc. done.
        -- unfold marks, markOf. simpl. by rewrite !decide_False by done.
        -- apply Hinv.
    + (* rejected *)
      rewrite Hfail in Hstep. injection Hstep as <-. rewrite Hcalls. simpl.
      destruct (decide (r = r0)) as [->|Hne].
      * exists ps, last. unfold pcOf. simpl. rewrite decide_True by done. simpl.
        rewrite decide_True by done. simpl. by split_and!.
      * apply (flowAnnounced_other s _ r []).
        -- simpl. rewrite decide_False by done. by apply Hf0'.
        -- simpl. by rewrite app_nil_r.
        -- done.
        -- apply Hinv.
  - (* FailVideo *)
    injection Hstep as <-. destruct (decide (r = r0)) as [->|Hne].
    + destruct (Hinv r0) as (ps & last & Hramp & Hmarks & Hlast & Hdur & Hprom).
      unfold pcOf in *. rewrite Hpc in *. exists ps, last. unfold pcOf. simpl.
      rewrite decide_True by done. simpl. rewrite marks_app, Hmarks. unfold marks, markOf. simpl.
      rewrite decide_True by done. simpl. by split_and!.
    + eapply (flowAnnounced_other s _ r); [simpl; by rewrite decide_False
                                          |simpl; done| |apply Hinv].
      unfold marks, markOf. simpl. by rewrite decide_False by done.
Qed.

Lemma StronglySorted_snoc {A} (R : A → A → Prop) (l : list A) (x : A) :
  StronglySorted R l → Forall (λ y, R y x) l → StronglySorted R (l ++ [x]).
Proof.
  induction 1 as [|y l Hl IH Hy]; intros Hx; simpl.
  - repeat constructor.
  - apply Forall_cons in Hx as [Hyx Hx]. constructor; [by apply IH|].
    apply Forall_app. split; [done|]. by constructor.
Qed.

Lemma ramp_facts ps top :
  ramp ps top →
  head ps = Some 0%Q ∧ last ps = Some top
  ∧ Forall (λ p, (0 <= p <= 99)%Q) ps
  ∧ Forall (λ p, (p <= top)%Q) ps
  ∧ StronglySorted Qlt ps.
Proof.
  induction 1 as [|ps top p Hr (Hh & Hl & Hin & Hle & Hs) Hstep Hp].
  - split_and!; try done; repeat constructor; done.
  - assert (0 <= top)%Q as Hlast0.
    { destruct ps as [|q ps] using rev_ind; [done|].
      rewrite last_snoc in Hl. injection Hl as ->.
      apply Forall_app in Hin as [_ [[? _] _]%Forall_cons]. done. }
    assert (top < p)%Q as Hlt.
    { revert Hstep. unfold Qlt, Qle, Qminus, Qplus, Qopp.
      destruct p as [pn pd], top as [tn td]. simpl. nia. }
    split_and!.
    + destruct ps; [done|]. done.
    + by rewrite last_snoc.
    + apply Forall_app. split; [done|]. constructor; [|done]. split; [|done].
      apply Qle_trans with top; [done|]. by apply Qlt_le_weak.
    + apply Forall_app. split.
      * eapply Forall_impl; [exact Hle|]. intros q Hq. simpl in *.
        apply Qle_trans with top; [done|]. by apply Qlt_le_weak.
      * constructor; [apply Qle_refl|done].
    + apply StronglySorted_snoc; [done|].
      eapply Forall_impl; [exact Hle|]. intros q Hq. simpl in *.
      by apply Qle_lt_trans with top.
Qed.

Lemma eventsAt_terminal p ps :
  (Completed ∈ eventsAt p ps ↔ p = Sim.PcDone)
  ∧ (Failed ∈ eventsAt p ps ↔ p = Sim.PcFailed).
Proof.
  assert (Completed ∉ Progress <$> ps) as Hc.
  { by intros (? & ? & ?)%list_elem_of_fmap. }
  assert (Failed ∉ Progress <$> ps) as Hf.
  { by intros (? & ? & ?)%list_elem_of_fmap. }
  destruct p; simpl; rewrite ?elem_of_app, ?elem_of_cons, ?elem_of_nil;
    split; split; try done; try tauto; intros; destruct_or?; try done; auto.
Qed.

Lemma run_flowAnnounced jd tr s s' :
  (∀ r, flowAnnounced s r) → Sim.run jd tr s = Some s' → ∀ r, flowAnnounced s' r.
Proof.
  revert s. induction tr as [|[now l] tr IH]; intros s Hinv Hrun; simpl in Hrun.
  - by injection Hrun as <-.
  - destruct (Sim.step jd now l s) as [s1|] eqn:Hstep; [|done].
    apply (IH s1); [|done]. by apply (flowAnnounced_step jd now l s).
Qed.

(** X17. What a run announces about a resolution, whatever the store the
    flows start from and whatever the encoders do: nothing before the
    job is marked as processing; then progress 0; then, while the encoder
    runs, percentages of at most 99, each at least 5 above the one
    announced before, hence strictly increasing; and at the end either
    progress 100 followed by the completion event, exactly when the flow
    has finished, or the failure event, exactly when the flow has failed
    the video.  Nothing about the resolution is announced after that. *)
Theorem run_announces_increasing_progress
    (jd : Sim.JobData) (st : MemStorage.t) (tr : list (Z * Sim.label)) (s : Sim.t)
    (r : Resolution.t) :
  Sim.run jd tr (Sim.start st) = Some s →
  ∃ ps last,
    marks r (Sim.emitted s) = eventsAt (pcOf s r) ps
    ∧ ramp ps last
    ∧ head ps = Some 0%Q
    ∧ Forall (λ p, (0 <= p <= 99)%Q) ps
    ∧ StronglySorted Qlt ps
    ∧ (Completed ∈ marks r (Sim.emitted s) ↔ pcOf s r = Sim.PcDone)
    ∧ (Failed ∈ marks r (Sim.emitted s) ↔ pcOf s r = Sim.PcFailed).
Proof.
  intros Hrun.
  destruct (run_flowAnnounced jd tr (Sim.start st) s (flowAnnounced_start st) Hrun r)
    as (ps & last & Hramp & Hmarks & _).
  destruct (ramp_facts ps last Hramp) as (Hh & _ & Hin & _ & Hs).
  exists ps, last. rewrite Hmarks.
  destruct (eventsAt_terminal (pcOf s r) ps) as [Hc Hf]. by split_and!.
Qed.

Lemma run_announces_increasing_progress_witness :
  ∃ s, Sim.run demoJobs demoTrace (Sim.start demoQueued) = Some s
       ∧ (Completed ∈ marks Resolution.R360P (Sim.emitted s)
          ↔ pcOf s Resolution.R360P = Sim.PcDone).
Proof.
  destruct (Sim.run demoJobs demoTrace (Sim.start demoQueued)) as [s|] eqn:Hrun;
    [|by vm_compute in Hrun].
  destruct (run_announces_increasing_progress demoJobs demoQueued demoTrace s
              Resolution.R360P Hrun) as (ps & top & _ & _ & _ & _ & _ & Hc & _).
  exists s. split; [reflexivity|exact Hc].
Defined.

(** ** A failure followed by a completion *)

Lemma progressCallback_pc jd now r p s r' :
  pcOf (Sim.progressCallback jd now r p s) r' = pcOf s r'.
Proof.
  unfold pcOf. rewrite (proj2 (progressCallback_emitted jd now r p s) r').
  destruct (_ || _); simpl; [|done]. by case_bool_decide; simplify_eq.
Qed.

Lemma callbacks_pc jd now r calls s r' :
  pcOf (foldl (λ s progress, Sim.progressCallback jd now r progress s) s calls) r' = pcOf s r'.
Proof.
  revert s. induction calls as [|p calls IH]; intros s; simpl; [done|].
  by rewrite IH, progressCallback_pc.
Qed.

(** A flow that has finished or failed stays where it is. *)
Lemma step_keeps_terminal jd now l s s' r :
  Sim.step jd now l s = Some s' →
  pcOf s r = Sim.PcDone ∨ pcOf s r = Sim.PcFailed →
  pcOf s' r = pcOf s r.
Proof.
  intros Hstep Hterm.
  destruct l as [r0|r0|r0|r0 hasFfmpeg|r0 e|r0]; simpl in Hstep;
    destruct (Sim.pc (Sim.flows s r0)) as [| | | | |em ee| |] eqn:Hpc; try discriminate Hstep.
  all: destruct (decide (r = r0)) as [->|Hne];
    [unfold pcOf in Hterm; rewrite Hpc in Hterm; by destruct Hterm|].
  - injection Hstep as <-. unfold pcOf. simpl. by rewrite decide_False.
  - injection Hstep as <-. unfold pcOf. simpl. by rewrite decide_False.
  - injection Hstep as <-. unfold pcOf. simpl. by rewrite decide_False.
  - destruct hasFfmpeg; injection Hstep as <-; unfold pcOf; simpl; by rewrite decide_False.
  - destruct (Queue.transcodeVideoFile_onEvent _ r0 e _) as [calls drv].
    set (s0 := Sim.set_flow s r0 _) in Hstep.
    assert (pcOf s0 r = pcOf s r) as H0.
    { unfold pcOf, s0. simpl. by rewrite decide_False. }
    pose proof (callbacks_pc jd now r0 calls s0 r) as Hc.
    destruct (Queue.promise drv) as [[playlist|message]|]; injection Hstep as <-.
    + unfold pcOf, Sim.onResolved in *. simpl. rewrite decide_False by done.
      by rewrite Hc.
    + unfold pcOf, Sim.failJob in *. simpl. rewrite decide_False by done. by rewrite Hc.
    + by rewrite Hc.
  - injection Hstep as <-. unfold pcOf. simpl. by rewrite decide_False.
Qed.

Lemma run_keeps_terminal jd tr s s' r :
  Sim.run jd tr s = Some s' →
  pcOf s r = Sim.PcDone ∨ pcOf s r = Sim.PcFailed →
  pcOf s' r = pcOf s r.
Proof.
  revert s. induction tr as [|[now l] tr IH]; intros s Hrun Hterm; simpl in Hrun.
  - by injection Hrun as <-.
  - destruct (Sim.step jd now l s) as [s1|] eqn:Hstep; [|done].
    pose proof (step_keeps_terminal jd now l s s1 r Hstep Hterm) as H1.
    rewrite <- H1. apply IH; [done|]. by rewrite H1.
Qed.

Lemma progressCallback_video jd now r p s v :
  videoOf jd s = Some v →
  ∃ tp, videoOf jd (Sim.progressCallback jd now r p s)
        = Some (Video.spread v (Video.mkPartial None None tp None None None)).
Proof.
  intros Hv. unfold Sim.progressCallback.
  destruct (_ || _); [|exists None; rewrite Hv; by destruct v].
  unfold videoOf in *. simpl. unfold MemStorage.getVideo. rewrite Hv.
  eexists (Some _). by rewrite updateTranscodingJob_videos, updateVideo_videos, Hv.
Qed.

(** X18. When one resolution of a video has failed and another one then
    finishes, the completion puts the video, which was FAILED, back to
    TRANSCODING and leaves its error message in place.  From then on the
    video can never become COMPLETED, whatever the remaining flows do. *)
Theorem later_completion_hides_failure
    (jd : Sim.JobData) (now : Z) (s : Sim.t) (r : Resolution.t) (v : Video.t) :
  (∀ r r', Sim.jobId jd r = Sim.jobId jd r' → r = r') →
  coherent jd s →
  videoOf jd s = Some v →
  Video.status v = VideoStatus.FAILED →
  pcOf s r = Sim.PcEncoding →
  ∃ s' v',
    Sim.step jd now (Sim.Encoder r (Queue.Close (Some 0))) s = Some s'
    ∧ videoOf jd s' = Some v'
    ∧ Video.status v' = VideoStatus.TRANSCODING
    ∧ Video.errorMessage v' = Video.errorMessage v
    ∧ Video.completedAt v' = None
    ∧ ∀ tr s'', Sim.run jd tr s' = Some s'' →
        ∃ v'', videoOf jd s'' = Some v'' ∧ Video.status v'' ≠ VideoStatus.COMPLETED.
Proof.
  intros Hdistinct Hc Hv Hfailed Hpc.
  destruct (coh_failed jd s Hc v Hv Hfailed) as [r0 Hr0].
  assert (r0 ≠ r) as Hne by (intros ->; congruence).
  pose proof (coh_pending jd s Hc r) as Hprom. rewrite Hpc in Hprom. specialize (Hprom eq_refl).
  set (pl := Queue.playlistPath (Sim.outputDir jd) r).
  set (drv := Queue.mkDriver (Queue.duration (Sim.driver (Sim.flows s r)))
                (Queue.currentTime (Sim.driver (Sim.flows s r)))
                (Some (Queue.Resolved pl))).
  set (s0 := Sim.set_flow s r
               (Sim.mkFlow Sim.PcEncoding (Sim.lastProgress (Sim.flows s r)) drv)).
  set (s1 := Sim.progressCallback jd now r 100%Q s0).
  assert (Sim.step jd now (Sim.Encoder r (Queue.Close (Some 0))) s
          = Some (Sim.onResolved jd now r s1)) as Hstep.
  { unfold Sim.step. unfold pcOf in Hpc. rewrite Hpc.
    unfold Queue.transcodeVideoFile_onEvent. cbn [Queue.onEvent].
    rewrite bool_decide_eq_true_2 by done. unfold Queue.settle. rewrite Hprom.
    reflexivity. }
  assert (videoOf jd s0 = Some v) as Hv0 by done.
  destruct (progressCallback_views jd now r 100%Q s0 v Hv0)
    as (_ & _ & _ & v1 & Hv1 & _ & _ & Hfull & _).
  destruct (progressCallback_video jd now r 100%Q s0 v Hv0) as (tp & Hv1').
  fold s1 in Hv1, Hv1'.
  assert (full v1 r0 = false) as Hnot.
  { rewrite Hfull by done. apply (not_full_while_running jd s r0 v Hc Hv). congruence. }
  set (cp := ResRecord.set (default ResRecord.empty (Video.transcodingProgress v1)) r 100%Q).
  assert (forallb (Sim.at100 cp) Resolution.all = false) as Hall.
  { assert (Sim.at100 cp r0 = false) as H0.
    { unfold Sim.at100, cp. rewrite ResRecord_get_set_ne by done. exact Hnot. }
    unfold Resolution.all. simpl. destruct r0; rewrite H0; by rewrite ?andb_false_r. }
  set (v' := Video.spread v1
               (Video.mkPartial (Some VideoStatus.TRANSCODING) None (Some (Some cp))
                  (Some (Some (ResRecord.set (default ResRecord.empty (Video.hlsUrls v1))
                                             r (Sim.hlsUrlOf jd r))))
                  None (Some None))).
  assert (videoOf jd (Sim.onResolved jd now r s1) = Some v') as Hv'.
  { unfold videoOf, Sim.onResolved in *.
    cbn [Sim.store Sim.emit Sim.set_pc Sim.set_flow Sim.set_store].
    unfold MemStorage.getVideo.
    rewrite updateTranscodingJob_videos, Hv1. fold cp. rewrite Hall.
    by rewrite updateVideo_videos, updateTranscodingJob_videos, Hv1. }
  exists (Sim.onResolved jd now r s1), v'. split_and!.
  - done.
  - done.
  - done.
  - unfold v'. simpl. rewrite Hv1' in Hv1. injection Hv1 as <-. done.
  - done.
  - intros tr s'' Hrun.
    pose proof (step_coherent jd Hdistinct now _ s _ Hc Hstep) as Hc'.
    pose proof (run_coherent jd tr _ s'' Hdistinct Hc' Hrun) as Hc''.
    destruct (coh_video jd s'' Hc'') as [v'' Hv''].
    exists v''. split; [done|]. intros Hdone.
    pose proof (proj1 (coh_completed jd s'' Hc'' v'' Hv'') Hdone r0) as Hr0''.
    assert (pcOf s'' r0 = Sim.PcFailed) as Hstill.
    { rewrite (run_keeps_terminal jd tr _ s'' r0 Hrun);
        rewrite (step_keeps_terminal jd now _ s _ r0 Hstep); auto. }
    congruence.
Qed.

Lemma later_completion_hides_failure_witness :
  ∃ s s' v',
    Sim.run demoJobs (take 16 demoTrace) (Sim.start demoQueued) = Some s
    ∧ Sim.step demoJobs 16 (Sim.Encoder Resolution.R360P (Queue.Close (Some 0))) s = Some s'
    ∧ videoOf demoJobs s' = Some v'
    ∧ Video.status v' = VideoStatus.TRANSCODING.
Proof.
  assert ((λ s, (Video.status <$> videoOf demoJobs s, pcOf s Resolution.R360P))
            <$> Sim.run demoJobs (take 16 demoTrace) (Sim.start demoQueued)
          = Some (Some VideoStatus.FAILED, Sim.PcEncoding)) as Hfacts
    by (vm_compute; reflexivity).
  destruct (Sim.run demoJobs (take 16 demoTrace) (Sim.start demoQueued)) as [s|] eqn:Hrun;
    [|discriminate Hfacts].
  simpl in Hfacts. injection Hfacts as Hstatus Hpc.
  destruct (videoOf demoJobs s) as [v|] eqn:Hv; [|discriminate Hstatus].
  injection Hstatus as Hstatus.
  assert (∀ r r', Sim.jobId demoJobs r = Sim.jobId demoJobs r' → r = r') as Hdistinct.
  { by intros [] []. }
  pose proof (run_coherent demoJobs _ _ s Hdistinct
                (start_coherent demoJobs demoQueued demoQueued_queued) Hrun) as Hc.
  destruct (later_completion_hides_failure demoJobs 16 s Resolution.R360P v
              Hdistinct Hc Hv Hstatus Hpc) as (s' & v' & Hstep & Hv' & Hst & _).
  exists s, s', v'. split; [reflexivity|]. split; [exact Hstep|]. split; [exact Hv'|exact Hst].
Defined.

(** ** What the worker publishes *)

Lemma worker_run_snoc jd r es e w :
  Worker.run jd r (es ++ [e]) w
  = Worker.onProcessEvent jd e.1 r e.2 (Worker.run jd r es w).
Proof. unfold Worker.run. by rewrite foldl_app. Qed.

Lemma worker_promise jd now r e w :
  Queue.promise (Worker.driver (Worker.onProcessEvent jd now r e w))
  = Queue.promise (Queue.onEvent (Queue.playlistPath (Sim.outputDir jd) r) e
                     (Worker.driver w)).2.
Proof.
  unfold Worker.onProcessEvent, Queue.transcodeVideo_onEvent.
  destruct (Queue.onEvent _ e (Worker.driver w)) as [calls drv]. simpl.
  assert (∀ w0, Worker.driver
                  (foldl (λ w progress, Worker.progressCallback jd now r progress w) w0 calls)
                = Worker.driver w0) as Hd.
  { induction calls as [|p calls IH]; intros w0; simpl; [done|]. rewrite IH.
    unfold Worker.progressCallback. by destruct (Qle_bool _ _). }
  destruct (Queue.promise (Worker.driver w)); [by rewrite Hd|].
  destruct (Queue.promise drv) as [[pl|msg]|] eqn:Hp; simpl; by rewrite Hd.
Qed.

(** While the promise is pending the worker has published a ramp without
    its leading 0. *)
Lemma worker_pending jd r es :
  let w := Worker.run jd r es Worker.started in
  Queue.promise (Worker.driver w) = None →
  ∃ ps, ramp (0%Q :: ps) (Worker.lastProgress w)
        ∧ marks r (Worker.published w) = Progress <$> ps
        ∧ 0 ≤ Queue.duration (Worker.driver w).
Proof.
  induction es as [|[now e] es IH] using rev_ind; simpl.
  - intros _. exists []. split_and!; [constructor|done|done].
  - rewrite worker_run_snoc. simpl. set (w := Worker.run jd r es Worker.started) in *.
    intros Hnone. pose proof Hnone as Hnone'. rewrite worker_promise in Hnone'.
    assert (Queue.promise (Worker.driver w) = None) as Hprom.
    { rewrite onEvent_promise in Hnone'. by destruct (Queue.promise (Worker.driver w)). }
    destruct (IH Hprom) as (ps & Hramp & Hmarks & Hdur).
    pose proof (onEvent_cases (Queue.playlistPath (Sim.outputDir jd) r) e _ Hprom) as Hcases.
    pose proof (onEvent_reports (Queue.playlistPath (Sim.outputDir jd) r) e _ Hdur) as Hrep.
    pose proof (onEvent_duration (Queue.playlistPath (Sim.outputDir jd) r) e _ Hdur) as Hdur'.
    unfold Worker.onProcessEvent, Queue.transcodeVideo_onEvent in *.
    destruct (Queue.onEvent _ e (Worker.driver w)) as [calls drv].
    simpl in Hcases, Hrep, Hdur', Hnone'. rewrite Hprom, Hnone'.
    destruct Hcases as [[_ Hcalls]|[[Hres _]|(message & Hfail & _)]]; [|congruence..].
    destruct Hcalls as [->|(ct & dur & ->)]; simpl.
    + exists ps. by split_and!.
    + set (p := Queue.percentOf ct dur) in *.
      apply Forall_singleton in Hrep as [[Hp0 Hp99]|Hbad];
        [|pose proof (percentOf_not_100 ct dur) as H100; fold p in H100;
          by rewrite Hbad in H100].
      unfold Worker.progressCallback. simpl.
      destruct (Qle_bool 5 (p - Worker.lastProgress w)) eqn:Hgo; simpl.
      * exists (ps ++ [p])%list. split_and!; [|by rewrite marks_app, Hmarks, fmap_app; unfold marks, markOf; simpl; rewrite decide_True|done].
        apply (ramp_step (0%Q :: ps) (Worker.lastProgress w) p); [done| |done].
        by apply Qle_bool_iff.
      * exists ps. by split_and!.
Qed.

(** X19. The worker publishes what the in-process flow announces, less
    the opening progress 0 and, sometimes, less the closing 100: as long
    as its encoder runs, the percentages it has published are at most 99
    and each is at least 5 above the one before (the first at least 5);
    when the encoder exits cleanly it publishes progress 100 only if the
    last percentage published is at most 95, and then the completion
    event; when the encoder fails it publishes the failure event. *)
Theorem worker_publishes_threshold_progress
    (jd : Sim.JobData) (r : Resolution.t) (es : list (Z * Queue.ProcessEvent))
    (now : Z) (e : Queue.ProcessEvent) :
  let w := Worker.run jd r es Worker.started in
  let w' := Worker.onProcessEvent jd now r e w in
  Queue.promise (Worker.driver w) = None →
  ∃ ps,
    ramp (0%Q :: ps) (Worker.lastProgress w)
    ∧ marks r (Worker.published w) = Progress <$> ps
    ∧ (e = Queue.Close (Some 0) →
       marks r (Worker.published w')
       = ((Progress <$> ps)
          ++ (if Qle_bool (Worker.lastProgress w) 95 then [Progress 100%Q] else [])
          ++ [Completed])%list)
    ∧ ((∃ message, Encoder.outcomeOf (Queue.playlistPath (Sim.outputDir jd) r) e
                   = Some (Queue.Failed message)) →
       marks r (Worker.published w') = ((Progress <$> ps) ++ [Failed])%list).
Proof.
  intros w w' Hprom.
  destruct (worker_pending jd r es Hprom) as (ps & Hramp & Hmarks & Hdur).
  fold w in Hramp, Hmarks, Hdur.
  exists ps. split_and!; [done..| |].
  - intros ->. unfold w', Worker.onProcessEvent, Queue.transcodeVideo_onEvent.
    cbn [Queue.onEvent]. rewrite bool_decide_eq_true_2 by done.
    unfold Queue.settle. rewrite Hprom. simpl. unfold Worker.progressCallback. simpl.
    assert (Qle_bool 5 (100 - Worker.lastProgress w) = Qle_bool (Worker.lastProgress w) 95)
      as ->.
    { apply eq_true_iff_eq. rewrite !Qle_bool_iff.
      unfold Qle, Qminus, Qplus, Qopp. destruct (Worker.lastProgress w) as [n d].
      simpl. lia. }
    destruct (Qle_bool (Worker.lastProgress w) 95); simpl.
    + rewrite !marks_app, Hmarks. unfold marks, markOf. simpl.
      rewrite !decide_True by done. by rewrite <- app_assoc.
    + rewrite marks_app, Hmarks. unfold marks, markOf. simpl.
      rewrite !decide_True by done. done.
  - intros (message & Hout). unfold w', Worker.onProcessEvent, Queue.transcodeVideo_onEvent.
    pose proof (onEvent_promise (Queue.playlistPath (Sim.outputDir jd) r) e
                  (Worker.driver w)) as Hp.
    rewrite Hprom, Hout in Hp.
    assert ((Queue.onEvent (Queue.playlistPath (Sim.outputDir jd) r) e (Worker.driver w)).1
            = []) as Hcalls.
    { destruct e as [output|output|code|msg]; simpl in Hout; try done.
      simpl. destruct (bool_decide (code = Some 0)); [done|]. done. }
    destruct (Queue.onEvent _ e (Worker.driver w)) as [calls drv]. simpl in Hp, Hcalls.
    subst calls. rewrite Hprom, Hp. simpl.
    rewrite marks_app, Hmarks. unfold marks, markOf. simpl. by rewrite decide_True.
Qed.

Lemma worker_publishes_threshold_progress_witness :
  marks Resolution.R720P
    (Worker.published
       (Worker.onProcessEvent demoJobs 9 Resolution.R720P (Queue.Close (Some 0))
          (Worker.run demoJobs Resolution.R720P
             [(1, Queue.Stderr "Duration: 00:00:10.00");
              (2, Queue.Stdout "out_time_ms=9700000")] Worker.started)))
  = [Progress (Queue.percentOf (Queue.secondsOf 9700000) 10); Completed].
Proof.
  destruct (worker_publishes_threshold_progress demoJobs Resolution.R720P
              [(1, Queue.Stderr "Duration: 00:00:10.00");
               (2, Queue.Stdout "out_time_ms=9700000")] 9 (Queue.Close (Some 0)) eq_refl)
    as (ps & _ & Hps & Hclose & _).
  rewrite (Hclose eq_refl). vm_compute in Hps.
  destruct ps as [|p0 [|p1 ps]]; try discriminate Hps.
  injection Hps as <-. reflexivity.
Defined.

(** ** From the browser's file to the transcoded video *)

Lemma completeStore_sessions now jobIds outputPath sid session st :
  MemStorage.uploadSessions (Routes.completeStore now jobIds outputPath sid session st)
  = MemStorage.uploadSessions
      (MemStorage.updateUploadSession sid
         (UploadSession.mkPartial None (Some SessionStatus.completed)) st).2.
Proof.
  assert (∀ id u st0, MemStorage.uploadSessions (MemStorage.updateVideo id u st0).2
                      = MemStorage.uploadSessions st0) as Hu.
  { intros id u st0. unfold MemStorage.updateVideo.
    by destruct (MemStorage.videos st0 !! id). }
  unfold Routes.completeStore. rewrite Hu. simpl. by rewrite Hu.
Qed.

(** X20. The whole way of a file through the server: after POST
    /api/upload/session, the browser's chunks posted in any order while
    the storage is not full, and POST /api/upload/complete, the session is completed with every index
    received, and whatever the three transcoding flows then do, in any
    interleaving, the video is COMPLETED exactly when its three jobs are
    completed, it is FAILED only if one of them failed, and it has the
    playback URL of a resolution exactly when that resolution's job is
    completed. *)
Theorem upload_then_transcode
    (videoId sessionId filename mimeType outputPath outputDir : string)
    (fileSize t0 t1 : Z) (env : Z → ChunkRoute.Env) (tempName : Z → string)
    (jobIds : Resolution.t → string)
    (order : list Client.ChunkInfo) (st : MemStorage.t) (d : Disk.t) :
  ChunkRoute.unhindered env →
  filename ≠ "" → 0 < fileSize → sessionId ≠ "" →
  (∀ i, tempName i ≠ sessionId) →
  (∀ sz, Disk.chunks d !! sessionId ≠ Some (Disk.File sz)) →
  order ≡ₚ Client.createChunks fileSize →
  (∀ r r', jobIds r = jobIds r' → r = r') →
  let body := Upload.mkSessionRequest (Some filename) (Some fileSize) (Some mimeType) in
  let created := Upload.postUploadSession videoId sessionId t0 body st in
  let uploaded := ChunkRoute.uploadAll env sessionId tempName order created.2 d in
  let jd := Sim.mkJobData videoId jobIds outputPath outputDir in
  ∃ session,
    Routes.completeChecks sessionId uploaded.1.2 uploaded.2 = inr session
    ∧ ∀ tr s,
        Sim.run jd tr
          (Sim.start (Routes.completeStore t1 jobIds outputPath sessionId session
                        uploaded.1.2)) = Some s →
        (∃ session',
           MemStorage.uploadSessions (Sim.store s) !! sessionId = Some session'
           ∧ UploadSession.status session' = SessionStatus.completed
           ∧ UploadSession.uploadedChunks session'
             = seqZ 0 (UploadSession.totalChunks session'))
        ∧ ∃ v,
            MemStorage.videos (Sim.store s) !! videoId = Some v
            ∧ (Video.status v = VideoStatus.COMPLETED
               ↔ ∀ r, jobStatusOf (Sim.store s) (jobIds r) = Some JobStatus.completed)
            ∧ (Video.status v = VideoStatus.FAILED
               → ∃ r, jobStatusOf (Sim.store s) (jobIds r) = Some JobStatus.failed)
            ∧ (∀ r, hlsUrlPresent v r
                    ↔ jobStatusOf (Sim.store s) (jobIds r) = Some JobStatus.completed).
Proof.
  intros Hunh Hfn Hsize Hsid Htmp Hdir Hperm Hdistinct body created uploaded jd.
  destruct (upload_in_any_order_state videoId sessionId filename mimeType fileSize t0 env
              tempName order st d Hunh Hfn Hsize Hsid Htmp Hdir Hperm)
    as (_ & _ & _ & session & v0 & Hc & _ & Hfull & Hv0 & _ & Hvid & Hhls & Hses).
  fold body created uploaded in Hc, Hv0, Hses.
  exists session. split; [exact Hc|]. intros tr s Hrun.
  set (st3 := Routes.completeStore t1 jobIds outputPath sessionId session uploaded.1.2) in *.
  assert (queued jd st3) as Hq.
  { unfold jd. rewrite <- Hvid.
    apply (completeStore_queued t1 jobIds outputPath outputDir sessionId session
             uploaded.1.2 v0); [by rewrite Hvid|done|done]. }
  pose proof (run_coherent jd tr _ s Hdistinct (start_coherent jd st3 Hq) Hrun) as Hcoh.
  split.
  - pose proof (run_sameElsewhere jd tr _ s Hrun) as Hsame.
    rewrite (same_sessions jd _ _ Hsame). simpl. unfold st3.
    rewrite completeStore_sessions. unfold MemStorage.updateUploadSession.
    rewrite Hses. simpl. rewrite lookup_insert_eq. eexists. split; [done|].
    split; [done|]. simpl. exact Hfull.
  - destruct (coh_video jd s Hcoh) as [v Hv]. exists v.
    pose proof (coh_jobs jd s Hcoh) as Hjobs. unfold jobOf in Hjobs. simpl in Hjobs.
    split; [exact Hv|]. split_and!.
    + rewrite (coh_completed jd s Hcoh v Hv). split.
      * intros Hall r. by rewrite Hjobs, Hall.
      * intros Hall r. apply statusAt_completed. specialize (Hall r).
        rewrite Hjobs in Hall. by injection Hall.
    + intros Hf. destruct (coh_failed jd s Hcoh v Hv Hf) as [r Hr].
      exists r. by rewrite Hjobs, Hr.
    + intros r. rewrite (coh_hls jd s Hcoh v r Hv). split.
      * intros Hr. by rewrite Hjobs, Hr.
      * intros Hr. apply statusAt_completed. rewrite Hjobs in Hr. by injection Hr.
Qed.

Lemma upload_then_transcode_witness :
  ∃ session,
    Routes.completeChecks "s9"
      (ChunkRoute.uploadAll demoEnv "s9" (λ i, "temp_" +:+ pretty i)
         (reverse (Client.createChunks 5000000))
         (Upload.postUploadSession "v9" "s9" 0
            (Upload.mkSessionRequest (Some "clip.mp4") (Some 5000000) (Some "video/mp4"))
            MemStorage.empty).2
         (Disk.mk ∅ ∅ ∅)).1.2
      (ChunkRoute.uploadAll demoEnv "s9" (λ i, "temp_" +:+ pretty i)
         (reverse (Client.createChunks 5000000))
         (Upload.postUploadSession "v9" "s9" 0
            (Upload.mkSessionRequest (Some "clip.mp4") (Some 5000000) (Some "video/mp4"))
            MemStorage.empty).2
         (Disk.mk ∅ ∅ ∅)).2
    = inr session.
Proof.
  destruct (upload_then_transcode "v9" "s9" "clip.mp4" "video/mp4" "uploads/v9.mp4"
              "transcoded/v9" 5000000 0 20 demoEnv (λ i, "temp_" +:+ pretty i)
              (Sim.jobId demoJobs) (reverse (Client.createChunks 5000000))
              MemStorage.empty (Disk.mk ∅ ∅ ∅))
    as (session & Hc & _).
  - exact demoEnv_unhindered.
  - discriminate.
  - lia.
  - discriminate.
  - intros i. discriminate.
  - intros sz. discriminate.
  - apply reverse_Permutation.
  - by intros [] [].
  - exists session. exact Hc.
Defined.

(** ** The client's retries and the server's emissions *)

(** X21. The browser posts a chunk at most three times, stopping at the
    first attempt that is answered with a 2xx status: it succeeds exactly
    when one of the three attempts does, it waits 1 s after a failed
    first attempt and 2 s after a failed second one and not after the
    third, so the 8 s cap of the backoff is never reached. *)
Theorem uploadChunkWithRetry_three_attempts (ok : Z → bool) :
  let result := (Retry.uploadChunkWithRetry ok).1.1 in
  let attempts := (Retry.uploadChunkWithRetry ok).1.2 in
  let delays := (Retry.uploadChunkWithRetry ok).2 in
  (result = true ↔ ok 0 = true ∨ ok 1 = true ∨ ok 2 = true)
  ∧ attempts `prefix_of` [0; 1; 2]
  ∧ attempts ≠ []
  ∧ (∀ a, a ∈ attempts → ok a = true → last attempts = Some a)
  ∧ delays = take (length attempts - 1) [1000; 2000]
  ∧ Forall (λ delay, delay < 8000) delays.
Proof.
  unfold Retry.uploadChunkWithRetry. simpl.
  change (0 + 1 + 1) with 2. change (0 + 1) with 1.
  change (Retry.backoff 0) with 1000. change (Retry.backoff 1) with 2000.
  destruct (ok 0) eqn:H0; simpl.
  { split_and!; [by intuition|by exists [1; 2]|done| |done|done].
    by intros a ->%list_elem_of_singleton _. }
  destruct (ok 1) eqn:H1; simpl.
  { split_and!; [by intuition|by exists [2]|done| |done|by repeat constructor].
    intros a [->| ->%list_elem_of_singleton]%elem_of_cons Ha; [congruence|done]. }
  destruct (ok 2) eqn:H2; simpl.
  { split_and!; [by intuition|by exists []|done| |done|by repeat constructor].
    intros a [->|[->| ->%list_elem_of_singleton]%elem_of_cons]%elem_of_cons Ha;
      [congruence..|done]. }
  split_and!; [|by exists []|done| |done|by repeat constructor].
  - split; [done|]. intros [?|[?|?]]; congruence.
  - intros a [->|[->| ->%list_elem_of_singleton]%elem_of_cons]%elem_of_cons Ha; congruence.
Qed.

Lemma uploadChunkWithRetry_three_attempts_witness :
  Forall (λ delay, delay < 8000) (Retry.uploadChunkWithRetry (Z.eqb 1)).2.
Proof.
  exact (proj2 (proj2 (proj2 (proj2 (proj2
    (uploadChunkWithRetry_three_attempts (Z.eqb 1))))))).
Defined.

Lemma emitAll_snoc calls c b :
  Emissions.emitAll (calls ++ [c]) b
  = (((Emissions.emitAll calls b).1
      ++ Queue.actions
           (Queue.emitEvent (Emissions.ctorThrows c) (Emissions.publishOutcome c)
              (Emissions.now c) (Emissions.type c) (Emissions.videoId c) (Emissions.data c)
              (Emissions.emitAll calls b).2))%list,
     Queue.bus
       (Queue.emitEvent (Emissions.ctorThrows c) (Emissions.publishOutcome c)
          (Emissions.now c) (Emissions.type c) (Emissions.videoId c) (Emissions.data c)
          (Emissions.emitAll calls b).2)).
Proof. unfold Emissions.emitAll. by rewrite foldl_app. Qed.

(** X22. In the in-process mode the server never talks to Redis: however
    many events are emitted, nothing is published, no connection is
    created, the listeners stay the same, and every listener is invoked
    once per event, in registration order. *)
Theorem in_process_mode_never_publishes (calls : list Emissions.Call) (b : Queue.Bus) :
  Queue.DEV_MODE (Queue.broker b) = true →
  let done_ := (Emissions.emitAll calls b).1 in
  let b' := (Emissions.emitAll calls b).2 in
  Forall (λ a, Emissions.isPublish a = false) done_
  ∧ Queue.DEV_MODE (Queue.broker b') = true
  ∧ Queue.connection (Queue.broker b') = Queue.connection (Queue.broker b)
  ∧ Queue.listeners b' = Queue.listeners b
  ∧ done_
    = calls ≫= (λ c, map (λ l, Queue.Invoke l
                                 (VideoEvent.mk (Emissions.type c) (Emissions.videoId c)
                                                (Emissions.data c) (Emissions.now c)))
                         (Queue.listeners b)).
Proof.
  intros Hdev. induction calls as [|c calls IH] using rev_ind; simpl.
  - by split_and!.
  - rewrite emitAll_snoc. simpl. destruct IH as (Hno & Hdev' & Hconn & Hl & Hdone).
    set (b1 := (Emissions.emitAll calls b).2) in *.
    unfold Queue.emitEvent, Queue.getRedisConnection. rewrite Hdev'. simpl.
    split_and!; try done.
    + apply Forall_app. split; [done|]. apply Forall_forall.
      intros a (l & <- & _)%list_elem_of_In%in_map_iff. done.
    + rewrite bind_app, Hdone, Hl. simpl. by rewrite app_nil_r.
Qed.

Lemma in_process_mode_never_publishes_witness :
  Forall (λ a, Emissions.isPublish a = false)
    (Emissions.emitAll
       [Emissions.mkCall false Queue.Fulfilled 1 EventType.UPLOAD_COMPLETED "v1" None;
        Emissions.mkCall true (Queue.Rejected "down") 2 EventType.TRANSCODING_STARTED "v1" None]
       (Queue.mkBus ["gateway"] (Queue.mkBroker true false false true))).1.
Proof.
  refine (proj1 (in_process_mode_never_publishes _ _ _)). reflexivity.
Defined.

(** ** The order of the received indices *)

(** The store a chunk request leaves is the one it found or the one
    [markChunkUploaded] makes of it. *)
Lemma handleChunkUpload_store w req size st d :
  (ChunkRoute.handleChunkUpload w req size st d).1.2 = st
  ∨ ∃ sid idx,
      (ChunkRoute.handleChunkUpload w req size st d).1.2
      = (MemStorage.markChunkUploaded sid idx st).2.
Proof.
  assert (∀ pre now d0,
            (Routes.postUploadChunk pre now req st d0).1.2 = st
            ∨ ∃ sid idx, (Routes.postUploadChunk pre now req st d0).1.2
                         = (MemStorage.markChunkUploaded sid idx st).2) as Hpost.
  { intros pre now d0. destruct pre; simpl; try by left.
    destruct (uploadChunk_outcome now req st d0) as [_ Hst].
    destruct Hst as [[-> _]|(sid & s & ci & idx & _ & _ & _ & _ & -> & _)]; [by left|].
    right. by exists sid, idx. }
  unfold ChunkRoute.handleChunkUpload.
  destruct (Cleanup.checkDiskSpace (ChunkRoute.totalSize w)).1; cbn [negb]; [|apply Hpost].
  destruct (ChunkRoute.multer w); apply Hpost.
Qed.

Lemma serves_ascending st st' : serves st st' → chunksAscending st → chunksAscending st'.
Proof.
  intros Hstep Hst. destruct Hstep as [videoId sessionId now body st
                                      | w req size st d
                                      | now jobIds outputPath sessionId session st
                                      | jd now l s s' Hflow
                                      | now1 now2 root id st d].
  - unfold Upload.postUploadSession.
    destruct (Upload.safeParse body) as [[[filename totalSize] mimeType]|]; [|done].
    apply (exec_ascending _ (OpCreateUploadSession sessionId now videoId filename totalSize
                               Routes.CHUNK_SIZE)); [|done].
    by apply (exec_ascending st (OpCreateVideo videoId now filename totalSize mimeType)).
  - destruct (handleChunkUpload_store w req size st d) as [->|(sid & idx & ->)]; [done|].
    by apply markChunkUploaded_ascending.
  - eapply chunksAscending_sessions; [apply completeStore_sessions|].
    apply (exec_ascending st (OpUpdateUploadSession sessionId
             (UploadSession.mkPartial None (Some SessionStatus.completed)))); done.
  - eapply chunksAscending_sessions; [|done].
    by destruct (sameElsewhere_step jd now l s s' Hflow).
  - eapply chunksAscending_sessions; [|done].
    unfold Routes.deleteVideo, MemStorage.deleteVideo. simpl.
    by destruct (bool_decide _).
Qed.

Lemma served_ascending st : served st → chunksAscending st.
Proof.
  induction 1 as [|st st' _ IH Hstep]; [apply chunksAscending_empty|].
  by eapply serves_ascending.
Qed.

(** C10, as the code has it. In every store the server builds, the
    [uploadedChunks] array of every session is strictly ascending, hence
    free of duplicates. From a store with that property, every
    [markChunkUploaded] call on an existing session returns a session with
    a strictly ascending array; every operation of the state store keeps
    the property, except [updateUploadSession] when it is handed an
    [uploadedChunks] array, which it stores as given; and every request
    and every step of a transcoding flow keeps it, the server handing
    [updateUploadSession] a status only. *)
Theorem uploadedChunks_stay_ascending (st : MemStorage.t) :
  (served st → chunksAscending st)
  ∧ (chunksAscending st →
     (∀ sid idx s, (MemStorage.markChunkUploaded sid idx st).1 = Some s →
                   ascending (UploadSession.uploadedChunks s))
     ∧ (∀ op, handsArray op = false → chunksAscending (exec op st))
     ∧ (∀ st', serves st st' → chunksAscending st')).
Proof.
  split; [apply served_ascending|].
  intros Hst. split_and!.
  - intros sid idx s. by apply markChunkUploaded_returns_ascending.
  - intros op. by apply exec_ascending.
  - intros st' Hstep. by eapply serves_ascending.
Qed.

Lemma uploadedChunks_stay_ascending_witness :
  chunksAscending (ChunkRoute.handleChunkUpload (demoEnv 0) demoRequest 7 sessionOpened
                     demoDisk).1.2
  ∧ UploadSession.uploadedChunks
    <$> (MemStorage.uploadSessions
           (ChunkRoute.handleChunkUpload (demoEnv 0) demoRequest 7 sessionOpened
              demoDisk).1.2 !! "s1")
    = Some [1]
  ∧ chunksAscending (exec (OpMarkChunkUploaded "s1" 0)
                       (ChunkRoute.handleChunkUpload (demoEnv 0) demoRequest 7 sessionOpened
                          demoDisk).1.2).
Proof.
  assert (served sessionOpened) as Hopened.
  { apply (served_step MemStorage.empty); [apply served_empty|]. apply serves_session. }
  assert (served (ChunkRoute.handleChunkUpload (demoEnv 0) demoRequest 7 sessionOpened
                    demoDisk).1.2) as Hchunk.
  { apply (served_step sessionOpened); [exact Hopened|]. apply serves_chunk. }
  destruct (uploadedChunks_stay_ascending
              (ChunkRoute.handleChunkUpload (demoEnv 0) demoRequest 7 sessionOpened
                 demoDisk).1.2) as [Hserved Hkept].
  destruct (Hkept (Hserved Hchunk)) as (_ & Hop & _).
  split; [exact (Hserved Hchunk)|]. split; [vm_compute; reflexivity|].
  apply Hop. reflexivity.
Defined.

(** [updateUploadSession] stores the array [[2, 1]] as it is given. *)
Lemma updateUploadSession_stores_the_array_as_given :
  ¬ everyOpKeepsAscending (demoStore [0])
      (OpUpdateUploadSession "s1" (UploadSession.mkPartial (Some [2; 1]) None)).
Proof.
  intros Hkeeps.
  assert (chunksAscending (demoStore [0])) as Hst.
  { intros id s H. simpl in H. apply lookup_singleton_Some in H as [_ <-].
    simpl. repeat constructor. }
  specialize (Hkeeps Hst "s1" (UploadSession.with_uploadedChunks (demoSession [0]) [2; 1])).
  assert (ascending [2; 1]) as Hasc by (apply Hkeeps; reflexivity).
  inversion Hasc as [|x l _ Hall]; subst. inversion Hall as [|y l' Hlt _]; subst. lia.
Qed.
